(** * Crawl and pagination engine of the merchant locator scraper

    Shallow embedding of the two program versions of the repository,
    [src/src/app.ts] (module [App]) and [src/unnamed/part_000] (module
    [Part000]), over an abstract browser session, and the properties of
    the crawl that the specification states about them.

    An asynchronous function is a computation on the state of the page:
    it returns a value or throws, leaves a page state and emits the
    actions it performed on the page and on the file system.  The calls
    of [console.log] are left out; [main] starts on the page that
    [browser.newPage()] returned. *)

From Stdlib Require Import Ascii String DecimalString DecimalN NArith.
From stdpp Require Import base option strings list.

Local Open Scope string_scope.
Local Open Scope list_scope.

(** ** JavaScript values *)

(** The result of [Number(x)].  [JsInt n] is the double whose value is
    the natural number [n], [JsInfinity] the double [Infinity] and
    [JsNaN] the not-a-number value.  [JsOther lit] stands for the value
    of a numeric literal that is not a plain string of decimal digits (a
    sign, a fraction, an exponent, a radix prefix or [Infinity]): it is a
    number, never [NaN], and its value is left uninterpreted. *)
Inductive jsnumber : Type :=
| JsInt (n : N)
| JsInfinity
| JsNaN
| JsOther (lit : string).

(** Texts are kept in UTF-8.  [code_points s] are the characters of [s];
    a byte that does not start a well formed sequence is not a character
    and is kept apart from all of them, above [0x10FFFF]. *)
Definition is_continuation (b : N) : bool := ((128 <=? b) && (b <? 192))%N.

Definition stray (b : N) : N := (1114112 + b)%N.

Fixpoint code_points (s : string) : list N :=
  match s with
  | EmptyString => []
  | String c s1 =>
      let b := N_of_ascii c in
      if (b <? 128)%N then b :: code_points s1
      else
        match s1 with
        | String c1 s2 =>
            let b1 := N_of_ascii c1 in
            if negb (is_continuation b1) then stray b :: code_points s1
            else if ((192 <=? b) && (b <? 224))%N
            then ((b - 192) * 64 + (b1 - 128))%N :: code_points s2
            else
              match s2 with
              | String c2 s3 =>
                  let b2 := N_of_ascii c2 in
                  if negb (is_continuation b2) then stray b :: code_points s1
                  else if ((224 <=? b) && (b <? 240))%N
                  then (((b - 224) * 64 + (b1 - 128)) * 64 + (b2 - 128))%N
                       :: code_points s3
                  else
                    match s3 with
                    | String c3 s4 =>
                        let b3 := N_of_ascii c3 in
                        if (is_continuation b3 && (240 <=? b) && (b <? 248))%N
                        then ((((b - 240) * 64 + (b1 - 128)) * 64 + (b2 - 128)) * 64
                              + (b3 - 128))%N :: code_points s4
                        else stray b :: code_points s1
                    | EmptyString => stray b :: code_points s1
                    end
              | EmptyString => stray b :: code_points s1
              end
        | EmptyString => [stray b]
        end
  end.

(** White space and line terminators, which [Number] strips from both
    ends of a text: TAB, LF, VT, FF, CR, SPACE, NBSP, the space
    separators of Unicode, LS, PS and the byte order mark. *)
Definition is_space (c : N) : bool :=
  existsb (N.eqb c)
    [9; 10; 11; 12; 13; 32; 160; 5760; 8232; 8233; 8239; 8287; 12288; 65279]%N
  || ((8192 <=? c) && (c <=? 8202))%N.

Definition is_digit (c : N) : bool := ((48 <=? c) && (c <=? 57))%N.

Fixpoint ltrim (l : list N) : list N :=
  match l with
  | c :: l' => if is_space c then ltrim l' else l
  | [] => []
  end.

Definition trim (l : list N) : list N := reverse (ltrim (reverse (ltrim l))).

(** The numeric literals of a text, after the ECMAScript grammar of
    [StringNumericLiteral]. *)
Fixpoint span_digits (l : list N) : list N * list N :=
  match l with
  | c :: l' =>
      if is_digit c then let '(ds, r) := span_digits l' in (c :: ds, r)
      else ([], l)
  | [] => ([], [])
  end.

Definition nonempty (l : list N) : bool :=
  match l with [] => false | _ :: _ => true end.

Definition is_sign (c : N) : bool := ((c =? 43) || (c =? 45))%N.

(** An optional exponent: [e] or [E], an optional sign and digits. *)
Definition exponent_part (l : list N) : bool :=
  match l with
  | [] => true
  | c :: r =>
      ((c =? 101) || (c =? 69))%N &&
      let ds := match r with
                | s :: r' => if is_sign s then r' else r
                | [] => []
                end in
      nonempty ds && forallb is_digit ds
  end.

Definition infinity_literal : list N := code_points "Infinity".

Definition unsigned_decimal_literal (l : list N) : bool :=
  if bool_decide (l = infinity_literal) then true
  else
    let '(int, r) := span_digits l in
    match r with
    | c :: r' =>
        if (c =? 46)%N
        then let '(frac, r'') := span_digits r' in
             (nonempty int || nonempty frac) && exponent_part r''
        else nonempty int && exponent_part r
    | [] => nonempty int
    end.

Definition is_hex_digit (c : N) : bool :=
  is_digit c || ((97 <=? c) && (c <=? 102))%N || ((65 <=? c) && (c <=? 70))%N.

(** [0b], [0o] and [0x] literals, which take no sign. *)
Definition radix_literal (l : list N) : bool :=
  match l with
  | z :: p :: ds =>
      (z =? 48)%N && nonempty ds &&
      (((p =? 98) || (p =? 66))%N && forallb (λ c, (c =? 48) || (c =? 49))%N ds
       || ((p =? 111) || (p =? 79))%N && forallb (λ c, (48 <=? c) && (c <=? 55))%N ds
       || ((p =? 120) || (p =? 88))%N && forallb is_hex_digit ds)
  | _ => false
  end.

Definition numeric_literal (l : list N) : bool :=
  radix_literal l ||
  match l with
  | c :: r => if is_sign c then unsigned_decimal_literal r else unsigned_decimal_literal l
  | [] => false
  end.

(** The digits of a string of decimal digits. *)
Definition digit_of (c : N) (d : Decimal.uint) : Decimal.uint :=
  match (c - 48)%N with
  | 0 => Decimal.D0 d | 1 => Decimal.D1 d | 2 => Decimal.D2 d | 3 => Decimal.D3 d
  | 4 => Decimal.D4 d | 5 => Decimal.D5 d | 6 => Decimal.D6 d | 7 => Decimal.D7 d
  | 8 => Decimal.D8 d | _ => Decimal.D9 d
  end%N.

Definition uint_of_digits (l : list N) : Decimal.uint :=
  foldr digit_of Decimal.Nil l.

(** The characters of the digits [d]. *)
Fixpoint digit_codes (d : Decimal.uint) : list N :=
  match d with
  | Decimal.Nil => []
  | Decimal.D0 d => 48%N :: digit_codes d
  | Decimal.D1 d => 49%N :: digit_codes d
  | Decimal.D2 d => 50%N :: digit_codes d
  | Decimal.D3 d => 51%N :: digit_codes d
  | Decimal.D4 d => 52%N :: digit_codes d
  | Decimal.D5 d => 53%N :: digit_codes d
  | Decimal.D6 d => 54%N :: digit_codes d
  | Decimal.D7 d => 55%N :: digit_codes d
  | Decimal.D8 d => 56%N :: digit_codes d
  | Decimal.D9 d => 57%N :: digit_codes d
  end.

(** The double nearest to a natural number, ties going to the even
    significand of 53 bits; from [2^1024] on it is [Infinity]. *)
Definition double_of_N (n : N) : jsnumber :=
  if (n <? 2 ^ 53)%N then JsInt n
  else
    let e := (N.log2 n - 52)%N in
    let q := N.shiftr n e in
    let r := N.land n (N.ones e) in
    let half := (2 ^ (e - 1))%N in
    let q' := if (r <? half)%N then q
              else if (half <? r)%N then (q + 1)%N
              else if N.even q then q else (q + 1)%N in
    let v := N.shiftl q' e in
    if (v <? 2 ^ 1024)%N then JsInt v else JsInfinity.

(** [Number(x)] for [x : string | null].  [Number(null)] is [0] and a
    blank text converts to [0]; a text that, once trimmed, is not a
    numeric literal converts to [NaN]. *)
Definition Number (x : option string) : jsnumber :=
  match x with
  | None => JsInt 0
  | Some s =>
      match trim (code_points s) with
      | [] => JsInt 0
      | l =>
          if forallb is_digit l then double_of_N (N.of_uint (uint_of_digits l))
          else if numeric_literal l then JsOther s
          else JsNaN
      end
  end.

(** The decimal digits of a natural number. *)
Definition decimal (n : N) : string := NilEmpty.string_of_uint (N.to_uint n).

(** A template literal prints [null] as the text [null]. *)
Definition template (x : option string) : string :=
  match x with Some s => s | None => "null" end.

(** ** Errors and outcomes of asynchronous calls *)

Definition selector := string.

Inductive error : Type :=
| Error (msg : string)         (* [throw new Error(msg)] of the program *)
| TypeError                    (* a method call on [null] or [undefined], or
                                  a call of a value that is not a function *)
| NoElement (sel : selector)   (* [$eval], [click], [select]: no node matches *)
| ClickFailed                  (* the browser refused a click on a handle *)
| SelectFailed (sel : selector)
| NavigationFailed (url : string)
| Timeout (sel : selector)     (* [waitForSelector] gave up *)
| EvaluationFailed (msg : string). (* [throw new Error(msg)] inside a page function *)

(** A promise resolves, rejects, or is still pending when the fuel given
    to the [while] loop is used up. *)
Inductive outcome (A : Type) : Type :=
| Ok (a : A)
| Throw (e : error)
| OutOfFuel.
Arguments Ok {A} a.
Arguments Throw {A} e.
Arguments OutOfFuel {A}.

(** ** The browser session (external collaborator)

    [W] is the state of the page, [H] the identity of an element handle.
    Reads do not change the page; the actions return the page they leave
    behind, or [None] when puppeteer rejects them.  The program does not
    control the time the browser takes to answer: when several promises
    that run together reject with the errors [es], listed in the order
    the promises were started, [settles_first w es] is the position in
    [es] of the one that rejects first. *)
Class Browser (W H : Type) : Type := {
  page_query : W → selector → option H;        (* [page.$(sel)] *)
  page_query_all : W → selector → list H;      (* [page.$$(sel)] *)
  el_query : W → H → selector → option H;      (* [handle.$(sel)] *)
  textContent : W → H → option string;         (* [node.textContent] *)
  getAttribute : W → H → string → option string;
  click : W → H → option W;                    (* [handle.click()] *)
  select : W → H → string → option W;
  waitVisible : W → selector → option W;       (* [waitForSelector(sel, {visible: true})] *)
  waitTimeout : W → N → W;                     (* [waitForTimeout(ms)] *)
  goto : W → string → option W;                (* [page.goto(url)] *)
  settles_first : W → list error → nat
}.

(** What the program does to the outside world, in the order it does it.
    [R] is the type of the records handed to the serializer:
    [AWriteFile path rows] is [fs.writeFileSync(path, stringify(rows,
    {header: true}))]. *)
Inductive action (H R : Type) : Type :=
| AGoto (url : string)
| AClick (h : H)
| APageClick (sel : selector)
| ASelect (sel : selector) (value : string)
| AWaitForSelector (sel : selector)
| AWaitForTimeout (ms : N)
| AWriteFile (path : string) (rows : list R)
| AClose.
Arguments AGoto {H R} url.
Arguments AClick {H R} h.
Arguments APageClick {H R} sel.
Arguments ASelect {H R} sel value.
Arguments AWaitForSelector {H R} sel.
Arguments AWaitForTimeout {H R} ms.
Arguments AWriteFile {H R} path rows.
Arguments AClose {H R}.

(** ** The monad of the crawl: page state, rejection, emitted actions *)

Definition M (W H R A : Type) : Type := W → outcome A * W * list (action H R).

Section Monad.
Context {W H R : Type}.

Definition throw {A} (e : error) : M W H R A := λ w, (Throw e, w, []).

Definition diverge {A} : M W H R A := λ w, (OutOfFuel, w, []).

Definition emit (a : action H R) : M W H R unit := λ w, (Ok tt, w, [a]).

#[export] Instance M_ret : MRet (M W H R) := λ A a w, (Ok a, w, []).

#[export] Instance M_bind : MBind (M W H R) := λ A B k m w,
  match m w with
  | (Ok a, w1, t1) => let '(o, w2, t2) := k a w1 in (o, w2, t1 ++ t2)
  | (Throw e, w1, t1) => (Throw e, w1, t1)
  | (OutOfFuel, w1, t1) => (OutOfFuel, w1, t1)
  end.

(** [for (const x of l) { acc = body(acc, x) }] *)
Fixpoint for_of {A B} (body : B → A → M W H R B) (l : list A) (acc : B)
  : M W H R B :=
  match l with
  | [] => mret acc
  | x :: l' => acc' ← body acc x; for_of body l' acc'
  end.
End Monad.

(** ** Puppeteer calls used by the program *)

Section Puppeteer.
Context {W H R : Type} `{!Browser W H}.

(** [page.$(sel)], [page.$$(sel)] and [handle.$(sel)] *)
Definition page_dollar (sel : selector) : M W H R (option H) := λ w,
  (Ok (page_query w sel), w, []).

Definition page_dollars (sel : selector) : M W H R (list H) := λ w,
  (Ok (page_query_all w sel), w, []).

Definition el_dollar (el : H) (sel : selector) : M W H R (option H) := λ w,
  (Ok (el_query w el sel), w, []).

(** [page.$eval(sel, fn)] and [handle.$eval(sel, fn)]: [fn] runs in the
    page on the first match; without a match the call rejects. *)
Definition page_eval {A} (sel : selector) (fn : W → H → outcome A)
  : M W H R A := λ w,
  match page_query w sel with
  | Some h => (fn w h, w, [])
  | None => (Throw (NoElement sel), w, [])
  end.

Definition el_eval {A} (el : H) (sel : selector) (fn : W → H → outcome A)
  : M W H R A := λ w,
  match el_query w el sel with
  | Some h => (fn w h, w, [])
  | None => (Throw (NoElement sel), w, [])
  end.

(** [handle.click()] *)
Definition el_click (h : H) : M W H R unit := λ w,
  match click w h with
  | Some w' => (Ok tt, w', [AClick h])
  | None => (Throw ClickFailed, w, [])
  end.

(** [page.click(sel)] *)
Definition page_click (sel : selector) : M W H R unit := λ w,
  match page_query w sel with
  | Some h =>
      match click w h with
      | Some w' => (Ok tt, w', [APageClick sel])
      | None => (Throw ClickFailed, w, [])
      end
  | None => (Throw (NoElement sel), w, [])
  end.

(** [page.select(sel, value)] *)
Definition page_select (sel : selector) (value : string) : M W H R unit := λ w,
  match page_query w sel with
  | Some h =>
      match select w h value with
      | Some w' => (Ok tt, w', [ASelect sel value])
      | None => (Throw (SelectFailed sel), w, [])
      end
  | None => (Throw (NoElement sel), w, [])
  end.

(** [page.waitForSelector(sel, { visible: true })] *)
Definition waitForSelector (sel : selector) : M W H R unit := λ w,
  match waitVisible w sel with
  | Some w' => (Ok tt, w', [AWaitForSelector sel])
  | None => (Throw (Timeout sel), w, [])
  end.

(** [page.waitForTimeout(ms)] *)
Definition waitForTimeout (ms : N) : M W H R unit := λ w,
  (Ok tt, waitTimeout w ms, [AWaitForTimeout ms]).

(** [page.goto(url)] *)
Definition page_goto (url : string) : M W H R unit := λ w,
  match goto w url with
  | Some w' => (Ok tt, w', [AGoto url])
  | None => (Throw (NavigationFailed url), w, [])
  end.

(** [fs.writeFileSync(path, stringify(rows, { header: true }))] *)
Definition writeFileSync (path : string) (rows : list R) : M W H R unit :=
  emit (AWriteFile path rows).

(** [l.map(f)]: the promises of the calls [f x], started in the order of
    [l], each with what becomes of it. *)
Fixpoint settle_all {A B} (f : A → M W H R B) (l : list A)
  : W → list (outcome B) * W * list (action H R) := λ w,
  match l with
  | [] => ([], w, [])
  | x :: l' =>
      let '(o, w1, t1) := f x w in
      let '(os, w2, t2) := settle_all f l' w1 in
      (o :: os, w2, t1 ++ t2)
  end.

Definition rejections {B} (os : list (outcome B)) : list error :=
  omap (λ o, match o with Throw e => Some e | _ => None end) os.

Definition fulfilled {B} (os : list (outcome B)) : option (list B) :=
  mapM (λ o, match o with Ok b => Some b | _ => None end) os.

(** [Promise.all(l.map(f))], used by the program with reads [f] that
    leave the page as it is.  When every promise is fulfilled the values
    come back in the order of [l].  When some reject, [Promise.all]
    rejects with the error of the one that rejects first, which the
    browser decides; no value is returned. *)
Definition promise_all_map {A B} (f : A → M W H R B) (l : list A)
  : M W H R (list B) := λ w,
  let '(os, w', tr) := settle_all f l w in
  match rejections os with
  | e :: es => (Throw (default e ((e :: es) !! settles_first w (e :: es))), w', tr)
  | [] =>
      match fulfilled os with
      | Some bs => (Ok bs, w', tr)
      | None => (OutOfFuel, w', tr)
      end
  end.

(** The receiver of a method call: [x.m()] throws a [TypeError] when [x]
    is [null] or [undefined]. *)
Definition receiver (x : option H) : M W H R H :=
  match x with
  | Some h => mret h
  | None => throw TypeError
  end.

(** [Promise.all([a, b])] of two actions.  The source runs the two
    promises concurrently; here they are started in the order of the
    array and the second starts when the first has resolved, so which
    of a click and a wait sees the other is fixed by that order and by
    what [waitVisible] answers. *)
Definition promise_all2 (a b : M W H R unit) : M W H R unit := a;; b.

(** Page functions: [el => el.textContent] and
    [input => input.getAttribute('data-label')]. *)
Definition fn_textContent (w : W) (el : H) : outcome (option string) :=
  Ok (textContent w el).

Definition fn_data_label (w : W) (input : H) : outcome (option string) :=
  Ok (getAttribute w input "data-label").
End Puppeteer.

(** ** Selectors, paths and messages of the source *)

Definition dquote : string := String "034"%char EmptyString.

Definition sel_page_selected : selector := "#search_result_pagination li.selected a".
Definition sel_next_a : selector := "#search_result_pagination li.next a".
Definition sel_next_li : selector := "#search_result_pagination li.next".
Definition sel_h4 : selector := "h4".
Definition sel_address : selector := ".search_result_lists_address".
Definition sel_details : selector := "#search_result_lists .search_result_lists_details".
Definition sel_lists : selector := "#search_result_lists".
Definition sel_input : selector := "input".
Definition sel_expand : selector := "a[href=" +:+ dquote +:+ "javascript:;" +:+ dquote +:+ "]".
Definition sel_genres : selector := "#genre_list ul li".
Definition sel_a : selector := "a".
Definition sel_submit : selector := "#search_submit_basic".
Definition sel_per_page : selector :=
  "select[name=" +:+ dquote +:+ "posts_per_page" +:+ dquote +:+ "]".
Definition sel_result_text : selector := "#search_result_text".
Definition sel_next_pref : selector := ".area_city_list .common_search_nav a".
Definition sel_prefs : selector := ".area_list.area_pref_list ul li ul li".
Definition start_url : string := "https://www.jfcard.co.jp/shopinfo/use.php".

(** [`./dist/${prefName}-${genreName}.csv`] *)
Definition csv_path (prefName genreName : string) : string :=
  "./dist/" +:+ prefName +:+ "-" +:+ genreName +:+ ".csv".

(** ** [src/src/app.ts] *)

Module App.

Record Store : Type := {
  name : option string;
  address : option string;
  genre : option string
}.

Section Program.
Context {W H : Type} `{!Browser W H}.
Local Abbreviation M := (M W H Store).

Definition pickCurrentPageNumber : M jsnumber :=
  page_eval sel_page_selected (λ w item, Ok (Number (textContent w item))).

Definition clickNextPageButton : M unit :=
  page_click sel_next_a.

Definition hasNextPageButton : M bool :=
  el ← page_dollar sel_next_li; mret (bool_decide (is_Some el)).

Definition detailToStoreObj (detailEl : H) (genre : option string) : M Store :=
  name ← el_eval detailEl sel_h4 fn_textContent;
  address ← el_eval detailEl sel_address fn_textContent;
  mret {| name := name; address := address; genre := genre |}.

(** The [while (hasNextPage)] loop of [pickStores]; [hasNextPage] is
    [true] on entry. *)
Fixpoint pickStores_while (fuel : nat) (genre : option string)
    (stores : list Store) : M (list Store) :=
  match fuel with
  | O => diverge
  | S fuel' =>
      pageNumber ← pickCurrentPageNumber;
      details ← page_dollars sel_details;
      pickedStores ← promise_all_map (λ detail, detailToStoreObj detail genre) details;
      let stores := stores ++ pickedStores in
      hasNextPage ← hasNextPageButton;
      if hasNextPage : bool then
        promise_all2 clickNextPageButton (waitForSelector sel_lists);;
        waitForTimeout 3000;;
        pickStores_while fuel' genre stores
      else mret stores
  end.

Definition pickStores (fuel : nat) (genre : option string) : M (list Store) :=
  pageNumber ← pickCurrentPageNumber;
  pickStores_while fuel genre [].

Definition createCSVFile (stores : list Store) (prefName genreName : option string)
  : M unit :=
  writeFileSync (csv_path (template prefName) (template genreName)) stores.

(** Body of [for (const genre of genres)] in [createMaps]. *)
Definition createMaps_for (fuel : nat) (prefName : option string)
    (prefStores : list Store) (genre : H) : M (list Store) :=
  genreName ← el_eval genre sel_input fn_data_label;
  genreSelect ← el_dollar genre sel_a;
  (g ← receiver genreSelect; el_click g);;
  waitForTimeout 3000;;
  promise_all2 (waitForSelector sel_lists) (page_click sel_submit);;
  waitForTimeout 3000;;
  page_select sel_per_page "100";;
  waitForTimeout 3000;;
  searchResult ← page_eval sel_result_text fn_textContent;
  stores ← pickStores fuel genreName;
  let prefStores := prefStores ++ stores in
  createCSVFile stores prefName genreName;;
  (g ← receiver genreSelect; el_click g);;
  mret prefStores.

Definition createMaps (fuel : nat) (pref : option H) : M unit :=
  prefName ← (p ← receiver pref; el_eval p sel_input fn_data_label);
  (p ← receiver pref; el ← el_dollar p sel_expand; e ← receiver el; el_click e);;
  waitForTimeout 3000;;
  genres ← page_dollars sel_genres;
  prefStores ← for_of (createMaps_for fuel prefName) genres [];
  createCSVFile prefStores prefName (Some "all");;
  el ← page_dollar sel_next_pref; e ← receiver el; el_click e.

(** [main] from the page that [browser.newPage()] returned. *)
Definition main (fuel : nat) : M unit :=
  page_goto start_url;;
  allPrefs ← page_dollars sel_prefs;
  let selectedPrefs := (λ n, allPrefs !! n) <$> [17] in
  for_of (λ _ pref, createMaps fuel pref) selectedPrefs tt;;
  emit AClose.
End Program.

End App.

(** ** [src/unnamed/part_000] *)

Module Part000.

Record Merchant : Type := {
  name : string;
  address : string;
  genre : string
}.

Definition msg_pref_name : string := "都道府県名の取得に失敗しました。".
Definition msg_genre_name : string := "ジャンル名の取得に失敗しました。".
Definition msg_name : string := "加盟店名の取得に失敗しました。".
Definition msg_address : string := "住所の取得に失敗しました。".
Definition msg_genre_el : string := "ジャンル要素の取得に失敗しました。".
Definition msg_search_result : string := "検索結果の取得に失敗。".
Definition msg_next_pref : string := "次の都道府県のリンクの取得に失敗しました。".

Section Program.
Context {W H : Type} `{!Browser W H}.
Local Abbreviation M := (M W H Merchant).

Definition getPrefecturesName (pref : option H) : M string :=
  prefName ← (p ← receiver pref; el_eval p sel_input fn_data_label);
  match prefName with
  | None => throw (Error msg_pref_name)
  | Some prefName => mret prefName
  end.

Definition getNowPagination : M jsnumber :=
  page_eval sel_page_selected (λ w item, Ok (Number (textContent w item))).

Definition searchResultNextPageToTransition : M unit :=
  promise_all2 (page_click sel_next_a) (waitForSelector sel_lists);;
  waitForTimeout 3000.

Definition getGenreElementHandles : M (list H) :=
  page_dollars sel_genres.

Definition getGenreName (genreEl : H) : M string :=
  genreName ← el_eval genreEl sel_input fn_data_label;
  match genreName with
  | None => throw (Error msg_genre_name)
  | Some genreName => mret genreName
  end.

Definition hasNextPageButton : M bool :=
  el ← page_dollar sel_next_li; mret (bool_decide (is_Some el)).

Definition convertDetailToMerchantObj (detailEl : H) (genre : string) : M Merchant :=
  name ← el_eval detailEl sel_h4 fn_textContent;
  match name with
  | None => throw (Error msg_name)
  | Some name =>
      address ← el_eval detailEl sel_address fn_textContent;
      match address with
      | None => throw (Error msg_address)
      | Some address =>
          mret {| name := name; address := address; genre := genre |}
      end
  end.

(** The [while (hasNextPage)] loop of [getMerchantFromSearchResult];
    [hasNextPage] is [true] on entry. *)
Fixpoint getMerchantFromSearchResult_while (fuel : nat) (genre : string)
    (merchants : list Merchant) : M (list Merchant) :=
  match fuel with
  | O => diverge
  | S fuel' =>
      pageNumber ← getNowPagination;
      details ← page_dollars sel_details;
      pickedMerchants ←
        promise_all_map (λ detail, convertDetailToMerchantObj detail genre) details;
      let merchants := merchants ++ pickedMerchants in
      hasNextPage ← hasNextPageButton;
      if hasNextPage : bool then
        searchResultNextPageToTransition;;
        getMerchantFromSearchResult_while fuel' genre merchants
      else mret merchants
  end.

Definition getMerchantFromSearchResult (fuel : nat) (genre : string)
  : M (list Merchant) :=
  pageNumber ← getNowPagination;
  getMerchantFromSearchResult_while fuel genre [].

(** [stringify.default(merchants, { header: true })].  [stringify] is the
    function that the module ['csv/lib/sync'] exports under this name,
    the one that [app.ts] calls as [stringify(stores, ...)]; it has no
    property [default], and the call of [undefined] throws. *)
Definition stringify_default (merchants : list Merchant) : M unit :=
  throw TypeError.

Definition saveMerchantsToCSVFile (merchants : list Merchant)
    (prefName genreName : string) : M unit :=
  stringify_default merchants;;
  writeFileSync (csv_path prefName genreName) merchants.

(** The page function of the result summary: the text it returns is
    only logged, so the trimmed value is not kept. *)
Definition fn_searchResult (w : W) (el : H) : outcome unit :=
  match textContent w el with
  | None => Throw (EvaluationFailed msg_search_result)
  | Some _ => Ok tt
  end.

(** Body of [for (const genreHandle of genreHandles)] in [createMaps]. *)
Definition createMaps_for (fuel : nat) (prefecturesName : string)
    (prefMerchants : list Merchant) (genreHandle : H) : M (list Merchant) :=
  genreName ← getGenreName genreHandle;
  genreSelect ← el_dollar genreHandle sel_a;
  match genreSelect with
  | None => throw (Error msg_genre_el)
  | Some genreSelect =>
      el_click genreSelect;;
      waitForTimeout 3000;;
      promise_all2 (waitForSelector sel_lists) (page_click sel_submit);;
      waitForTimeout 3000;;
      page_select sel_per_page "100";;
      waitForTimeout 3000;;
      searchResult ← page_eval sel_result_text fn_searchResult;
      merchants ← getMerchantFromSearchResult fuel genreName;
      let prefMerchants := prefMerchants ++ merchants in
      saveMerchantsToCSVFile merchants prefecturesName genreName;;
      el_click genreSelect;;
      mret prefMerchants
  end.

Definition createMaps (fuel : nat) (pref : option H) : M unit :=
  prefecturesName ← getPrefecturesName pref;
  (p ← receiver pref;
   el ← el_dollar p sel_expand;
   match el with
   | None => throw (Error EmptyString)
   | Some el => el_click el
   end);;
  waitForTimeout 3000;;
  genreHandles ← getGenreElementHandles;
  prefMerchants ← for_of (createMaps_for fuel prefecturesName) genreHandles [];
  saveMerchantsToCSVFile prefMerchants prefecturesName "all";;
  nextPrefLink ← page_dollar sel_next_pref;
  match nextPrefLink with
  | None => throw (Error msg_next_pref)
  | Some nextPrefLink => el_click nextPrefLink
  end.

(** [main] from the page that [browser.newPage()] returned. *)
Definition main (fuel : nat) : M unit :=
  page_goto start_url;;
  allPrefs ← page_dollars sel_prefs;
  let selectedPrefs := (λ n, allPrefs !! n) <$> [17] in
  for_of (λ _ pref, createMaps fuel pref) selectedPrefs tt;;
  emit AClose.
End Program.

End Part000.

(** ** Vocabulary of the specification *)

Section Vocabulary.
Context {W H : Type} `{!Browser W H}.

(** The rows that a run hands to the serializer, in order. *)
Definition writes {R} (tr : list (action H R)) : list (string * list R) :=
  omap (λ a, match a with AWriteFile p rows => Some (p, rows) | _ => None end) tr.

(** Clicks on element handles and file writes of a run, in order. *)
Definition is_click_or_write {R} (a : action H R) : bool :=
  match a with AClick _ | AWriteFile _ _ => true | _ => false end.

Definition clicks_and_writes {R} (tr : list (action H R)) : list (action H R) :=
  filter (λ a, is_click_or_write a) tr.

(** A run that follows the actions [tr]. *)
Definition after {R A} (tr : list (action H R))
    (r : outcome A * W * list (action H R)) : outcome A * W * list (action H R) :=
  (r.1.1, r.1.2, tr ++ r.2).

(** A record of [part_000] seen as a record of [app.ts]. *)
Definition to_store (m : Part000.Merchant) : App.Store :=
  {| App.name := Some (Part000.name m);
     App.address := Some (Part000.address m);
     App.genre := Some (Part000.genre m) |}.

Definition to_store_action (a : action H Part000.Merchant) : action H App.Store :=
  match a with
  | AGoto url => AGoto url
  | AClick h => AClick h
  | APageClick sel => APageClick sel
  | ASelect sel v => ASelect sel v
  | AWaitForSelector sel => AWaitForSelector sel
  | AWaitForTimeout ms => AWaitForTimeout ms
  | AWriteFile p rows => AWriteFile p (to_store <$> rows)
  | AClose => AClose
  end.

(** [app.ts] against [part_000] on one page state.  When [part_000]
    returns, [app.ts] has made the same run, with results related by
    [Q]; when [part_000] stops on an error, [app.ts] has done the same up
    to there. *)
Definition simulates {A B} (Q : A → B → Prop)
    (rp : outcome A * W * list (action H Part000.Merchant))
    (ra : outcome B * W * list (action H App.Store)) : Prop :=
  match rp with
  | (Ok a, w, tr) => ∃ b, Q a b ∧ ra = (Ok b, w, to_store_action <$> tr)
  | (Throw e, w, tr) => (to_store_action <$> tr) `prefix_of` ra.2
  | (OutOfFuel, w, tr) => ra = (OutOfFuel, w, to_store_action <$> tr)
  end.

Definition simulation {A B} (Q : A → B → Prop)
    (mp : M W H Part000.Merchant A) (ma : M W H App.Store B) : Prop :=
  ∀ w, simulates Q (mp w) (ma w).

Definition are_stores (ms : list Part000.Merchant) (ss : list App.Store) : Prop :=
  ss = to_store <$> ms.

(** A result row whose title and address are read as [n] and [a]. *)
Definition row_reads (w : W) (detail : H) (r : string * string) : Prop :=
  ∃ hn ha,
    el_query w detail sel_h4 = Some hn ∧ textContent w hn = Some r.1 ∧
    el_query w detail sel_address = Some ha ∧ textContent w ha = Some r.2.

(** The rows displayed in [w], in the order of the list. *)
Definition page_rows (w : W) (rows : list (string * string)) : Prop :=
  Forall2 (row_reads w) (page_query_all w sel_details) rows.

(** The current page indicator can be read. *)
Definition page_readable (w : W) : Prop :=
  is_Some (page_query w sel_page_selected).

(** The next page control is clicked, the result list shows again and
    after the settle delay the page is [w']. *)
Definition next_page (w w' : W) : Prop :=
  ∃ ha w1 w2,
    page_query w sel_next_a = Some ha ∧ click w ha = Some w1 ∧
    waitVisible w1 sel_lists = Some w2 ∧ w' = waitTimeout w2 3000.

(** [paginated w pages wend]: from [w] the result set shows [pages], one
    after the other, the next page control being there on all pages but
    the last, which is displayed in [wend]. *)
Inductive paginated : W → list (list (string * string)) → W → Prop :=
| paginated_last w rows :
    page_readable w → page_rows w rows →
    page_query w sel_next_li = None →
    paginated w [rows] w
| paginated_next w rows w' pages wend :
    page_readable w → page_rows w rows →
    is_Some (page_query w sel_next_li) →
    next_page w w' → paginated w' pages wend →
    paginated w (rows :: pages) wend.

Definition merchant_of (genre : string) (r : string * string) : Part000.Merchant :=
  {| Part000.name := r.1; Part000.address := r.2; Part000.genre := genre |}.

(** The records of a result set, page after page. *)
Definition merchants_of (genre : string) (pages : list (list (string * string)))
  : list Part000.Merchant :=
  concat (fmap (M := list) (fmap (M := list) (merchant_of genre)) pages).

(** The actions of one page transition. *)
Definition transition_trace {R} : list (action H R) :=
  [APageClick sel_next_a; AWaitForSelector sel_lists; AWaitForTimeout 3000].

(** The extraction of a row by [part_000] fails with [e]. *)
Inductive extract_fails (w : W) (detail : H) : error → Prop :=
| fails_no_title :
    el_query w detail sel_h4 = None →
    extract_fails w detail (NoElement sel_h4)
| fails_null_title hn :
    el_query w detail sel_h4 = Some hn → textContent w hn = None →
    extract_fails w detail (Error Part000.msg_name)
| fails_no_address hn n :
    el_query w detail sel_h4 = Some hn → textContent w hn = Some n →
    el_query w detail sel_address = None →
    extract_fails w detail (NoElement sel_address)
| fails_null_address hn n ha :
    el_query w detail sel_h4 = Some hn → textContent w hn = Some n →
    el_query w detail sel_address = Some ha → textContent w ha = None →
    extract_fails w detail (Error Part000.msg_address).

(** The extraction of a row by [app.ts] fails with [e]: it does when a
    node is missing, and only then. *)
Inductive store_fails (w : W) (detail : H) : error → Prop :=
| store_fails_no_title :
    el_query w detail sel_h4 = None →
    store_fails w detail (NoElement sel_h4)
| store_fails_no_address hn :
    el_query w detail sel_h4 = Some hn →
    el_query w detail sel_address = None →
    store_fails w detail (NoElement sel_address).

(** A read of the page displayed in [w] fails with [e]: the page
    indicator is missing, or the indicator is read and the extraction of
    one of the rows fails with [e]; [fails] tells how a row fails. *)
Definition page_fails (fails : W → H → error → Prop) (w : W) (e : error) : Prop :=
  (page_query w sel_page_selected = None ∧ e = NoElement sel_page_selected) ∨
  (page_readable w ∧
   ∃ detail, detail ∈ page_query_all w sel_details ∧ fails w detail e).

(** [fails_on_page fails w k wk]: the pages before the [k]-th one are
    read and left through the next page control, and the read of the
    [k]-th page, displayed in [wk], fails. *)
Inductive fails_on_page (fails : W → H → error → Prop) : W → nat → W → Prop :=
| fails_here w e :
    page_fails fails w e → fails_on_page fails w 1 w
| fails_later w rows w' k wk :
    page_readable w → page_rows w rows →
    is_Some (page_query w sel_next_li) →
    next_page w w' → fails_on_page fails w' k wk →
    fails_on_page fails w (S k) wk.

(** The steps of one category of [part_000] between reading its label and
    collecting its results: activate the selector, submit the search,
    set the page size and read the summary. *)
Definition category_search (genreSelect : H) : M W H Part000.Merchant unit :=
  el_click genreSelect;;
  waitForTimeout 3000;;
  promise_all2 (waitForSelector sel_lists) (page_click sel_submit);;
  waitForTimeout 3000;;
  page_select sel_per_page "100";;
  waitForTimeout 3000;;
  page_eval sel_result_text Part000.fn_searchResult.

(** The same steps in [app.ts]. *)
Definition store_search (genreSelect : H) : M W H App.Store (option string) :=
  el_click genreSelect;;
  waitForTimeout 3000;;
  promise_all2 (waitForSelector sel_lists) (page_click sel_submit);;
  waitForTimeout 3000;;
  page_select sel_per_page "100";;
  waitForTimeout 3000;;
  page_eval sel_result_text fn_textContent.

(** The actions of these steps. *)
Definition search_trace {R} (genreSelect : H) : list (action H R) :=
  [AClick genreSelect; AWaitForTimeout 3000;
   AWaitForSelector sel_lists; APageClick sel_submit; AWaitForTimeout 3000;
   ASelect sel_per_page "100"; AWaitForTimeout 3000].

(** What a completed turn of the category loop of [app.ts] has gone
    through: the selector it clicked, the label it read, the records it
    collected and the number of page transitions it made. *)
Record category_run : Type := {
  run_select : H;
  run_label : option string;
  run_records : list App.Store;
  run_turns : nat
}.

(** The actions of a completed turn of the category loop. *)
Definition category_trace (prefName : option string) (c : category_run)
  : list (action H App.Store) :=
  search_trace (run_select c) ++
  concat (replicate (run_turns c) transition_trace) ++
  [AWriteFile (csv_path (template prefName) (template (run_label c))) (run_records c);
   AClick (run_select c)].

(** The category behind handle [genre] is the one of the run [c]: in
    some page state its label and its selector are those of [c], and in
    some page state the collection returns the records of [c]. *)
Definition category_of (fuel : nat) (genre : H) (c : category_run) : Prop :=
  (∃ w, (el_eval genre sel_input fn_data_label : M W H App.Store _) w =
          (Ok (run_label c), w, []) ∧
        el_query w genre sel_a = Some (run_select c)) ∧
  (∃ w w' tr, App.pickStores fuel (run_label c) w = (Ok (run_records c), w', tr)).

(** The selection state of the category selectors, which a click
    toggles, at each submission of the search. *)
Definition toggle `{!EqDecision H} (h : H) (selected : list H) : list H :=
  if decide (h ∈ selected) then filter (λ x, x ≠ h) selected else h :: selected.

Fixpoint selected_at_submit `{!EqDecision H} {R} (selected : list H)
    (tr : list (action H R)) : list (list H) :=
  match tr with
  | [] => []
  | AClick h :: tr' => selected_at_submit (toggle h selected) tr'
  | APageClick sel :: tr' =>
      if decide (sel = sel_submit)
      then selected :: selected_at_submit selected tr'
      else selected_at_submit selected tr'
  | _ :: tr' => selected_at_submit selected tr'
  end.
Fixpoint selected_after `{!EqDecision H} {R} (selected : list H)
    (tr : list (action H R)) : list H :=
  match tr with
  | [] => selected
  | AClick h :: tr' => selected_after (toggle h selected) tr'
  | _ :: tr' => selected_after selected tr'
  end.

(** From the selection [before], a computation never submits a search
    with two selectors selected, and leaves the selection [after] when
    it returns. *)
Definition keeps_selection `{!EqDecision H} {R A} (before : list H)
    (m : M W H R A) (after : list H) : Prop :=
  ∀ w, Forall (λ s, (length s ≤ 1)%nat) (selected_at_submit before (m w).2) ∧
       (∀ a, (m w).1.1 = Ok a → selected_after before (m w).2 = after).


(** The file of a completed turn of the category loop. *)
Definition category_file (prefName : option string) (c : category_run)
  : string * list App.Store :=
  (csv_path (template prefName) (template (run_label c)), run_records c).
End Vocabulary.

Arguments category_run : clear implicits.

(** ** A small site to run the program on

    Regions and categories with their result pages; a click on a category
    selector toggles it, the search shows the pages of the first selected
    category and the next page control drops the displayed page. *)

Module Site.

Inductive handle : Type :=
| HPref (i : nat) | HPrefInput (i : nat) | HPrefExpand (i : nat)
| HGenre (j : nat) | HGenreInput (j : nat) | HGenreSelect (j : nat)
| HDetail (r : nat) | HTitle (r : nat) | HAddress (r : nat)
| HPageSelected | HNextLi | HNextA
| HSubmit | HPerPage | HResultText | HNextPref.

#[global] Instance handle_eq_dec : EqDecision handle.
Proof. solve_decision. Defined.

(** A node that is missing is [None]; a node whose text is [null] is
    [Some None]. *)
Record row : Type := {
  title : option (option string);
  addr : option (option string)
}.

Record result_page : Type := {
  indicator : option (option string);
  rows : list row
}.

Record category : Type := {
  cat_label : option string;
  cat_pages : list result_page
}.

Record site : Type := {
  regions : list (option string);
  categories : list category;
  next_region : bool;
  selected : list nat;
  shown : list result_page
}.

Definition shown_page (w : site) : option result_page := head (shown w).

Definition shown_row (w : site) (r : nat) : option row :=
  p ← shown_page w; rows p !! r.

Definition query (w : site) (sel : selector) : option handle :=
  if String.eqb sel sel_page_selected then
    p ← shown_page w; _ ← indicator p; Some HPageSelected
  else if String.eqb sel sel_next_li then
    match shown w with _ :: _ :: _ => Some HNextLi | _ => None end
  else if String.eqb sel sel_next_a then
    match shown w with _ :: _ :: _ => Some HNextA | _ => None end
  else if String.eqb sel sel_submit then Some HSubmit
  else if String.eqb sel sel_per_page then Some HPerPage
  else if String.eqb sel sel_result_text then Some HResultText
  else if String.eqb sel sel_next_pref then
    if next_region w then Some HNextPref else None
  else None.

Definition query_all (w : site) (sel : selector) : list handle :=
  if String.eqb sel sel_details then
    match shown_page w with
    | Some p => HDetail <$> seq 0 (length (rows p))
    | None => []
    end
  else if String.eqb sel sel_genres then HGenre <$> seq 0 (length (categories w))
  else if String.eqb sel sel_prefs then HPref <$> seq 0 (length (regions w))
  else [].

Definition query_in (w : site) (h : handle) (sel : selector) : option handle :=
  match h with
  | HPref i =>
      if String.eqb sel sel_input then Some (HPrefInput i)
      else if String.eqb sel sel_expand then Some (HPrefExpand i)
      else None
  | HGenre j =>
      if String.eqb sel sel_input then Some (HGenreInput j)
      else if String.eqb sel sel_a then Some (HGenreSelect j)
      else None
  | HDetail r =>
      if String.eqb sel sel_h4 then
        x ← shown_row w r; _ ← title x; Some (HTitle r)
      else if String.eqb sel sel_address then
        x ← shown_row w r; _ ← addr x; Some (HAddress r)
      else None
  | _ => None
  end.

Definition text (w : site) (h : handle) : option string :=
  match h with
  | HTitle r => x ← shown_row w r; t ← title x; t
  | HAddress r => x ← shown_row w r; t ← addr x; t
  | HPageSelected => p ← shown_page w; t ← indicator p; t
  | _ => Some EmptyString
  end.

Definition attribute (w : site) (h : handle) (a : string) : option string :=
  if String.eqb a "data-label" then
    match h with
    | HPrefInput i => mjoin (regions w !! i)
    | HGenreInput j => c ← categories w !! j; cat_label c
    | _ => None
    end
  else None.

Definition with_selected (w : site) (s : list nat) : site :=
  {| regions := regions w; categories := categories w;
     next_region := next_region w; selected := s; shown := shown w |}.

Definition with_shown (w : site) (ps : list result_page) : site :=
  {| regions := regions w; categories := categories w;
     next_region := next_region w; selected := selected w; shown := ps |}.

Definition do_click (w : site) (h : handle) : option site :=
  match h with
  | HGenreSelect j => Some (with_selected w (toggle j (selected w)))
  | HSubmit =>
      Some (with_shown w
              (default [] (j ← head (selected w); c ← categories w !! j;
                           Some (cat_pages c))))
  | HNextA => Some (with_shown w (tail (shown w)))
  | _ => Some w
  end.

(** The browser answers in the order it is asked.  Every row is asked
    for its title node first: a missing title node is known first, a
    title without text next, then a missing address node, then an
    address without text; among the rows that fail alike the one started
    first rejects first. *)
Definition answer_time (e : error) : nat :=
  match e with
  | NoElement sel => if String.eqb sel sel_h4 then 0 else 2
  | Error msg => if String.eqb msg Part000.msg_name then 1 else 3
  | _ => 4
  end.

Fixpoint first_at (t : nat) (es : list error) : nat :=
  match es with
  | [] => 0
  | e :: es' => if (answer_time e =? t)%nat then 0 else S (first_at t es')
  end.

Definition settles (w : site) (es : list error) : nat :=
  first_at (foldr (λ e t, Nat.min (answer_time e) t) 4 es) es.

#[global] Instance browser : Browser site handle := {|
  page_query := query;
  page_query_all := query_all;
  el_query := query_in;
  textContent := text;
  getAttribute := attribute;
  click := do_click;
  select := λ w _ _, Some w;
  waitVisible := λ w _, Some w;
  waitTimeout := λ w _, w;
  goto := λ w _, Some w;
  settles_first := settles
|}.

Definition full_row (n a : string) : row :=
  {| title := Some (Some n); addr := Some (Some a) |}.

Definition numbered (k : string) (rs : list row) : result_page :=
  {| indicator := Some (Some k); rows := rs |}.

Definition restaurant : category :=
  {| cat_label := Some "Restaurant";
     cat_pages :=
       [numbered "1" [full_row "R1" "A1"; full_row "R2" "A2"; full_row "R3" "A3"];
        numbered "2" [full_row "R4" "A4"]] |}.

Definition cafe : category :=
  {| cat_label := Some "Cafe";
     cat_pages := [numbered "1" [full_row "C1" "B1"; full_row "C2" "B2"]] |}.

(** Eighteen regions, the last one being Tokyo, with two categories. *)
Definition tokyo : site :=
  {| regions := replicate 17 (Some "Region") ++ [Some "Tokyo"];
     categories := [restaurant; cafe];
     next_region := true;
     selected := [];
     shown := [] |}.

(** The same site without a link to the next region. *)
Definition tokyo_last : site :=
  {| regions := regions tokyo; categories := categories tokyo;
     next_region := false; selected := []; shown := [] |}.

(** A site with too few regions. *)
Definition small : site :=
  {| regions := [Some "Hokkaido"; Some "Aomori"];
     categories := [cafe];
     next_region := true;
     selected := [];
     shown := [] |}.

(** Result sets on display. *)
Definition showing (ps : list result_page) : site :=
  with_shown tokyo ps.

(** Two pages of two rows. *)
Definition two_by_two : site :=
  showing [numbered "1" [full_row "R1" "A1"; full_row "R2" "A2"];
           numbered "2" [full_row "R3" "A3"; full_row "R4" "A4"]].

(** A page whose indicator does not show a number. *)
Definition odd_indicator : site :=
  showing [numbered "abc" [full_row "R1" "A1"]].

(** A page with a row whose title is the empty text. *)
Definition empty_title : site :=
  showing [numbered "1" [full_row EmptyString "A1"]].


(** A category whose second page has a row without an address node and,
    after it, a row without a title node. *)
Definition bar : category :=
  {| cat_label := Some "Bar";
     cat_pages :=
       [numbered "1" [full_row "R1" "A1"];
        numbered "2" [full_row "R2" "A2";
                      {| title := Some (Some "R3"); addr := None |};
                      {| title := None; addr := Some (Some "A4") |}]] |}.

Definition broken : site :=
  {| regions := regions tokyo;
     categories := [cafe; bar];
     next_region := true;
     selected := [];
     shown := [] |}.

(** The site when the turn of the second category starts, when its
    search has gone through and when its collection fails. *)
Definition bar_turn : site := with_shown broken (cat_pages cafe).

Definition bar_searched : site :=
  with_shown (with_selected broken [1]) (cat_pages bar).

Definition bar_failed : site :=
  with_shown (with_selected broken [1]) (tail (cat_pages bar)).

(** A site whose region 17 has no label. *)
Definition unlabelled : site :=
  {| regions := replicate 17 (Some "Region") ++ [None];
     categories := [cafe];
     next_region := true;
     selected := [];
     shown := [] |}.


Definition tokyo_last_walked : site := with_shown tokyo_last (cat_pages cafe).

(** The site when [part_000] stops in the walk of Tokyo: the first
    category is selected and its last page is shown. *)
Definition tokyo_stopped : site :=
  with_shown (with_selected tokyo [0]) (tail (cat_pages restaurant)).

(** The category loop and the region walk of [app.ts] on Tokyo. *)
Definition tokyo_walk :=
  for_of (App.createMaps_for 2 (Some "Tokyo")) [HGenre 0; HGenre 1] [] tokyo.


End Site.

(** ** Vocabulary of the runs *)

Section RunVocabulary.
Context {W H : Type} `{!Browser W H}.

(** Every action that a computation emits satisfies [P], whatever its
    outcome, and the values it returns satisfy [Q]. *)
Definition emits {R A} (P : action H R → Prop) (Q : A → Prop)
    (m : M W H R A) : Prop :=
  ∀ w, Forall P (m w).2 ∧ (∀ a, (m w).1.1 = Ok a → Q a).

(** A computation writes at most [n] files, and exactly [n] when it
    returns. *)
Definition writes_at_most {R A} (n : nat) (m : M W H R A) : Prop :=
  ∀ w, (length (writes (m w).2) ≤ n)%nat ∧
       (∀ a, (m w).1.1 = Ok a → length (writes (m w).2) = n).

(** A read: a computation that leaves the page as it is and emits
    nothing, whatever its outcome. *)
Definition reads {R A} (m : M W H R A) : Prop :=
  ∀ w, (m w).1.2 = w ∧ (m w).2 = [].

(** The actions of a page transition. *)
Definition is_transition_action {R} (a : action H R) : Prop :=
  a = APageClick sel_next_a ∨ a = AWaitForSelector sel_lists ∨
  a = AWaitForTimeout 3000.

(** A file of [app.ts] is complete: its path is made of the label of the
    region and the label of a category, and its rows are all the
    records that a collection for this category returned. *)
Definition complete_file (fuel : nat) (prefName : option string)
    (a : action H App.Store) : Prop :=
  match a with
  | AWriteFile path rows =>
      ∃ genreName w w' tr,
        path = csv_path (template prefName) (template genreName) ∧
        Forall (λ s, App.genre s = genreName) rows ∧
        App.pickStores fuel genreName w = (Ok rows, w', tr)
  | _ => True
  end.

(** A file of [app.ts] is named after the region label [prefName]. *)
Definition named_after (prefName : option string) (a : action H App.Store) : Prop :=
  match a with
  | AWriteFile path _ => ∃ genreName, path = csv_path (template prefName) (template genreName)
  | _ => True
  end.

(** An action of the walk of a region: neither the navigation to the
    starting page nor the closing of the browser. *)
Definition is_walk_action {R} (a : action H R) : Prop :=
  match a with
  | AGoto _ | AClose => False
  | _ => True
  end.

(** [m'] runs as [m] does wherever the run of [m] ends. *)
Definition agrees {R A} (m m' : M W H R A) : Prop :=
  ∀ w, (m w).1.1 ≠ OutOfFuel → m' w = m w.

(** The run of a computation that takes fuel does not depend on the
    fuel once it is enough for the run to end. *)
Definition fuel_monotone {R A} (m : nat → M W H R A) : Prop :=
  ∀ n n', (n ≤ n')%nat → agrees (m n) (m n').

(** An action that is not the write of a file. *)
Definition is_not_write {R} (a : action H R) : Prop :=
  match a with
  | AWriteFile _ _ => False
  | _ => True
  end.

(** The pages that satisfy [I] can be read, show a next page control and
    lead through it to a page that satisfies [I] again. *)
Definition endless (I : W → Prop) : Prop :=
  ∀ w, I w →
    page_readable w ∧ (∃ rows, page_rows w rows) ∧
    is_Some (page_query w sel_next_li) ∧ ∃ w', next_page w w' ∧ I w'.

(** The files of [app.ts] for a category of a given label. *)
Definition labelled (prefName genreName : option string) (a : action H App.Store) : Prop :=
  match a with
  | AWriteFile path rows =>
      path = csv_path (template prefName) (template genreName) ∧
      Forall (λ s, App.genre s = genreName) rows
  | _ => True
  end.
End RunVocabulary.

(** ** Variants of the site *)

Module Variants.

(** Tokyo with a single category, whose entry has no label. *)
Definition nameless : Site.site :=
  {| Site.regions := replicate 17 (Some "Region") ++ [Some "Tokyo"];
     Site.categories :=
       [{| Site.cat_label := None; Site.cat_pages := Site.cat_pages Site.cafe |}];
     Site.next_region := true;
     Site.selected := [];
     Site.shown := [] |}.

(** A site whose next page control is always there and leads to the same
    page. *)
Definition circular : Browser Site.site Site.handle := {|
  page_query := λ w sel,
    if String.eqb sel sel_next_li then Some Site.HNextLi
    else if String.eqb sel sel_next_a then Some Site.HNextA
    else Site.query w sel;
  page_query_all := Site.query_all;
  el_query := Site.query_in;
  textContent := Site.text;
  getAttribute := Site.attribute;
  click := λ w h,
    match h with
    | Site.HNextA => Some w
    | _ => Site.do_click w h
    end;
  select := λ w _ _, Some w;
  waitVisible := λ w _, Some w;
  waitTimeout := λ w _, w;
  goto := λ w _, Some w;
  settles_first := Site.settles
|}.

(** A site whose next page item holds no link. *)
Definition no_anchor : Browser Site.site Site.handle := {|
  page_query := λ w sel,
    if String.eqb sel sel_next_a then None else Site.query w sel;
  page_query_all := Site.query_all;
  el_query := Site.query_in;
  textContent := Site.text;
  getAttribute := Site.attribute;
  click := Site.do_click;
  select := λ w _ _, Some w;
  waitVisible := λ w _, Some w;
  waitTimeout := λ w _, w;
  goto := λ w _, Some w;
  settles_first := Site.settles
|}.

(** A site on which the click that toggles a category back is refused
    once results are shown. *)
Definition stuck_selector : Browser Site.site Site.handle := {|
  page_query := Site.query;
  page_query_all := Site.query_all;
  el_query := Site.query_in;
  textContent := Site.text;
  getAttribute := Site.attribute;
  click := λ w h,
    match h, Site.shown w with
    | Site.HGenreSelect _, _ :: _ => None
    | _, _ => Site.do_click w h
    end;
  select := λ w _ _, Some w;
  waitVisible := λ w _, Some w;
  waitTimeout := λ w _, w;
  goto := λ w _, Some w;
  settles_first := Site.settles
|}.

End Variants.

(** * Properties *)

(** ** Running the monad *)

Section Runs.
Context {W H R : Type}.
Implicit Types w : W.

Lemma run_bind {A B} (m : M W H R A) (k : A → M W H R B) w :
  (m ≫= k) w =
  match m w with
  | (Ok a, w1, t1) => let '(o, w2, t2) := k a w1 in (o, w2, t1 ++ t2)
  | (Throw e, w1, t1) => (Throw e, w1, t1)
  | (OutOfFuel, w1, t1) => (OutOfFuel, w1, t1)
  end.
Proof. reflexivity. Qed.

Lemma run_bind_ok {A B} (m : M W H R A) (k : A → M W H R B) w a w1 t1 :
  m w = (Ok a, w1, t1) →
  (m ≫= k) w = ((k a w1).1.1, (k a w1).1.2, t1 ++ (k a w1).2).
Proof. intros Hm. rewrite run_bind, Hm. by destruct (k a w1) as [[??]?]. Qed.

Lemma run_bind_read {A B} (m : M W H R A) (k : A → M W H R B) w a :
  m w = (Ok a, w, []) → (m ≫= k) w = k a w.
Proof. intros Hm. rewrite run_bind, Hm. by destruct (k a w) as [[??]?]. Qed.

Lemma run_bind_throw {A B} (m : M W H R A) (k : A → M W H R B) w e w1 t1 :
  m w = (Throw e, w1, t1) → (m ≫= k) w = (Throw e, w1, t1).
Proof. intros Hm. by rewrite run_bind, Hm. Qed.

Lemma run_bind_ret {A B} (a : A) (k : A → M W H R B) w :
  (mret a ≫= k) w = k a w.
Proof. by apply run_bind_read. Qed.

Lemma run_bind_ext {A B} (m : M W H R A) (k k' : A → M W H R B) w :
  (∀ a w1, k a w1 = k' a w1) → (m ≫= k) w = (m ≫= k') w.
Proof.
  intros Hk. rewrite !run_bind.
  destruct (m w) as [[[a|e|] w1] t1]; [|done..]. by rewrite Hk.
Qed.

Lemma run_bind_assoc {A B C} (m : M W H R A) (k : A → M W H R B)
    (k' : B → M W H R C) w :
  ((m ≫= k) ≫= k') w = (m ≫= λ a, k a ≫= k') w.
Proof.
  rewrite !run_bind. destruct (m w) as [[[a|e|] w1] t1]; [|done..].
  rewrite !run_bind. destruct (k a w1) as [[[b|e|] w2] t2]; [|done..].
  destruct (k' b w2) as [[o w3] t3]. by rewrite (assoc_L (++)).
Qed.
End Runs.

(** ** Promises that run together *)

Section Promises.
Context {W H R : Type} `{!Browser W H}.
Implicit Types w : W.

(** A computation that, on the page [w], leaves the page as it is and
    emits nothing. *)
Local Abbreviation reads_at w m := ((m w).1.2 = w ∧ (m w).2 = []).

Lemma settle_all_reads {A B} (f : A → M W H R B) l w :
  (∀ x, reads_at w (f x)) →
  settle_all f l w = ((λ x, (f x w).1.1) <$> l, w, []).
Proof.
  intros Hf. induction l as [|x l IH]; [done|]. cbn [settle_all].
  destruct (Hf x) as [Hw Ht]. destruct (f x w) as [[o w1] t1] eqn:Hx.
  cbn [fst snd] in *. subst. rewrite IH. cbn. by rewrite Hx.
Qed.

Lemma elem_of_rejections {B} (os : list (outcome B)) e :
  e ∈ rejections os ↔ Throw e ∈ os.
Proof.
  unfold rejections. rewrite list_elem_of_omap. split.
  - intros ([]& Ho & [= ->]). done.
  - intros Ho. by exists (Throw e).
Qed.

Lemma fulfilled_Some {B} (os : list (outcome B)) bs :
  fulfilled os = Some bs ↔ os = Ok <$> bs.
Proof.
  unfold fulfilled. rewrite mapM_Some. split.
  - induction 1 as [|[]]; simplify_eq/=; by f_equal.
  - intros ->. induction bs; by constructor.
Qed.

Lemma fulfilled_None {B} (os : list (outcome B)) :
  rejections os = [] → fulfilled os = None → OutOfFuel ∈ os.
Proof.
  induction os as [|[b|e|] os IH]; cbn; [done| |done|].
  - intros Hrej Hful. apply list_elem_of_further, IH; [done|].
    unfold fulfilled in *. cbn in Hful. by destruct (mapM _ os).
  - intros _ _. apply list_elem_of_here.
Qed.

Lemma settled_first_elem w e (es : list error) :
  default e ((e :: es) !! settles_first w (e :: es)) ∈ e :: es.
Proof.
  destruct ((e :: es) !! settles_first w (e :: es)) as [e'|] eqn:He; cbn.
  - by eapply list_elem_of_lookup_2.
  - apply list_elem_of_here.
Qed.

(** [Promise.all] over reads: it is fulfilled when all the promises
    are, with their values in order; it rejects when one of them does,
    with the error of one that does. *)
Lemma promise_all_map_ok {A B} (f : A → M W H R B) l w ys :
  Forall2 (λ x y, f x w = (Ok y, w, [])) l ys →
  promise_all_map f l w = (Ok ys, w, []).
Proof.
  intros Hl.
  assert (settle_all f l w = (Ok <$> ys, w, [])) as Hall.
  { induction Hl as [|x y l ys Hx _ IH]; [done|].
    cbn [settle_all]. by rewrite Hx, IH. }
  unfold promise_all_map. rewrite Hall.
  assert (rejections (Ok <$> ys) = []) as ->.
  { clear. by induction ys. }
  by rewrite (proj2 (fulfilled_Some _ ys)).
Qed.

Lemma promise_all_map_outcome {A B} (f : A → M W H R B) l w :
  (∀ x, reads_at w (f x)) →
  (promise_all_map f l w).1.2 = w ∧ (promise_all_map f l w).2 = [] ∧
  match (promise_all_map f l w).1.1 with
  | Ok ys => Forall2 (λ x y, (f x w).1.1 = Ok y) l ys
  | Throw e => ∃ x, x ∈ l ∧ (f x w).1.1 = Throw e
  | OutOfFuel => ∃ x, x ∈ l ∧ (f x w).1.1 = OutOfFuel
  end.
Proof.
  intros Hf. unfold promise_all_map. rewrite (settle_all_reads _ _ _ Hf).
  destruct (rejections _) as [|e es] eqn:Hrej.
  - destruct (fulfilled _) as [bs|] eqn:Hful; cbn [fst snd].
    + split_and!; [done..|]. apply fulfilled_Some in Hful.
      clear Hrej. revert bs Hful.
      induction l as [|x l IH]; intros [|b bs] Hful; simplify_eq/=; constructor; auto.
    + split_and!; [done..|].
      apply fulfilled_None, list_elem_of_fmap in Hful as (x & Hx & Hl); eauto.
  - cbn [fst snd]. split_and!; [done..|].
    assert (default e ((e :: es) !! settles_first w (e :: es))
              ∈ rejections ((λ x, (f x w).1.1) <$> l)) as Hin
      by (rewrite Hrej; apply settled_first_elem).
    apply elem_of_rejections, list_elem_of_fmap in Hin as (x & Hx & Hl). eauto.
Qed.

Lemma promise_all_map_rejects {A B} (f : A → M W H R B) l w x e0 :
  (∀ x, reads_at w (f x)) →
  x ∈ l → (f x w).1.1 = Throw e0 →
  ∃ e, promise_all_map f l w = (Throw e, w, []) ∧
       ∃ x', x' ∈ l ∧ (f x' w).1.1 = Throw e.
Proof.
  intros Hf Hx He0.
  destruct (promise_all_map_outcome f l w Hf) as (Hw & Ht & Hout).
  assert (Throw e0 ∈ (λ x, (f x w).1.1) <$> l) as Hrej.
  { apply list_elem_of_fmap. eauto. }
  apply elem_of_rejections in Hrej.
  revert Hw Ht Hout. unfold promise_all_map.
  rewrite (settle_all_reads _ _ _ Hf).
  destruct (rejections _) as [|e es]; [by apply elem_of_nil in Hrej|].
  cbn [fst snd]. intros _ _ Hout. eauto.
Qed.

Lemma promise_all_map_inv_ok {A B} (f : A → M W H R B) l w ys w' tr :
  (∀ x, reads_at w (f x)) →
  promise_all_map f l w = (Ok ys, w', tr) →
  Forall2 (λ x y, (f x w).1.1 = Ok y) l ys ∧ w' = w ∧ tr = [].
Proof.
  intros Hf Hrun.
  destruct (promise_all_map_outcome f l w Hf) as (Hw & Ht & Hout).
  rewrite Hrun in Hw, Ht, Hout. by cbn [fst snd] in *.
Qed.
End Promises.
(** ** Actions of a run *)

Section Emits.
Context {W H R : Type} `{!Browser W H}.
Implicit Types (w : W) (P : action H R → Prop).

Lemma emits_bind {A B} P (Q : A → Prop) (Q' : B → Prop)
    (m : M W H R A) (k : A → M W H R B) :
  emits P Q m → (∀ a, Q a → emits P Q' (k a)) → emits P Q' (m ≫= k).
Proof.
  intros Hm Hk w. specialize (Hm w). rewrite run_bind.
  destruct (m w) as [[[a|e|] w1] t1]; cbn [fst snd] in *;
    [|by split; [apply Hm|]..].
  destruct Hm as [Hm1 Hm2]. specialize (Hk a (Hm2 a eq_refl) w1).
  destruct (k a w1) as [[o w2] t2]. cbn [fst snd] in *.
  split; [apply Forall_app; split; [done|apply Hk]|apply Hk].
Qed.

Lemma emits_ret {A} P (Q : A → Prop) a : Q a → emits P Q (mret a : M W H R A).
Proof. intros Ha w. split; [constructor|]. by intros ? [= <-]. Qed.

Lemma emits_throw {A} P (Q : A → Prop) e : emits P Q (throw e : M W H R A).
Proof. intros w. by split; [constructor|]. Qed.

Lemma emits_diverge {A} P (Q : A → Prop) : emits P Q (diverge : M W H R A).
Proof. intros w. by split; [constructor|]. Qed.

Lemma emits_weaken {A} P P' (Q Q' : A → Prop) (m : M W H R A) :
  (∀ a, P a → P' a) → (∀ a, Q a → Q' a) → emits P Q m → emits P' Q' m.
Proof.
  intros HP HQ Hm w. destruct (Hm w) as [H1 H2].
  split; [by eapply Forall_impl|naive_solver].
Qed.

Lemma emits_reads {A} P (m : M W H R A) :
  reads m → emits P (λ _, True) m.
Proof. intros Hm w. destruct (Hm w) as [_ ->]. by split; [constructor|]. Qed.

Lemma reads_page_dollar sel : reads (page_dollar sel : M W H R _).
Proof. by intros w. Qed.

Lemma reads_page_dollars sel : reads (page_dollars sel : M W H R _).
Proof. by intros w. Qed.

Lemma reads_el_dollar el sel : reads (el_dollar el sel : M W H R _).
Proof. by intros w. Qed.

Lemma reads_receiver x : reads (receiver x : M W H R H).
Proof. by destruct x. Qed.

Lemma reads_page_eval {A} sel (fn : W → H → outcome A) :
  reads (page_eval sel fn : M W H R A).
Proof. intros w. unfold page_eval. by destruct (page_query w sel). Qed.

Lemma reads_el_eval {A} el sel (fn : W → H → outcome A) :
  reads (el_eval el sel fn : M W H R A).
Proof. intros w. unfold el_eval. by destruct (el_query w el sel). Qed.

Lemma reads_ret {A} (a : A) : reads (mret a : M W H R A).
Proof. by intros w. Qed.

Lemma reads_throw {A} e : reads (throw e : M W H R A).
Proof. by intros w. Qed.

Lemma reads_bind {A B} (m : M W H R A) (k : A → M W H R B) :
  reads m → (∀ a, reads (k a)) → reads (m ≫= k).
Proof.
  intros Hm Hk w. rewrite run_bind. destruct (Hm w) as [Hw Ht].
  destruct (m w) as [[[a|e|] w1] t1]; cbn [fst snd] in *; subst; [|done..].
  destruct (Hk a w) as [Hw' Ht']. destruct (k a w) as [[o w2] t2].
  cbn [fst snd] in *. by subst.
Qed.

Lemma reads_promise_all_map {A B} (f : A → M W H R B) l :
  (∀ x, reads (f x)) → reads (promise_all_map f l).
Proof.
  intros Hf w.
  by destruct (promise_all_map_outcome f l w (λ x, Hf x w)) as (? & ? & _).
Qed.

(** Calls that emit one action. *)
Lemma emits_el_click P h : P (AClick h) → emits P (λ _, True) (el_click h).
Proof.
  intros HP w. unfold el_click. destruct (click w h); cbn; by repeat constructor.
Qed.

Lemma emits_page_click P sel :
  P (APageClick sel) → emits P (λ _, True) (page_click sel).
Proof.
  intros HP w. unfold page_click. destruct (page_query w sel) as [h|]; [|by split; [constructor|]].
  destruct (click w h); cbn; by repeat constructor.
Qed.

Lemma emits_page_select P sel v :
  P (ASelect sel v) → emits P (λ _, True) (page_select sel v).
Proof.
  intros HP w. unfold page_select.
  destruct (page_query w sel) as [h|]; [|by split; [constructor|]].
  destruct (select w h v); cbn; by repeat constructor.
Qed.

Lemma emits_waitForSelector P sel :
  P (AWaitForSelector sel) → emits P (λ _, True) (waitForSelector sel).
Proof.
  intros HP w. unfold waitForSelector.
  destruct (waitVisible w sel); cbn; by repeat constructor.
Qed.

Lemma emits_waitForTimeout P ms :
  P (AWaitForTimeout ms) → emits P (λ _, True) (waitForTimeout ms).
Proof. intros HP w. cbn. by repeat constructor. Qed.

Lemma emits_writeFileSync P path rows :
  P (AWriteFile path rows) →
  emits P (λ _, True) (writeFileSync path rows : M W H R unit).
Proof. intros HP w. cbn. by repeat constructor. Qed.

Lemma emits_promise_all2 P (a b : M W H R unit) :
  emits P (λ _, True) a → emits P (λ _, True) b →
  emits P (λ _, True) (promise_all2 a b).
Proof. intros Ha Hb. eapply emits_bind; [exact Ha|]. by intros. Qed.

Lemma emits_for_of {A C} P (Q : A → Prop) (body : A → C → M W H R A) l :
  (∀ a c, Q a → emits P Q (body a c)) →
  ∀ a, Q a → emits P Q (for_of body l a).
Proof.
  intros Hbody. induction l as [|c l IH]; intros a Ha; cbn [for_of].
  - by apply emits_ret.
  - eapply emits_bind; [by apply Hbody|]. intros a' Ha'. by apply IH.
Qed.
Lemma emits_reads_post {A} P (Q : A → Prop) (m : M W H R A) :
  reads m → (∀ w a, (m w).1.1 = Ok a → Q a) → emits P Q m.
Proof.
  intros Hm HQ w. destruct (Hm w) as [_ ->]. split; [constructor|apply HQ].
Qed.

Lemma Forall_writes P (tr : list (action H R)) :
  Forall P tr → Forall (λ f, P (AWriteFile f.1 f.2)) (writes tr).
Proof.
  induction 1 as [|a tr Ha _ IH]; [constructor|].
  destruct a; try done. by constructor.
Qed.

Lemma writes_silent (tr : list (action H R)) :
  Forall is_not_write tr → writes tr = [].
Proof. induction 1 as [|a tr Ha _ IH]; [done|]. by destruct a. Qed.
End Emits.

(** ** Reading one page *)

Section Pages.
Context {W H : Type} `{!Browser W H}.
Implicit Types (w : W) (genre : string).

Lemma getNowPagination_run w :
  Part000.getNowPagination w =
  match page_query w sel_page_selected with
  | Some h => (Ok (Number (textContent w h)), w, [])
  | None => (Throw (NoElement sel_page_selected), w, [])
  end.
Proof. reflexivity. Qed.

Lemma pickCurrentPageNumber_run w :
  App.pickCurrentPageNumber w =
  match page_query w sel_page_selected with
  | Some h => (Ok (Number (textContent w h)), w, [])
  | None => (Throw (NoElement sel_page_selected), w, [])
  end.
Proof. reflexivity. Qed.

Lemma getNowPagination_readable w :
  page_readable w → ∃ n, Part000.getNowPagination w = (Ok n, w, []).
Proof.
  intros [h Hh]. rewrite getNowPagination_run, Hh. eauto.
Qed.

Lemma pickCurrentPageNumber_readable w :
  page_readable w → ∃ n, App.pickCurrentPageNumber w = (Ok n, w, []).
Proof.
  intros [h Hh]. rewrite pickCurrentPageNumber_run, Hh. eauto.
Qed.

Lemma hasNextPageButton_run w :
  Part000.hasNextPageButton w =
  (Ok (bool_decide (is_Some (page_query w sel_next_li))), w, []).
Proof. reflexivity. Qed.

Lemma hasNextPageButton_run_app w :
  App.hasNextPageButton w =
  (Ok (bool_decide (is_Some (page_query w sel_next_li))), w, []).
Proof. reflexivity. Qed.

Lemma convertDetailToMerchantObj_run w detail genre :
  Part000.convertDetailToMerchantObj detail genre w =
  match el_query w detail sel_h4 with
  | None => (Throw (NoElement sel_h4), w, [])
  | Some hn =>
      match textContent w hn with
      | None => (Throw (Error Part000.msg_name), w, [])
      | Some n =>
          match el_query w detail sel_address with
          | None => (Throw (NoElement sel_address), w, [])
          | Some ha =>
              match textContent w ha with
              | None => (Throw (Error Part000.msg_address), w, [])
              | Some a =>
                  (Ok {| Part000.name := n; Part000.address := a;
                         Part000.genre := genre |}, w, [])
              end
          end
      end
  end.
Proof.
  unfold Part000.convertDetailToMerchantObj.
  rewrite run_bind. unfold el_eval at 1, fn_textContent.
  destruct (el_query w detail sel_h4) as [hn|]; [|done].
  destruct (textContent w hn) as [n|]; [|done].
  rewrite run_bind. unfold el_eval.
  destruct (el_query w detail sel_address) as [ha|]; [|done].
  by destruct (textContent w ha).
Qed.

Lemma detailToStoreObj_cases w detail label :
  App.detailToStoreObj detail label w =
  match el_query w detail sel_h4 with
  | None => (Throw (NoElement sel_h4), w, [])
  | Some hn =>
      match el_query w detail sel_address with
      | None => (Throw (NoElement sel_address), w, [])
      | Some ha =>
          (Ok {| App.name := textContent w hn; App.address := textContent w ha;
                 App.genre := label |}, w, [])
      end
  end.
Proof.
  unfold App.detailToStoreObj.
  rewrite run_bind. unfold el_eval at 1, fn_textContent.
  destruct (el_query w detail sel_h4) as [hn|]; [|done].
  rewrite run_bind. unfold el_eval.
  by destruct (el_query w detail sel_address).
Qed.

Lemma convertDetailToMerchantObj_reads w detail genre r :
  row_reads w detail r →
  Part000.convertDetailToMerchantObj detail genre w = (Ok (merchant_of genre r), w, []).
Proof.
  intros (hn & ha & Hn & Htn & Ha & Hta).
  by rewrite convertDetailToMerchantObj_run, Hn, Htn, Ha, Hta.
Qed.

Lemma detailToStoreObj_reads w detail genre r :
  row_reads w detail r →
  App.detailToStoreObj detail (Some genre) w =
    (Ok (to_store (merchant_of genre r)), w, []).
Proof.
  intros (hn & ha & Hn & Htn & Ha & Hta).
  by rewrite detailToStoreObj_cases, Hn, Ha, Htn, Hta.
Qed.

Lemma convertDetailToMerchantObj_fails w detail genre e :
  extract_fails w detail e →
  Part000.convertDetailToMerchantObj detail genre w = (Throw e, w, []).
Proof.
  rewrite convertDetailToMerchantObj_run.
  destruct 1 as [Hn|hn Hn Htn|hn n Hn Htn Ha|hn n ha Hn Htn Ha Hta];
    rewrite Hn; [done|..]; rewrite Htn; [done|..]; rewrite Ha; [done|].
  by rewrite Hta.
Qed.

Lemma detailToStoreObj_fails w detail label e :
  store_fails w detail e →
  App.detailToStoreObj detail label w = (Throw e, w, []).
Proof.
  rewrite detailToStoreObj_cases.
  destruct 1 as [Hn|hn Hn Ha]; rewrite Hn; [done|]. by rewrite Ha.
Qed.

(** The extraction of a row fails as [extract_fails] and [store_fails]
    say, and in no other way. *)
Lemma convertDetailToMerchantObj_throws w detail genre e :
  (Part000.convertDetailToMerchantObj detail genre w).1.1 = Throw e →
  extract_fails w detail e.
Proof.
  rewrite convertDetailToMerchantObj_run.
  destruct (el_query w detail sel_h4) as [hn|] eqn:Hn;
    [|intros [= <-]; by constructor].
  destruct (textContent w hn) as [n|] eqn:Htn;
    [|intros [= <-]; by econstructor].
  destruct (el_query w detail sel_address) as [ha|] eqn:Ha;
    [|intros [= <-]; by econstructor].
  destruct (textContent w ha) as [a|] eqn:Hta; [done|].
  intros [= <-]. by econstructor.
Qed.

Lemma detailToStoreObj_throws w detail label e :
  (App.detailToStoreObj detail label w).1.1 = Throw e →
  store_fails w detail e.
Proof.
  rewrite detailToStoreObj_cases.
  destruct (el_query w detail sel_h4) as [hn|] eqn:Hn;
    [|intros [= <-]; by constructor].
  destruct (el_query w detail sel_address) as [ha|] eqn:Ha; [done|].
  intros [= <-]. by econstructor.
Qed.

Lemma convertDetailToMerchantObj_still w detail genre :
  (Part000.convertDetailToMerchantObj detail genre w).1.2 = w ∧
  (Part000.convertDetailToMerchantObj detail genre w).2 = [].
Proof. rewrite convertDetailToMerchantObj_run. by repeat case_match. Qed.

Lemma detailToStoreObj_still w detail label :
  (App.detailToStoreObj detail label w).1.2 = w ∧
  (App.detailToStoreObj detail label w).2 = [].
Proof. rewrite detailToStoreObj_cases. by repeat case_match. Qed.

Lemma promise_all_map_rows w genre details rows :
  Forall2 (row_reads w) details rows →
  promise_all_map (λ detail, Part000.convertDetailToMerchantObj detail genre)
    details w = (Ok (merchant_of genre <$> rows), w, []).
Proof.
  intros Hrows. apply promise_all_map_ok, Forall2_fmap_r.
  eapply Forall2_impl; [exact Hrows|]. intros d r.
  apply convertDetailToMerchantObj_reads.
Qed.

Lemma promise_all_map_rows_app w genre details rows :
  Forall2 (row_reads w) details rows →
  promise_all_map (λ detail, App.detailToStoreObj detail (Some genre))
    details w = (Ok (to_store <$> (merchant_of genre <$> rows)), w, []).
Proof.
  intros Hrows. apply promise_all_map_ok, Forall2_fmap_r, Forall2_fmap_r.
  eapply Forall2_impl; [exact Hrows|]. intros d r.
  apply detailToStoreObj_reads.
Qed.

(** When the extraction of a row fails, the extraction of the page
    rejects with the error of a row whose extraction fails. *)
Lemma promise_all_map_fails w genre details detail e0 :
  detail ∈ details → extract_fails w detail e0 →
  ∃ e, promise_all_map (λ detail, Part000.convertDetailToMerchantObj detail genre)
         details w = (Throw e, w, []) ∧
       ∃ detail', detail' ∈ details ∧ extract_fails w detail' e.
Proof.
  intros Hin Hfail.
  destruct (promise_all_map_rejects
              (λ detail, Part000.convertDetailToMerchantObj detail genre)
              details w detail e0) as (e & Hrun & d & Hd & He); [|done| |].
  - intros d. apply convertDetailToMerchantObj_still.
  - by rewrite (convertDetailToMerchantObj_fails _ _ _ _ Hfail).
  - exists e. split; [done|]. exists d. split; [done|].
    by eapply convertDetailToMerchantObj_throws.
Qed.

Lemma promise_all_map_fails_app w label details detail e0 :
  detail ∈ details → store_fails w detail e0 →
  ∃ e, promise_all_map (λ detail, App.detailToStoreObj detail label)
         details w = (Throw e, w, []) ∧
       ∃ detail', detail' ∈ details ∧ store_fails w detail' e.
Proof.
  intros Hin Hfail.
  destruct (promise_all_map_rejects
              (λ detail, App.detailToStoreObj detail label)
              details w detail e0) as (e & Hrun & d & Hd & He); [|done| |].
  - intros d. apply detailToStoreObj_still.
  - by rewrite (detailToStoreObj_fails _ _ _ _ Hfail).
  - exists e. split; [done|]. exists d. split; [done|].
    by eapply detailToStoreObj_throws.
Qed.

Lemma searchResultNextPageToTransition_run w w' :
  next_page w w' →
  Part000.searchResultNextPageToTransition w =
  (Ok tt, w', transition_trace : list (action H Part000.Merchant)).
Proof.
  intros (ha & w1 & w2 & Ha & Hc & Hv & ->).
  unfold Part000.searchResultNextPageToTransition, promise_all2.
  rewrite !run_bind. unfold page_click at 1. rewrite Ha, Hc.
  unfold waitForSelector at 1. rewrite Hv. reflexivity.
Qed.

(** The page transition of [app.ts], written in the loop itself. *)
Lemma clickNextPageButton_run {A} (k : M W H App.Store A) w w' :
  next_page w w' →
  (promise_all2 App.clickNextPageButton (waitForSelector sel_lists);;
   waitForTimeout 3000;; k) w = after transition_trace (k w').
Proof.
  intros (ha & w1 & w2 & Ha & Hc & Hv & ->).
  unfold promise_all2, App.clickNextPageButton.
  rewrite !run_bind. unfold page_click at 1. rewrite Ha, Hc.
  unfold waitForSelector at 1. rewrite Hv. cbn.
  rewrite run_bind. unfold waitForTimeout at 1. unfold after.
  by destruct (k (waitTimeout w2 3000)) as [[??]?].
Qed.

(** One turn of the loop on a page that is read through. *)
Lemma getMerchantFromSearchResult_while_step fuel genre merchants w rows :
  page_readable w → page_rows w rows →
  Part000.getMerchantFromSearchResult_while (S fuel) genre merchants w =
  if bool_decide (is_Some (page_query w sel_next_li)) then
    (Part000.searchResultNextPageToTransition;;
     Part000.getMerchantFromSearchResult_while fuel genre
       (merchants ++ (merchant_of genre <$> rows))) w
  else (Ok (merchants ++ (merchant_of genre <$> rows)), w, []).
Proof.
  intros [n Hn]%getNowPagination_readable Hrows.
  cbn [Part000.getMerchantFromSearchResult_while].
  rewrite (run_bind_read _ _ _ _ Hn).
  rewrite (run_bind_read _ _ w (page_query_all w sel_details)) by done.
  rewrite (run_bind_read _ _ _ _ (promise_all_map_rows _ genre _ _ Hrows)).
  rewrite (run_bind_read _ _ _ _ (hasNextPageButton_run w)).
  by destruct (bool_decide _).
Qed.

Lemma pickStores_while_step fuel genre stores w rows :
  page_readable w → page_rows w rows →
  App.pickStores_while (S fuel) (Some genre) stores w =
  if bool_decide (is_Some (page_query w sel_next_li)) then
    (promise_all2 App.clickNextPageButton (waitForSelector sel_lists);;
     waitForTimeout 3000;;
     App.pickStores_while fuel (Some genre)
       (stores ++ (to_store <$> (merchant_of genre <$> rows)))) w
  else (Ok (stores ++ (to_store <$> (merchant_of genre <$> rows))), w, []).
Proof.
  intros [n Hn]%pickCurrentPageNumber_readable Hrows.
  cbn [App.pickStores_while].
  rewrite (run_bind_read _ _ _ _ Hn).
  rewrite (run_bind_read _ _ w (page_query_all w sel_details)) by done.
  rewrite (run_bind_read _ _ _ _ (promise_all_map_rows_app _ genre _ _ Hrows)).
  rewrite (run_bind_read _ _ _ _ (hasNextPageButton_run_app w)).
  by destruct (bool_decide _).
Qed.

Lemma transitions_S {R} (pages : list (list (string * string))) w wend :
  paginated w pages wend →
  concat (replicate (S (length pages) - 1) (transition_trace (H:=H) (R:=R))) =
  transition_trace ++ concat (replicate (length pages - 1) transition_trace).
Proof.
  intros Hpag.
  replace (S (length pages) - 1) with (S (length pages - 1))
    by (destruct Hpag; cbn [length]; lia).
  done.
Qed.

Lemma getMerchantFromSearchResult_while_paginated w pages wend :
  paginated w pages wend →
  ∀ fuel genre merchants,
    (length pages ≤ fuel)%nat →
    Part000.getMerchantFromSearchResult_while fuel genre merchants w =
    (Ok (merchants ++ merchants_of genre pages), wend,
     concat (replicate (length pages - 1) transition_trace)).
Proof.
  induction 1 as [w rows Hread Hrows Hnext|w rows w' pages wend Hread Hrows Hnext Htrans Hpag IH];
    intros [|fuel] genre merchants Hfuel; cbn [length] in Hfuel; try lia.
  - rewrite (getMerchantFromSearchResult_while_step _ _ _ _ _ Hread Hrows).
    rewrite Hnext, bool_decide_false by by inversion 1.
    unfold merchants_of. cbn. by rewrite app_nil_r.
  - rewrite (getMerchantFromSearchResult_while_step _ _ _ _ _ Hread Hrows).
    rewrite bool_decide_true by done.
    rewrite (run_bind_ok _ _ _ _ _ _ (searchResultNextPageToTransition_run _ _ Htrans)).
    rewrite IH by lia. unfold merchants_of. cbn [fst snd fmap list_fmap concat length].
    rewrite (assoc_L (++)). f_equal.
    by rewrite (transitions_S _ _ _ Hpag).
Qed.

Lemma pickStores_while_paginated w pages wend :
  paginated w pages wend →
  ∀ fuel genre stores,
    (length pages ≤ fuel)%nat →
    App.pickStores_while fuel (Some genre) stores w =
    (Ok (stores ++ (to_store <$> merchants_of genre pages)), wend,
     concat (replicate (length pages - 1) transition_trace)).
Proof.
  induction 1 as [w rows Hread Hrows Hnext|w rows w' pages wend Hread Hrows Hnext Htrans Hpag IH];
    intros [|fuel] genre stores Hfuel; cbn [length] in Hfuel; try lia.
  - rewrite (pickStores_while_step _ _ _ _ _ Hread Hrows).
    rewrite Hnext, bool_decide_false by by inversion 1.
    unfold merchants_of. cbn. by rewrite app_nil_r.
  - rewrite (pickStores_while_step _ _ _ _ _ Hread Hrows).
    rewrite bool_decide_true by done.
    rewrite (clickNextPageButton_run _ _ _ Htrans).
    rewrite IH by lia. unfold after, merchants_of.
    cbn [fst snd fmap list_fmap concat length].
    rewrite fmap_app, (assoc_L (++)). f_equal.
    by rewrite (transitions_S _ _ _ Hpag).
Qed.
End Pages.

(** ** The actions of a collection *)

Section CollectionActions.
Context {W H : Type} `{!Browser W H}.
Implicit Types w : W.

Lemma reads_convertDetailToMerchantObj detail genre :
  reads (Part000.convertDetailToMerchantObj detail genre).
Proof.
  apply reads_bind; [apply reads_el_eval|]. intros [name|]; [|apply reads_throw].
  apply reads_bind; [apply reads_el_eval|].
  intros [address|]; [apply reads_ret|apply reads_throw].
Qed.

Lemma reads_detailToStoreObj detail genre :
  reads (App.detailToStoreObj detail genre).
Proof.
  apply reads_bind; [apply reads_el_eval|]. intros name.
  apply reads_bind; [apply reads_el_eval|]. intros address. apply reads_ret.
Qed.

Lemma emits_getMerchantFromSearchResult fuel genre :
  emits is_transition_action (λ _, True)
    (Part000.getMerchantFromSearchResult fuel genre).
Proof.
  eapply emits_bind; [apply emits_reads, reads_page_eval|]. intros _ _.
  generalize (@nil Part000.Merchant).
  induction fuel as [|fuel IH]; intros merchants;
    cbn [Part000.getMerchantFromSearchResult_while].
  { apply emits_diverge. }
  eapply emits_bind; [apply emits_reads, reads_page_eval|]. intros _ _.
  eapply emits_bind; [apply emits_reads, reads_page_dollars|]. intros details _.
  eapply emits_bind.
  { apply emits_reads, reads_promise_all_map.
    intros d. apply reads_convertDetailToMerchantObj. }
  intros picked _.
  eapply emits_bind.
  { apply emits_reads, reads_bind; [apply reads_page_dollar|].
    intros el. apply reads_ret. }
  intros [] _; [|by apply emits_ret].
  eapply emits_bind; [|intros _ _; apply IH].
  eapply emits_bind.
  - apply emits_promise_all2.
    + apply emits_page_click. by left.
    + apply emits_waitForSelector. by right; left.
  - intros _ _. apply emits_waitForTimeout. by right; right.
Qed.

Lemma emits_pickStores fuel genre :
  emits is_transition_action (λ _, True) (App.pickStores fuel genre).
Proof.
  eapply emits_bind; [apply emits_reads, reads_page_eval|]. intros _ _.
  generalize (@nil App.Store).
  induction fuel as [|fuel IH]; intros stores; cbn [App.pickStores_while].
  { apply emits_diverge. }
  eapply emits_bind; [apply emits_reads, reads_page_eval|]. intros _ _.
  eapply emits_bind; [apply emits_reads, reads_page_dollars|]. intros details _.
  eapply emits_bind.
  { apply emits_reads, reads_promise_all_map.
    intros d. apply reads_detailToStoreObj. }
  intros picked _.
  eapply emits_bind.
  { apply emits_reads, reads_bind; [apply reads_page_dollar|].
    intros el. apply reads_ret. }
  intros [] _; [|by apply emits_ret].
  eapply emits_bind.
  { apply emits_promise_all2.
    - apply emits_page_click. by left.
    - apply emits_waitForSelector. by right; left. }
  intros _ _.
  eapply emits_bind; [|intros _ _; apply IH].
  apply emits_waitForTimeout. by right; right.
Qed.

End CollectionActions.
(** ** [app.ts] simulates [part_000] *)

Section Simulation.
Context {W H : Type} `{!Browser W H}.
Implicit Types w : W.

Local Abbreviation MP := (M W H Part000.Merchant).
Local Abbreviation MA := (M W H App.Store).

Lemma simulation_bind {A B A' B'} (Q : A → B → Prop) (Q' : A' → B' → Prop)
    (mp : MP A) (ma : MA B) (kp : A → MP A') (ka : B → MA B') :
  simulation Q mp ma →
  (∀ a b, Q a b → simulation Q' (kp a) (ka b)) →
  simulation Q' (mp ≫= kp) (ma ≫= ka).
Proof.
  intros Hm Hk w. specialize (Hm w). rewrite !run_bind.
  destruct (mp w) as [[[a|e|] w1] t1]; cbn [simulates] in *.
  - destruct Hm as (b & Hab & ->). specialize (Hk a b Hab w1).
    destruct (kp a w1) as [[[a'|e'|] w2] t2]; cbn [simulates] in *.
    + destruct Hk as (b' & Hab' & ->). exists b'. by rewrite fmap_app.
    + destruct (ka b w1) as [[o3 w3] t3]. cbn [snd] in *.
      rewrite fmap_app. by apply prefix_app.
    + rewrite Hk. by rewrite fmap_app.
  - destruct (ma w) as [[[b|e'|] w3] t3]; cbn [snd] in *; [|done..].
    destruct (ka b w3) as [[o4 w4] t4]. cbn [snd].
    by apply prefix_app_r.
  - by rewrite Hm.
Qed.

Lemma simulation_ret {A B} (Q : A → B → Prop) a b :
  Q a b → simulation Q (mret a : MP A) (mret b : MA B).
Proof. intros Hab w. cbn. eauto. Qed.

Lemma simulation_throw {A B} (Q : A → B → Prop) e (ma : MA B) :
  simulation Q (throw e : MP A) ma.
Proof. intros w. unfold throw. cbn [simulates]. apply prefix_nil. Qed.

Lemma simulation_diverge {A B} (Q : A → B → Prop) :
  simulation Q (diverge : MP A) (diverge : MA B).
Proof. by intros w. Qed.

Lemma simulation_ext {A B} (Q : A → B → Prop) (mp : MP A) (ma ma' : MA B) :
  (∀ w, ma w = ma' w) → simulation Q mp ma → simulation Q mp ma'.
Proof. intros Heq Hm w. rewrite <-Heq. apply Hm. Qed.

Lemma simulation_ext_l {A B} (Q : A → B → Prop) (mp mp' : MP A) (ma : MA B) :
  (∀ w, mp w = mp' w) → simulation Q mp ma → simulation Q mp' ma.
Proof. intros Heq Hm w. rewrite <-Heq. apply Hm. Qed.

Lemma simulation_throw_bind {A A' B} (Q : A' → B → Prop) e
    (k : A → MP A') (ma : MA B) :
  simulation Q (throw e ≫= k) ma.
Proof.
  intros w. rewrite (run_bind_throw _ _ _ e w []) by done.
  cbn [simulates]. apply prefix_nil.
Qed.

Lemma simulation_receiver_some {A B} (Q : A → B → Prop) h
    (mp : MP A) (k : H → MA B) :
  simulation Q mp (k h) → simulation Q mp (receiver (Some h) ≫= k).
Proof. apply simulation_ext. intros w. symmetry. apply run_bind_ret. Qed.

(** The calls that write no file run alike in both programs. *)
Ltac same_call :=
  intros w; cbn; repeat case_match; cbn; eauto using prefix_nil.

Lemma simulation_page_dollar sel :
  simulation eq (page_dollar sel) (page_dollar sel).
Proof. same_call. Qed.

Lemma simulation_page_dollars sel :
  simulation eq (page_dollars sel) (page_dollars sel).
Proof. same_call. Qed.

Lemma simulation_el_dollar el sel :
  simulation eq (el_dollar el sel) (el_dollar el sel).
Proof. same_call. Qed.

Lemma simulation_receiver x :
  simulation eq (receiver x : MP H) (receiver x : MA H).
Proof. destruct x; same_call. Qed.

Lemma simulation_el_click h :
  simulation eq (el_click h) (el_click h).
Proof. unfold el_click. same_call. Qed.

Lemma simulation_page_click sel :
  simulation eq (page_click sel) (page_click sel).
Proof. unfold page_click. same_call. Qed.

Lemma simulation_page_select sel v :
  simulation eq (page_select sel v) (page_select sel v).
Proof. unfold page_select. same_call. Qed.

Lemma simulation_waitForSelector sel :
  simulation eq (waitForSelector sel) (waitForSelector sel).
Proof. unfold waitForSelector. same_call. Qed.

Lemma simulation_waitForTimeout ms :
  simulation eq (waitForTimeout ms) (waitForTimeout ms).
Proof. same_call. Qed.

Lemma simulation_page_goto url :
  simulation eq (page_goto url) (page_goto url).
Proof. unfold page_goto. same_call. Qed.

Lemma simulation_emit_close :
  simulation eq (emit AClose : MP unit) (emit AClose : MA unit).
Proof. same_call. Qed.

Lemma simulation_page_eval {A} sel (fn : W → H → outcome A) :
  simulation eq (page_eval sel fn) (page_eval sel fn).
Proof.
  intros w. unfold page_eval.
  destruct (page_query w sel) as [h|]; [|by cbn].
  cbn. destruct (fn w h); cbn; eauto.
Qed.

Lemma simulation_el_eval {A} el sel (fn : W → H → outcome A) :
  simulation eq (el_eval el sel fn) (el_eval el sel fn).
Proof.
  intros w. unfold el_eval.
  destruct (el_query w el sel) as [h|]; [|by cbn].
  cbn. destruct (fn w h); cbn; eauto.
Qed.

Lemma simulation_promise_all2 (ap bp : MP unit) (aa ba : MA unit) :
  simulation eq ap aa → simulation eq bp ba →
  simulation eq (promise_all2 ap bp) (promise_all2 aa ba).
Proof.
  intros Ha Hb. unfold promise_all2.
  eapply simulation_bind; [exact Ha|]. by intros.
Qed.

(** [Promise.all] over reads that end. *)
Lemma simulation_promise_all_map {A B} (Q : A → B → Prop)
    (fp : H → MP A) (fa : H → MA B) l :
  (∀ h, simulation Q (fp h) (fa h)) →
  (∀ h w, (fp h w).1.2 = w ∧ (fp h w).2 = []) →
  (∀ h w, (fa h w).1.2 = w ∧ (fa h w).2 = []) →
  (∀ h w, (fp h w).1.1 ≠ OutOfFuel) →
  simulation (Forall2 Q) (promise_all_map fp l) (promise_all_map fa l).
Proof.
  intros Hf Hp Ha Hend w.
  destruct (promise_all_map_outcome fp l w (λ h, Hp h w)) as (Hw & Ht & Hout).
  destruct (promise_all_map fp l w) as [[[ys|e|] w1] t1]; cbn [fst snd] in *; subst.
  - assert (∃ bs, Forall2 Q ys bs ∧
                  Forall2 (λ h b, fa h w = (Ok b, w, [])) l bs) as (bs & Hbs & Hl).
    { induction Hout as [|h y l ys Hy _ (bs & Hbs & Hl)]; [by exists []|].
      specialize (Hf h w). destruct (Hp h w) as [Hw Ht].
      destruct (fp h w) as [[o w1] t1]. cbn [fst snd] in *. subst.
      destruct Hf as (b & Hb & Hrun). exists (b :: bs). split; by constructor. }
    exists bs. split; [done|]. by apply promise_all_map_ok.
  - apply prefix_nil.
  - destruct Hout as (h & _ & Hh). by apply Hend in Hh.
Qed.

Lemma simulation_for_of {A B C} (Q : A → B → Prop)
    (fp : A → C → MP A) (fa : B → C → MA B) l :
  (∀ a b c, Q a b → simulation Q (fp a c) (fa b c)) →
  ∀ a b, Q a b → simulation Q (for_of fp l a) (for_of fa l b).
Proof.
  intros Hf. induction l as [|c l IH]; intros a b Hab; cbn [for_of].
  - by apply simulation_ret.
  - eapply simulation_bind; [by apply Hf|]. intros a' b' Hab'. by apply IH.
Qed.
End Simulation.

Section Versions.
Context {W H : Type} `{!Browser W H}.
Implicit Types w : W.

Local Abbreviation MP := (M W H Part000.Merchant).
Local Abbreviation MA := (M W H App.Store).

Lemma are_stores_Forall2 ms ss :
  Forall2 (λ m s, s = to_store m) ms ss → are_stores ms ss.
Proof. unfold are_stores. induction 1; cbn; congruence. Qed.

Lemma simulation_pagination :
  simulation eq Part000.getNowPagination App.pickCurrentPageNumber.
Proof. apply simulation_page_eval. Qed.

Lemma simulation_hasNextPageButton :
  simulation eq Part000.hasNextPageButton App.hasNextPageButton.
Proof.
  eapply simulation_bind; [apply simulation_page_dollar|].
  intros el ? <-. by apply simulation_ret.
Qed.

Lemma simulation_detail detail genre :
  simulation (λ m s, s = to_store m)
    (Part000.convertDetailToMerchantObj detail genre)
    (App.detailToStoreObj detail (Some genre)).
Proof.
  eapply simulation_bind; [apply simulation_el_eval|].
  intros [name|] ? <-; [|apply simulation_throw].
  eapply simulation_bind; [apply simulation_el_eval|].
  intros [address|] ? <-; [|apply simulation_throw].
  by apply simulation_ret.
Qed.

Lemma simulation_transition :
  simulation eq Part000.searchResultNextPageToTransition
    (promise_all2 App.clickNextPageButton (waitForSelector sel_lists);;
     waitForTimeout 3000).
Proof.
  eapply simulation_bind.
  - apply simulation_promise_all2;
      [apply simulation_page_click|apply simulation_waitForSelector].
  - intros. apply simulation_waitForTimeout.
Qed.

Lemma simulation_while fuel genre merchants :
  simulation are_stores
    (Part000.getMerchantFromSearchResult_while fuel genre merchants)
    (App.pickStores_while fuel (Some genre) (to_store <$> merchants)).
Proof.
  revert merchants. induction fuel as [|fuel IH]; intros merchants;
    cbn [Part000.getMerchantFromSearchResult_while App.pickStores_while].
  { apply simulation_diverge. }
  eapply simulation_bind; [apply simulation_pagination|]. intros _ _ _.
  eapply simulation_bind; [apply simulation_page_dollars|]. intros details ? <-.
  eapply simulation_bind.
  { apply simulation_promise_all_map.
    - intros d. apply simulation_detail.
    - intros d w. apply convertDetailToMerchantObj_still.
    - intros d w. apply detailToStoreObj_still.
    - intros d w. rewrite convertDetailToMerchantObj_run. by repeat case_match. }
  intros picked ? Hp%are_stores_Forall2. red in Hp. subst.
  eapply simulation_bind; [apply simulation_hasNextPageButton|].
  intros [] ? <-; rewrite <-fmap_app.
  - eapply simulation_ext; [intros w; apply run_bind_assoc|].
    eapply simulation_bind; [apply simulation_transition|]. intros. apply IH.
  - by apply simulation_ret.
Qed.

Lemma simulation_collect fuel genre :
  simulation are_stores
    (Part000.getMerchantFromSearchResult fuel genre)
    (App.pickStores fuel (Some genre)).
Proof.
  eapply simulation_bind; [apply simulation_pagination|].
  intros. apply (simulation_while fuel genre []).
Qed.

(** The save of [part_000] stops where [app.ts] writes the file. *)
Lemma simulation_save merchants prefName genreName stores :
  simulation eq
    (Part000.saveMerchantsToCSVFile merchants prefName genreName : MP unit)
    (App.createCSVFile stores (Some prefName) (Some genreName)).
Proof. apply simulation_throw_bind. Qed.

Lemma simulation_searchResult :
  simulation (λ _ _, True)
    (page_eval sel_result_text Part000.fn_searchResult : MP unit)
    (page_eval sel_result_text fn_textContent : MA (option string)).
Proof.
  intros w. unfold page_eval, Part000.fn_searchResult, fn_textContent.
  destruct (page_query w sel_result_text) as [h|]; cbn; [|done].
  destruct (textContent w h); cbn; eauto using prefix_nil.
Qed.

(** The rest of a category once its label is read. *)
Lemma simulation_createMaps_for fuel prefName merchants genreHandle :
  simulation are_stores
    (Part000.createMaps_for fuel prefName merchants genreHandle)
    (App.createMaps_for fuel (Some prefName) (to_store <$> merchants) genreHandle).
Proof.
  unfold Part000.createMaps_for, App.createMaps_for, Part000.getGenreName.
  eapply simulation_ext_l; [intros w; symmetry; apply run_bind_assoc|].
  eapply simulation_bind; [apply simulation_el_eval|].
  intros [genreName|] ? <-; [|apply simulation_throw_bind].
  eapply simulation_ext_l; [intros w; symmetry; apply run_bind_ret|].
  eapply simulation_bind; [apply simulation_el_dollar|].
  intros [genreSelect|] ? <-; [|apply simulation_throw].
  eapply simulation_bind.
  { apply simulation_receiver_some, simulation_el_click. }
  intros _ _ _.
  eapply simulation_bind; [apply simulation_waitForTimeout|]. intros _ _ _.
  eapply simulation_bind.
  { apply simulation_promise_all2;
      [apply simulation_waitForSelector|apply simulation_page_click]. }
  intros _ _ _.
  eapply simulation_bind; [apply simulation_waitForTimeout|]. intros _ _ _.
  eapply simulation_bind; [apply simulation_page_select|]. intros _ _ _.
  eapply simulation_bind; [apply simulation_waitForTimeout|]. intros _ _ _.
  eapply simulation_bind; [apply simulation_searchResult|]. intros _ _ _.
  eapply simulation_bind; [apply simulation_collect|]. intros ms ? Hms. red in Hms. subst.
  eapply simulation_bind; [apply simulation_save|]. intros _ _ _.
  eapply simulation_bind.
  { apply simulation_receiver_some, simulation_el_click. }
  intros _ _ _.
  apply simulation_ret. unfold are_stores. cbn zeta. symmetry. apply fmap_app.
Qed.

Lemma simulation_createMaps fuel pref :
  simulation eq (Part000.createMaps fuel pref) (App.createMaps fuel pref).
Proof.
  unfold Part000.createMaps, App.createMaps, Part000.getPrefecturesName.
  eapply simulation_ext_l; [intros w; symmetry; apply run_bind_assoc|].
  eapply simulation_bind.
  { eapply simulation_bind; [apply simulation_receiver|].
    intros p ? <-. apply simulation_el_eval. }
  intros [prefName|] ? <-; [|apply simulation_throw_bind].
  eapply simulation_ext_l; [intros w; symmetry; apply run_bind_ret|].
  eapply simulation_bind.
  { eapply simulation_bind; [apply simulation_receiver|]. intros p ? <-.
    eapply simulation_bind; [apply simulation_el_dollar|].
    intros [el|] ? <-; [|apply simulation_throw].
    apply simulation_receiver_some, simulation_el_click. }
  intros _ _ _.
  eapply simulation_bind; [apply simulation_waitForTimeout|]. intros _ _ _.
  eapply simulation_bind; [apply simulation_page_dollars|]. intros genres ? <-.
  eapply simulation_bind.
  { apply (simulation_for_of are_stores); [|done].
    intros ms ? h Hms. red in Hms. subst. apply simulation_createMaps_for. }
  intros ms ? Hms. red in Hms. subst.
  eapply simulation_bind; [apply simulation_save|]. intros _ _ _.
  eapply simulation_bind; [apply simulation_page_dollar|].
  intros [link|] ? <-; [|apply simulation_throw].
  apply simulation_receiver_some, simulation_el_click.
Qed.

Lemma simulation_main fuel :
  simulation eq (Part000.main fuel) (App.main fuel).
Proof.
  unfold Part000.main, App.main.
  eapply simulation_bind; [apply simulation_page_goto|]. intros _ _ _.
  eapply simulation_bind; [apply simulation_page_dollars|]. intros prefs ? <-.
  eapply simulation_bind.
  { apply (simulation_for_of eq); [|done].
    intros [] ? pref <-. apply simulation_createMaps. }
  intros _ _ _. apply simulation_emit_close.
Qed.
End Versions.

(** ** The result paginator *)

Section Paginator.
Context {W H : Type} `{!Browser W H}.
Implicit Types (w : W) (genre : string).

Lemma to_store_transitions n :
  to_store_action <$> concat (replicate n transition_trace) =
  concat (replicate n (transition_trace (H:=H))).
Proof. induction n as [|n IH]; [done|]. cbn. by rewrite <-IH. Qed.

Lemma getMerchantFromSearchResult_paginated fuel genre w pages wend :
  paginated w pages wend → (length pages ≤ fuel)%nat →
  Part000.getMerchantFromSearchResult fuel genre w =
  (Ok (merchants_of genre pages), wend,
   concat (replicate (length pages - 1) transition_trace)).
Proof.
  intros Hpag Hfuel. unfold Part000.getMerchantFromSearchResult.
  assert (page_readable w) as [n Hn]%getNowPagination_readable by by destruct Hpag.
  rewrite (run_bind_read _ _ _ _ Hn).
  by rewrite (getMerchantFromSearchResult_while_paginated _ _ _ Hpag).
Qed.

Lemma pickStores_paginated fuel genre w pages wend :
  paginated w pages wend → (length pages ≤ fuel)%nat →
  App.pickStores fuel (Some genre) w =
  (Ok (to_store <$> merchants_of genre pages), wend,
   concat (replicate (length pages - 1) transition_trace)).
Proof.
  intros Hpag Hfuel. unfold App.pickStores.
  assert (page_readable w) as [n Hn]%pickCurrentPageNumber_readable by by destruct Hpag.
  rewrite (run_bind_read _ _ _ _ Hn).
  by rewrite (pickStores_while_paginated _ _ _ Hpag).
Qed.

Lemma length_merchants_of genre pages N :
  Forall (λ rows, length rows = N) pages →
  length (merchants_of genre pages) = length pages * N.
Proof.
  unfold merchants_of. induction 1 as [|rows pages Hrows _ IH]; [done|].
  cbn. rewrite length_app, length_fmap, IH. lia.
Qed.

(** C1.  A result set of [K] pages with [N] rows each, the page
    indicator readable on every page and the next page control present
    on all pages but the last: the collection ends, with the [K * N]
    records of the rows in the order of the pages, after [K - 1] page
    transitions, in both versions of the program. *)
Theorem collectAll_returns_all_pages K N fuel genre w pages wend :
  paginated w pages wend →
  length pages = K →
  Forall (λ rows, length rows = N) pages →
  (K ≤ fuel)%nat →
  Part000.getMerchantFromSearchResult fuel genre w =
    (Ok (merchants_of genre pages), wend,
     concat (replicate (K - 1) transition_trace)) ∧
  App.pickStores fuel (Some genre) w =
    (Ok (to_store <$> merchants_of genre pages), wend,
     concat (replicate (K - 1) transition_trace)) ∧
  length (merchants_of genre pages) = K * N.
Proof.
  intros Hpag <- Hrows Hfuel. split_and!.
  - by apply getMerchantFromSearchResult_paginated.
  - by apply pickStores_paginated.
  - by apply length_merchants_of.
Qed.
End Paginator.

Lemma collectAll_returns_all_pages_witness :
  Part000.getMerchantFromSearchResult 2 "Bar" Site.two_by_two =
    (Ok (merchants_of "Bar" [[("R1", "A1"); ("R2", "A2")]; [("R3", "A3"); ("R4", "A4")]]),
     Site.showing [Site.numbered "2" [Site.full_row "R3" "A3"; Site.full_row "R4" "A4"]],
     concat (replicate (2 - 1) transition_trace)) ∧
  App.pickStores 2 (Some "Bar") Site.two_by_two =
    (Ok (to_store <$> merchants_of "Bar" [[("R1", "A1"); ("R2", "A2")]; [("R3", "A3"); ("R4", "A4")]]),
     Site.showing [Site.numbered "2" [Site.full_row "R3" "A3"; Site.full_row "R4" "A4"]],
     concat (replicate (2 - 1) transition_trace)) ∧
  length (merchants_of "Bar" [[("R1", "A1"); ("R2", "A2")]; [("R3", "A3"); ("R4", "A4")]]) = 2 * 2.
Proof.
  apply (collectAll_returns_all_pages 2 2).
  - eapply paginated_next.
    + by eexists.
    + repeat constructor; by do 2 eexists.
    + by eexists.
    + by do 3 eexists.
    + apply paginated_last.
      * by eexists.
      * repeat constructor; by do 2 eexists.
      * reflexivity.
  - reflexivity.
  - repeat constructor.
  - lia.
Defined.

(** C6, as stated, fails: a row whose title is the empty text is
    extracted, and the record returned for it has an empty name. *)
Lemma collectAll_returns_empty_name :
  ¬ (∀ merchants w' tr,
       Part000.getMerchantFromSearchResult 1 "Cafe" Site.empty_title =
         (Ok merchants, w', tr) →
       Forall (λ m, Part000.name m ≠ EmptyString ∧
                    Part000.address m ≠ EmptyString ∧
                    Part000.genre m ≠ EmptyString) merchants).
Proof.
  intros Hclaim.
  specialize (Hclaim _ _ _ eq_refl).
  apply Forall_cons in Hclaim as [[Hname _] _]. by apply Hname.
Qed.

Section SinglePage.
Context {W H : Type} `{!Browser W H}.
Implicit Types (w : W) (genre : string).

(** C6, amended.  On a single result page with [N] rows whose title and
    address texts are read (not [null], possibly empty) and without a
    next page control, the collection returns exactly [N] records, one
    per row in the order of the rows: the name and the address are the
    texts of the row as they are and the category is the label given by
    the caller; none of the three is checked for emptiness. *)
Theorem collectAll_single_page N fuel genre w rows :
  page_readable w →
  page_rows w rows →
  length rows = N →
  page_query w sel_next_li = None →
  (1 ≤ fuel)%nat →
  Part000.getMerchantFromSearchResult fuel genre w =
    (Ok (merchant_of genre <$> rows), w, []) ∧
  App.pickStores fuel (Some genre) w =
    (Ok (to_store <$> (merchant_of genre <$> rows)), w, []) ∧
  length (merchant_of genre <$> rows) = N ∧
  Forall2 (λ m r, Part000.name m = r.1 ∧ Part000.address m = r.2 ∧
                  Part000.genre m = genre)
    (merchant_of genre <$> rows) rows.
Proof.
  intros Hread Hrows <- Hnext Hfuel.
  assert (paginated w [rows] w) as Hpag by by constructor.
  assert (merchants_of genre [rows] = merchant_of genre <$> rows) as Hms.
  { unfold merchants_of. cbn. by rewrite app_nil_r. }
  split_and!.
  - by rewrite (getMerchantFromSearchResult_paginated fuel genre _ _ _ Hpag), Hms.
  - by rewrite (pickStores_paginated fuel genre _ _ _ Hpag), Hms.
  - by rewrite length_fmap.
  - apply Forall2_fmap_l, Forall_Forall2_diag, Forall_forall. by intros [??].
Qed.
End SinglePage.

Lemma collectAll_single_page_witness :
  Part000.getMerchantFromSearchResult 1 "Cafe" Site.empty_title =
    (Ok (merchant_of "Cafe" <$> [(EmptyString, "A1")]), Site.empty_title, []) ∧
  App.pickStores 1 (Some "Cafe") Site.empty_title =
    (Ok (to_store <$> (merchant_of "Cafe" <$> [(EmptyString, "A1")])),
     Site.empty_title, []) ∧
  length (merchant_of "Cafe" <$> [(EmptyString, "A1")]) = 1 ∧
  Forall2 (λ m r, Part000.name m = r.1 ∧ Part000.address m = r.2 ∧
                  Part000.genre m = "Cafe")
    (merchant_of "Cafe" <$> [(EmptyString, "A1")]) [(EmptyString, "A1")].
Proof.
  apply (collectAll_single_page 1).
  - by eexists.
  - repeat constructor; by do 2 eexists.
  - reflexivity.
  - reflexivity.
  - lia.
Defined.

(** ** Failures during the collection *)

Section Failures.
Context {W H : Type} `{!Browser W H}.
Implicit Types (w : W) (genre : string).

Lemma run_bind_inv_ok {R A B} (m : M W H R A) (k : A → M W H R B) w b w' tr :
  (m ≫= k) w = (Ok b, w', tr) →
  ∃ a w1 t1 t2, m w = (Ok a, w1, t1) ∧ k a w1 = (Ok b, w', t2) ∧ tr = t1 ++ t2.
Proof.
  rewrite run_bind. destruct (m w) as [[[a|e|] w1] t1]; [|done..].
  destruct (k a w1) as [[o w2] t2] eqn:Hk. intros [= -> -> <-]. naive_solver.
Qed.

Lemma el_click_inv {R} h w u w' (tr : list (action H R)) :
  el_click h w = (Ok u, w', tr) → click w h = Some w' ∧ tr = [AClick h].
Proof. unfold el_click. destruct (click w h); naive_solver. Qed.

Lemma page_click_inv {R} sel w u w' (tr : list (action H R)) :
  page_click sel w = (Ok u, w', tr) →
  (∃ h, page_query w sel = Some h ∧ click w h = Some w') ∧ tr = [APageClick sel].
Proof.
  unfold page_click. destruct (page_query w sel) as [h|]; [|done].
  destruct (click w h) eqn:?; naive_solver.
Qed.

Lemma page_select_inv {R} sel v w u w' (tr : list (action H R)) :
  page_select sel v w = (Ok u, w', tr) → tr = [ASelect sel v].
Proof.
  unfold page_select. destruct (page_query w sel) as [h|]; [|done].
  destruct (select w h v); naive_solver.
Qed.

Lemma waitForSelector_inv {R} sel w u w' (tr : list (action H R)) :
  waitForSelector sel w = (Ok u, w', tr) →
  waitVisible w sel = Some w' ∧ tr = [AWaitForSelector sel].
Proof. unfold waitForSelector. destruct (waitVisible w sel); naive_solver. Qed.

Lemma waitForTimeout_inv {R} ms w u w' (tr : list (action H R)) :
  waitForTimeout ms w = (Ok u, w', tr) →
  w' = waitTimeout w ms ∧ tr = [AWaitForTimeout ms].
Proof. unfold waitForTimeout. naive_solver. Qed.

Lemma page_eval_inv {R A} sel (fn : W → H → outcome A) w a w'
    (tr : list (action H R)) :
  page_eval sel fn w = (Ok a, w', tr) → w' = w ∧ tr = [].
Proof. unfold page_eval. destruct (page_query w sel); naive_solver. Qed.

(** The steps of a search that went through. *)
Lemma category_search_inv genreSelect w u w' tr :
  category_search genreSelect w = (Ok u, w', tr) →
  tr = search_trace genreSelect.
Proof.
  unfold category_search, promise_all2.
  intros (?&?&?&?& [_ ->]%el_click_inv & Hk & ->)%run_bind_inv_ok.
  apply run_bind_inv_ok in Hk as (?&?&?&?& [_ ->]%waitForTimeout_inv & Hk & ->).
  apply run_bind_inv_ok in Hk as (?&?&?&?& Hall & Hk & ->).
  apply run_bind_inv_ok in Hall
    as (?&?&?&?& [_ ->]%waitForSelector_inv & [_ ->]%page_click_inv & ->).
  apply run_bind_inv_ok in Hk as (?&?&?&?& [_ ->]%waitForTimeout_inv & Hk & ->).
  apply run_bind_inv_ok in Hk as (?&?&?&?& ->%page_select_inv & Hk & ->).
  apply run_bind_inv_ok in Hk as (?&?&?&?& [_ ->]%waitForTimeout_inv & Hk & ->).
  by apply page_eval_inv in Hk as [_ ->].
Qed.

(** A turn of the category loop is the search followed by the
    collection, the write and the click that toggles back. *)
Lemma createMaps_for_search fuel prefName merchants genreHandle genreSelect
    genre w :
  Part000.getGenreName genreHandle w = (Ok genre, w, []) →
  el_query w genreHandle sel_a = Some genreSelect →
  Part000.createMaps_for fuel prefName merchants genreHandle w =
  (category_search genreSelect;;
   collected ← Part000.getMerchantFromSearchResult fuel genre;
   Part000.saveMerchantsToCSVFile collected prefName genre;;
   el_click genreSelect;;
   mret (merchants ++ collected)) w.
Proof.
  intros Hname Hsel. unfold Part000.createMaps_for.
  rewrite (run_bind_read _ _ _ _ Hname).
  rewrite (run_bind_read _ _ w (Some genreSelect)) by by unfold el_dollar; rewrite Hsel.
  symmetry. unfold category_search.
  do 6 (rewrite run_bind_assoc; apply run_bind_ext; intros _ ?).
  done.
Qed.

Lemma writes_app {R} (t1 t2 : list (action H R)) :
  writes (t1 ++ t2) = writes t1 ++ writes t2.
Proof. apply omap_app. Qed.

Lemma writes_transitions {R} n :
  writes (H:=H) (R:=R) (concat (replicate n transition_trace)) = [].
Proof. induction n as [|n IH]; [done|]. cbn. apply IH. Qed.

Lemma run_bind_ext_l {R A B} (m m' : M W H R A) (k : A → M W H R B) w :
  m w = m' w → (m ≫= k) w = (m' ≫= k) w.
Proof. intros Hm. by rewrite !run_bind, Hm. Qed.

Lemma run_receiver_some {R A} h (k : H → M W H R A) w :
  (receiver (Some h) ≫= k) w = k h w.
Proof. apply run_bind_ret. Qed.

(** The steps of a search run alike in the two versions. *)
Lemma store_search_run genreSelect w0 w t0 :
  category_search genreSelect w0 = (Ok tt, w, t0) →
  t0 = search_trace genreSelect ∧
  ∃ text, store_search genreSelect w0 = (Ok text, w, search_trace genreSelect).
Proof.
  intros Hsearch. pose proof Hsearch as ->%category_search_inv. split; [done|].
  assert (simulation (λ _ _, True) (category_search genreSelect)
            (store_search genreSelect)) as Hsim.
  { eapply simulation_bind; [apply simulation_el_click|]. intros _ _ _.
    eapply simulation_bind; [apply simulation_waitForTimeout|]. intros _ _ _.
    eapply simulation_bind.
    { apply simulation_promise_all2;
        [apply simulation_waitForSelector|apply simulation_page_click]. }
    intros _ _ _.
    eapply simulation_bind; [apply simulation_waitForTimeout|]. intros _ _ _.
    eapply simulation_bind; [apply simulation_page_select|]. intros _ _ _.
    eapply simulation_bind; [apply simulation_waitForTimeout|]. intros _ _ _.
    apply simulation_searchResult. }
  specialize (Hsim w0). rewrite Hsearch in Hsim.
  destruct Hsim as (text & _ & ->). by exists text.
Qed.

(** A turn of the category loop of [app.ts] is the search followed by
    the collection, the write and the click that toggles back. *)
Lemma createMaps_for_search_app fuel prefName stores genreHandle genreSelect genreName w :
  (el_eval genreHandle sel_input fn_data_label : M W H App.Store _) w =
    (Ok genreName, w, []) →
  el_query w genreHandle sel_a = Some genreSelect →
  App.createMaps_for fuel prefName stores genreHandle w =
  (store_search genreSelect;;
   collected ← App.pickStores fuel genreName;
   App.createCSVFile collected prefName genreName;;
   el_click genreSelect;;
   mret (stores ++ collected)) w.
Proof.
  intros Hname Hsel. unfold App.createMaps_for.
  rewrite (run_bind_read _ _ _ _ Hname).
  rewrite (run_bind_read _ _ w (Some genreSelect)) by by unfold el_dollar; rewrite Hsel.
  symmetry. unfold store_search.
  rewrite run_bind_assoc.
  rewrite (run_bind_ext_l _ (receiver (Some genreSelect) ≫= el_click))
    by by rewrite run_receiver_some.
  apply run_bind_ext; intros _ ?.
  do 5 (rewrite run_bind_assoc; apply run_bind_ext; intros _ ?).
  apply run_bind_ext; intros _ ?.
  apply run_bind_ext; intros collected ?.
  apply run_bind_ext; intros _ ?.
  apply run_bind_ext_l. by rewrite run_receiver_some.
Qed.

Lemma getGenreName_label genreHandle w genre :
  Part000.getGenreName genreHandle w = (Ok genre, w, []) →
  (el_eval genreHandle sel_input fn_data_label : M W H App.Store _) w =
    (Ok (Some genre), w, []).
Proof.
  unfold Part000.getGenreName. rewrite run_bind. unfold el_eval, fn_data_label.
  destruct (el_query w genreHandle sel_input) as [input|]; [|done].
  destruct (getAttribute w input "data-label"); [|done]. by intros [= ->].
Qed.

Lemma getMerchantFromSearchResult_while_fails w k wk :
  fails_on_page extract_fails w k wk →
  ∀ fuel genre merchants,
    (k ≤ fuel)%nat →
    ∃ e, page_fails extract_fails wk e ∧
      Part000.getMerchantFromSearchResult_while fuel genre merchants w =
      (Throw e, wk, concat (replicate (k - 1) transition_trace)).
Proof.
  induction 1 as [w e Hfail|w rows w' k wk Hread Hrows Hnext Htrans Hfail IH];
    intros [|fuel] genre merchants Hfuel; try lia.
  - cbn [Part000.getMerchantFromSearchResult_while].
    destruct Hfail as [[Hnone ->]|(Hread & detail & Hin & Hrow)].
    + eexists. split; [by left|].
      apply run_bind_throw. by rewrite getNowPagination_run, Hnone.
    + destruct (promise_all_map_fails w genre _ _ _ Hin Hrow)
        as (e' & Hrun & detail' & Hin' & Hrow').
      exists e'. split; [right; eauto|].
      apply getNowPagination_readable in Hread as [n Hn].
      rewrite (run_bind_read _ _ _ _ Hn).
      rewrite (run_bind_read _ _ w (page_query_all w sel_details)) by done.
      by apply run_bind_throw.
  - destruct (IH fuel genre (merchants ++ (merchant_of genre <$> rows)))
      as (e & He & Hrun); [lia|].
    exists e. split; [done|].
    rewrite (getMerchantFromSearchResult_while_step _ _ _ _ _ Hread Hrows).
    rewrite bool_decide_true by done.
    rewrite (run_bind_ok _ _ _ _ _ _ (searchResultNextPageToTransition_run _ _ Htrans)).
    rewrite Hrun. cbn [fst snd].
    replace (S k - 1) with (S (k - 1)) by (destruct Hfail; lia).
    done.
Qed.

Lemma pickStores_while_fails w k wk :
  fails_on_page store_fails w k wk →
  ∀ fuel genre stores,
    (k ≤ fuel)%nat →
    ∃ e, page_fails store_fails wk e ∧
      App.pickStores_while fuel (Some genre) stores w =
      (Throw e, wk, concat (replicate (k - 1) transition_trace)).
Proof.
  induction 1 as [w e Hfail|w rows w' k wk Hread Hrows Hnext Htrans Hfail IH];
    intros [|fuel] genre stores Hfuel; try lia.
  - cbn [App.pickStores_while].
    destruct Hfail as [[Hnone ->]|(Hread & detail & Hin & Hrow)].
    + eexists. split; [by left|].
      apply run_bind_throw. by rewrite pickCurrentPageNumber_run, Hnone.
    + destruct (promise_all_map_fails_app w (Some genre) _ _ _ Hin Hrow)
        as (e' & Hrun & detail' & Hin' & Hrow').
      exists e'. split; [right; eauto|].
      apply pickCurrentPageNumber_readable in Hread as [n Hn].
      rewrite (run_bind_read _ _ _ _ Hn).
      rewrite (run_bind_read _ _ w (page_query_all w sel_details)) by done.
      by apply run_bind_throw.
  - destruct (IH fuel genre (stores ++ (to_store <$> (merchant_of genre <$> rows))))
      as (e & He & Hrun); [lia|].
    exists e. split; [done|].
    rewrite (pickStores_while_step _ _ _ _ _ Hread Hrows).
    rewrite bool_decide_true by done.
    rewrite (clickNextPageButton_run _ _ _ Htrans), Hrun.
    unfold after. cbn [fst snd].
    replace (S k - 1) with (S (k - 1)) by (destruct Hfail; lia).
    done.
Qed.

Lemma first_page_of_failure fails w k wk :
  fails_on_page fails w k wk →
  page_query w sel_page_selected = None →
  k = 1 ∧ wk = w.
Proof.
  intros Hfail Hnone.
  destruct Hfail as [w e _|w rows w' k wk [h Hh] _ _ _ _]; [done|congruence].
Qed.

Lemma getMerchantFromSearchResult_fails fuel genre w k wk :
  fails_on_page extract_fails w k wk → (k ≤ fuel)%nat →
  ∃ e, page_fails extract_fails wk e ∧
    Part000.getMerchantFromSearchResult fuel genre w =
    (Throw e, wk, concat (replicate (k - 1) transition_trace)).
Proof.
  intros Hfail Hfuel. unfold Part000.getMerchantFromSearchResult.
  destruct (page_query w sel_page_selected) as [h|] eqn:Hq.
  - destruct (getMerchantFromSearchResult_while_fails _ _ _ Hfail fuel genre [] Hfuel)
      as (e & He & Hrun).
    exists e. split; [done|].
    by rewrite (run_bind_read _ _ w (Number (textContent w h)))
      by by rewrite getNowPagination_run, Hq.
  - destruct (first_page_of_failure _ _ _ _ Hfail Hq) as [-> ->].
    eexists. split; [by left|].
    apply run_bind_throw. by rewrite getNowPagination_run, Hq.
Qed.

Lemma pickStores_fails fuel genre w k wk :
  fails_on_page store_fails w k wk → (k ≤ fuel)%nat →
  ∃ e, page_fails store_fails wk e ∧
    App.pickStores fuel (Some genre) w =
    (Throw e, wk, concat (replicate (k - 1) transition_trace)).
Proof.
  intros Hfail Hfuel. unfold App.pickStores.
  destruct (page_query w sel_page_selected) as [h|] eqn:Hq.
  - destruct (pickStores_while_fails _ _ _ Hfail fuel genre [] Hfuel)
      as (e & He & Hrun).
    exists e. split; [done|].
    by rewrite (run_bind_read _ _ w (Number (textContent w h)))
      by by rewrite pickCurrentPageNumber_run, Hq.
  - destruct (first_page_of_failure _ _ _ _ Hfail Hq) as [-> ->].
    eexists. split; [by left|].
    apply run_bind_throw. by rewrite pickCurrentPageNumber_run, Hq.
Qed.

(** C2.  When the search of a category has gone through and the read
    of one of its result pages fails, of the page indicator or of some
    of its rows, the collection rejects with the error of a read of
    that page that fails (when several rows fail, the one that rejects
    first) and returns no record; the turn of the category loop rejects
    with the same error, and neither the search nor the collection has
    written a file.  [part_000] fails on a missing node and on a text
    that is [null], [app.ts] on a missing node. *)
Theorem collectAll_aborts fuel prefName prefName' merchants stores genreHandle
    genreSelect genre w0 w t0 k wk :
  Part000.getGenreName genreHandle w0 = (Ok genre, w0, []) →
  el_query w0 genreHandle sel_a = Some genreSelect →
  category_search genreSelect w0 = (Ok tt, w, t0) →
  (k ≤ fuel)%nat →
  (fails_on_page extract_fails w k wk →
   ∃ e, page_fails extract_fails wk e ∧
     Part000.getMerchantFromSearchResult fuel genre w =
       (Throw e, wk, concat (replicate (k - 1) transition_trace)) ∧
     Part000.createMaps_for fuel prefName merchants genreHandle w0 =
       (Throw e, wk, t0 ++ concat (replicate (k - 1) transition_trace)) ∧
     writes (Part000.createMaps_for fuel prefName merchants genreHandle w0).2 = []) ∧
  (fails_on_page store_fails w k wk →
   ∃ e, page_fails store_fails wk e ∧
     App.pickStores fuel (Some genre) w =
       (Throw e, wk, concat (replicate (k - 1) transition_trace)) ∧
     App.createMaps_for fuel prefName' stores genreHandle w0 =
       (Throw e, wk,
        search_trace genreSelect ++ concat (replicate (k - 1) transition_trace)) ∧
     writes (App.createMaps_for fuel prefName' stores genreHandle w0).2 = []).
Proof.
  intros Hname Hsel Hsearch Hfuel.
  destruct (store_search_run _ _ _ _ Hsearch) as (Ht0 & text & Hsearch').
  split; intros Hfail.
  - destruct (getMerchantFromSearchResult_fails fuel genre _ _ _ Hfail Hfuel)
      as (e & He & Hcollect).
    assert (Part000.createMaps_for fuel prefName merchants genreHandle w0 =
              (Throw e, wk, t0 ++ concat (replicate (k - 1) transition_trace)))
      as Hturn.
    { rewrite (createMaps_for_search _ _ _ _ _ _ _ Hname Hsel).
      rewrite (run_bind_ok _ _ _ _ _ _ Hsearch).
      by rewrite (run_bind_throw _ _ _ _ _ _ Hcollect). }
    exists e. split_and!; [done..|].
    rewrite Hturn. cbn [snd]. by rewrite writes_app, writes_transitions, Ht0.
  - destruct (pickStores_fails fuel genre _ _ _ Hfail Hfuel) as (e & He & Hcollect).
    assert (App.createMaps_for fuel prefName' stores genreHandle w0 =
              (Throw e, wk,
               search_trace genreSelect ++
               concat (replicate (k - 1) transition_trace))) as Hturn.
    { rewrite (createMaps_for_search_app _ _ _ _ _ _ _
                 (getGenreName_label _ _ _ Hname) Hsel).
      rewrite (run_bind_ok _ _ _ _ _ _ Hsearch').
      by rewrite (run_bind_throw _ _ _ _ _ _ Hcollect). }
    exists e. split_and!; [done..|].
    rewrite Hturn. cbn [snd]. by rewrite writes_app, writes_transitions.
Qed.
End Failures.

Lemma collectAll_aborts_witness :
  (∃ e, page_fails extract_fails Site.bar_failed e ∧
     Part000.getMerchantFromSearchResult 2 "Bar" Site.bar_searched =
       (Throw e, Site.bar_failed, concat (replicate (2 - 1) transition_trace)) ∧
     Part000.createMaps_for 2 "Tokyo" [] (Site.HGenre 1) Site.bar_turn =
       (Throw e, Site.bar_failed,
        search_trace (Site.HGenreSelect 1) ++
        concat (replicate (2 - 1) transition_trace)) ∧
     writes (Part000.createMaps_for 2 "Tokyo" [] (Site.HGenre 1) Site.bar_turn).2 = []) ∧
  (∃ e, page_fails store_fails Site.bar_failed e ∧
     App.pickStores 2 (Some "Bar") Site.bar_searched =
       (Throw e, Site.bar_failed, concat (replicate (2 - 1) transition_trace)) ∧
     App.createMaps_for 2 (Some "Tokyo") [] (Site.HGenre 1) Site.bar_turn =
       (Throw e, Site.bar_failed,
        search_trace (Site.HGenreSelect 1) ++
        concat (replicate (2 - 1) transition_trace)) ∧
     writes (App.createMaps_for 2 (Some "Tokyo") [] (Site.HGenre 1) Site.bar_turn).2 = []).
Proof.
  destruct (collectAll_aborts 2 "Tokyo" (Some "Tokyo") [] [] (Site.HGenre 1)
              (Site.HGenreSelect 1) "Bar" Site.bar_turn Site.bar_searched
              (search_trace (Site.HGenreSelect 1)) 2 Site.bar_failed)
    as [HP HA].
  - reflexivity.
  - reflexivity.
  - reflexivity.
  - lia.
  - split.
    + apply HP. eapply (fails_later _ _ [("R1", "A1")]).
      * by eexists.
      * repeat constructor; by do 2 eexists.
      * by eexists.
      * by do 3 eexists.
      * eapply (fails_here _ _ (NoElement sel_address)). right. split; [by eexists|].
        exists (Site.HDetail 1). split.
        -- apply list_elem_of_further, list_elem_of_here.
        -- by eapply (fails_no_address _ _ (Site.HTitle 1) "R3").
    + apply HA. eapply (fails_later _ _ [("R1", "A1")]).
      * by eexists.
      * repeat constructor; by do 2 eexists.
      * by eexists.
      * by do 3 eexists.
      * eapply (fails_here _ _ (NoElement sel_address)). right. split; [by eexists|].
        exists (Site.HDetail 1). split.
        -- apply list_elem_of_further, list_elem_of_here.
        -- by eapply (store_fails_no_address _ _ (Site.HTitle 1)).
Defined.

(** On that page a row without an address node comes before a row
    without a title node; the browser knows of the missing title first,
    and the collection rejects with the error of the later row. *)
Example later_row_rejects_first :
  (Part000.getMerchantFromSearchResult 2 "Bar" Site.bar_searched).1.1 =
    Throw (NoElement sel_h4) ∧
  (App.pickStores 2 (Some "Bar") Site.bar_searched).1.1 = Throw (NoElement sel_h4).
Proof. by split. Qed.

(** ** Completed walks of the categories *)

Section Walks.
Context {W H : Type} `{!Browser W H}.
Implicit Types (w : W) (label : option string).

Local Abbreviation MA := (M W H App.Store).

Lemma el_eval_inv {R A} el sel (fn : W → H → outcome A) w a w'
    (tr : list (action H R)) :
  el_eval el sel fn w = (Ok a, w', tr) →
  (∃ h, el_query w el sel = Some h ∧ fn w h = Ok a) ∧ w' = w ∧ tr = [].
Proof. unfold el_eval. destruct (el_query w el sel); naive_solver. Qed.

Lemma getGenreName_inv genreEl w genre w' tr :
  Part000.getGenreName genreEl w = (Ok genre, w', tr) → w' = w ∧ tr = [].
Proof.
  intros (x&?&?&?& (_ & -> & ->)%el_eval_inv & Hk & ->)%run_bind_inv_ok.
  destruct x; [|done]. by injection Hk as <- <- <-.
Qed.

Lemma getNowPagination_inv w n w' tr :
  Part000.getNowPagination w = (Ok n, w', tr) → w' = w ∧ tr = [].
Proof. apply page_eval_inv. Qed.

Lemma pickCurrentPageNumber_inv w n w' tr :
  App.pickCurrentPageNumber w = (Ok n, w', tr) → w' = w ∧ tr = [].
Proof. apply page_eval_inv. Qed.

Lemma convertDetailToMerchantObj_inv detail genre w m :
  (Part000.convertDetailToMerchantObj detail genre w).1.1 = Ok m →
  Part000.genre m = genre.
Proof.
  rewrite convertDetailToMerchantObj_run. repeat case_match; naive_solver.
Qed.

Lemma detailToStoreObj_inv detail label w s :
  (App.detailToStoreObj detail label w).1.1 = Ok s → App.genre s = label.
Proof.
  rewrite detailToStoreObj_cases. repeat case_match; naive_solver.
Qed.

Lemma promise_all_map_inv genre details w ms w' tr :
  promise_all_map (λ detail, Part000.convertDetailToMerchantObj detail genre)
    details w = (Ok ms, w', tr) →
  Forall (λ m, Part000.genre m = genre) ms ∧ w' = w ∧ tr = [].
Proof.
  intros (Hms & -> & ->)%promise_all_map_inv_ok;
    [|intros d; apply convertDetailToMerchantObj_still].
  split; [|done]. induction Hms as [|d m ds ms Hm _ IH]; constructor; [|done].
  by eapply convertDetailToMerchantObj_inv.
Qed.

Lemma promise_all_map_inv_app label details w ss w' tr :
  promise_all_map (λ detail, App.detailToStoreObj detail label)
    details w = (Ok ss, w', tr) →
  Forall (λ s, App.genre s = label) ss ∧ w' = w ∧ tr = [].
Proof.
  intros (Hss & -> & ->)%promise_all_map_inv_ok;
    [|intros d; apply detailToStoreObj_still].
  split; [|done]. induction Hss as [|d s ds ss Hs _ IH]; constructor; [|done].
  by eapply detailToStoreObj_inv.
Qed.

Lemma searchResultNextPageToTransition_inv w u w' tr :
  Part000.searchResultNextPageToTransition w = (Ok u, w', tr) →
  tr = transition_trace.
Proof.
  unfold Part000.searchResultNextPageToTransition, promise_all2.
  intros (?&?&?&?& Hall & [_ ->]%waitForTimeout_inv & ->)%run_bind_inv_ok.
  by apply run_bind_inv_ok in Hall
    as (?&?&?&?& [_ ->]%page_click_inv & [_ ->]%waitForSelector_inv & ->).
Qed.

Lemma getMerchantFromSearchResult_while_inv fuel genre merchants w ms w' tr :
  Part000.getMerchantFromSearchResult_while fuel genre merchants w = (Ok ms, w', tr) →
  ∃ n collected,
    tr = concat (replicate n transition_trace) ∧
    ms = merchants ++ collected ∧
    Forall (λ m, Part000.genre m = genre) collected.
Proof.
  revert merchants w tr.
  induction fuel as [|fuel IH]; intros merchants w tr; [done|].
  cbn [Part000.getMerchantFromSearchResult_while].
  intros (?&?&?&?& [-> ->]%getNowPagination_inv & Hk & ->)%run_bind_inv_ok.
  apply run_bind_inv_ok in Hk as (details&?&?&?& [= <- <- <-] & Hk & ->).
  apply run_bind_inv_ok in Hk
    as (picked&?&?&?& (Hpicked & -> & ->)%promise_all_map_inv & Hk & ->).
  apply run_bind_inv_ok in Hk as (next&?&?&?& Hnext & Hk & ->).
  rewrite hasNextPageButton_run in Hnext. injection Hnext as <- <- <-.
  destruct (bool_decide _).
  - apply run_bind_inv_ok in Hk
      as (?&?&?&?& ->%searchResultNextPageToTransition_inv & Hk & ->).
    apply IH in Hk as (n & collected & -> & -> & Hcollected).
    exists (S n), (picked ++ collected). split_and!.
    + done.
    + by rewrite (assoc_L (++)).
    + by apply Forall_app.
  - injection Hk as <- <- <-. exists 0, picked. by rewrite app_nil_r.
Qed.

Lemma getMerchantFromSearchResult_inv fuel genre w ms w' tr :
  Part000.getMerchantFromSearchResult fuel genre w = (Ok ms, w', tr) →
  ∃ n, tr = concat (replicate n transition_trace) ∧
       Forall (λ m, Part000.genre m = genre) ms.
Proof.
  intros (?&?&?&?& [-> ->]%getNowPagination_inv & Hk & ->)%run_bind_inv_ok.
  apply getMerchantFromSearchResult_while_inv in Hk as (n & ms' & -> & -> & ?).
  by exists n.
Qed.

Lemma pickStores_while_inv fuel label stores w ss w' tr :
  App.pickStores_while fuel label stores w = (Ok ss, w', tr) →
  ∃ n collected,
    tr = concat (replicate n transition_trace) ∧
    ss = stores ++ collected ∧
    Forall (λ s, App.genre s = label) collected.
Proof.
  revert stores w tr.
  induction fuel as [|fuel IH]; intros stores w tr; [done|].
  cbn [App.pickStores_while].
  intros (?&?&?&?& [-> ->]%pickCurrentPageNumber_inv & Hk & ->)%run_bind_inv_ok.
  apply run_bind_inv_ok in Hk as (details&?&?&?& [= <- <- <-] & Hk & ->).
  apply run_bind_inv_ok in Hk
    as (picked&?&?&?& (Hpicked & -> & ->)%promise_all_map_inv_app & Hk & ->).
  apply run_bind_inv_ok in Hk as (next&?&?&?& Hnext & Hk & ->).
  rewrite hasNextPageButton_run_app in Hnext. injection Hnext as <- <- <-.
  destruct (bool_decide _).
  - apply run_bind_inv_ok in Hk as (?&?&?&?& Hall & Hk & ->).
    apply run_bind_inv_ok in Hall
      as (?&?&?&?& [_ ->]%page_click_inv & [_ ->]%waitForSelector_inv & ->).
    apply run_bind_inv_ok in Hk as (?&?&?&?& [_ ->]%waitForTimeout_inv & Hk & ->).
    apply IH in Hk as (n & collected & -> & -> & Hcollected).
    exists (S n), (picked ++ collected). split_and!.
    + done.
    + by rewrite (assoc_L (++)).
    + by apply Forall_app.
  - injection Hk as <- <- <-. exists 0, picked. by rewrite app_nil_r.
Qed.

Lemma pickStores_inv fuel label w ss w' tr :
  App.pickStores fuel label w = (Ok ss, w', tr) →
  ∃ n, tr = concat (replicate n transition_trace) ∧
       Forall (λ s, App.genre s = label) ss.
Proof.
  intros (?&?&?&?& [-> ->]%pickCurrentPageNumber_inv & Hk & ->)%run_bind_inv_ok.
  apply pickStores_while_inv in Hk as (n & ss' & -> & -> & ?).
  by exists n.
Qed.

(** The steps of a search of [app.ts] that went through. *)
Lemma store_search_inv genreSelect w text w' tr :
  store_search genreSelect w = (Ok text, w', tr) →
  tr = search_trace genreSelect.
Proof.
  unfold store_search, promise_all2.
  intros (?&?&?&?& [_ ->]%el_click_inv & Hk & ->)%run_bind_inv_ok.
  apply run_bind_inv_ok in Hk as (?&?&?&?& [_ ->]%waitForTimeout_inv & Hk & ->).
  apply run_bind_inv_ok in Hk as (?&?&?&?& Hall & Hk & ->).
  apply run_bind_inv_ok in Hall
    as (?&?&?&?& [_ ->]%waitForSelector_inv & [_ ->]%page_click_inv & ->).
  apply run_bind_inv_ok in Hk as (?&?&?&?& [_ ->]%waitForTimeout_inv & Hk & ->).
  apply run_bind_inv_ok in Hk as (?&?&?&?& ->%page_select_inv & Hk & ->).
  apply run_bind_inv_ok in Hk as (?&?&?&?& [_ ->]%waitForTimeout_inv & Hk & ->).
  by apply page_eval_inv in Hk as [_ ->].
Qed.

(** A completed turn of the category loop of [app.ts]. *)
Lemma createMaps_for_inv fuel prefName stores genre w stores' w' tr :
  App.createMaps_for fuel prefName stores genre w = (Ok stores', w', tr) →
  ∃ c, category_of fuel genre c ∧
       Forall (λ s, App.genre s = run_label c) (run_records c) ∧
       stores' = stores ++ run_records c ∧
       tr = category_trace prefName c.
Proof.
  intros Hrun. pose proof Hrun as Hrun'. revert Hrun'.
  unfold App.createMaps_for at 1.
  intros (genreName&?&?&?& Hname & Hk & ->)%run_bind_inv_ok.
  pose proof Hname as (_ & -> & ->)%el_eval_inv.
  apply run_bind_inv_ok in Hk as (sel&?&?&?& [= Hsel <- <-] & Hk & _).
  apply run_bind_inv_ok in Hk as (?&?&?&?& Hclick & _ & _).
  apply run_bind_inv_ok in Hclick as (genreSelect&?&?&?& Hg & _ & _).
  destruct (el_query w genre sel_a) as [g|] eqn:Hq; subst sel; [|done].
  injection Hg as -> _ _.
  rewrite (createMaps_for_search_app _ _ _ _ _ _ _ Hname Hq) in Hrun.
  apply run_bind_inv_ok in Hrun as (text&w1&?&?& Hsearch & Hk & ->).
  pose proof Hsearch as ->%store_search_inv.
  apply run_bind_inv_ok in Hk as (ss&w2&t2&?& Hcollect & Hk & ->).
  pose proof Hcollect as (n & -> & Hss)%pickStores_inv.
  apply run_bind_inv_ok in Hk as (?&?&?&?& [= <- <- <-] & Hk & ->).
  apply run_bind_inv_ok in Hk as (?&?&?&?& [_ ->]%el_click_inv & [= <- <- <-] & ->).
  exists {| run_select := genreSelect; run_label := genreName;
            run_records := ss; run_turns := n |}.
  split_and!; [split; cbn; eauto|done..].
Qed.

(** A completed category loop. *)
Lemma for_of_createMaps_for_inv fuel prefName genres :
  ∀ stores w stores' w' tr,
    for_of (App.createMaps_for fuel prefName) genres stores w =
      (Ok stores', w', tr) →
    ∃ cs, Forall2 (category_of fuel) genres cs ∧
          Forall (λ c, Forall (λ s, App.genre s = run_label c) (run_records c)) cs ∧
          stores' = stores ++ concat (run_records <$> cs) ∧
          tr = concat (category_trace prefName <$> cs).
Proof.
  induction genres as [|h hs IH]; intros stores w stores' w' tr; cbn [for_of].
  { intros [= <- <- <-]. exists []. by rewrite app_nil_r. }
  intros (ss1&w1&?&?& (c & Hc & Hgenre & -> & ->)%createMaps_for_inv & Hk & ->)%run_bind_inv_ok.
  apply IH in Hk as (cs & Hcs & Hgenres & -> & ->).
  exists (c :: cs). split_and!; [by constructor..| |done].
  cbn. by rewrite (assoc_L (++)).
Qed.

(** The walk of a region by [app.ts] up to its aggregate file. *)
Lemma createMaps_walked fuel p w input expand w0 stores w2 t :
  el_query w p sel_input = Some input →
  el_query w p sel_expand = Some expand →
  click w expand = Some w0 →
  for_of (App.createMaps_for fuel (getAttribute w input "data-label"))
    (page_query_all (waitTimeout w0 3000) sel_genres) []
    (waitTimeout w0 3000) = (Ok stores, w2, t) →
  App.createMaps fuel (Some p) w =
  after ([AClick expand; AWaitForTimeout 3000] ++ t ++
         [AWriteFile (csv_path (template (getAttribute w input "data-label")) "all")
            stores])
    ((el ← page_dollar sel_next_pref; e ← receiver el; el_click e) w2).
Proof.
  intros Hinput Hexpand Hclick Hwalk. unfold App.createMaps.
  rewrite (run_bind_read _ _ w (getAttribute w input "data-label")).
  2:{ rewrite run_receiver_some. unfold el_eval, fn_data_label. by rewrite Hinput. }
  rewrite (run_bind_ok _ _ w tt w0 [AClick expand]).
  2:{ rewrite run_receiver_some, run_bind.
      unfold el_dollar. rewrite Hexpand. rewrite run_receiver_some.
      unfold el_click. by rewrite Hclick. }
  rewrite (run_bind_ok _ _ w0 tt (waitTimeout w0 3000) [AWaitForTimeout 3000]) by done.
  rewrite (run_bind_read _ _ _ (page_query_all (waitTimeout w0 3000) sel_genres)) by done.
  rewrite (run_bind_ok _ _ _ _ _ _ Hwalk).
  rewrite (run_bind_ok _ _ w2 tt w2
             [AWriteFile (csv_path (template (getAttribute w input "data-label")) "all")
                stores]) by done.
  unfold after. cbn [fst snd]. by rewrite <-!(assoc_L (++)).
Qed.

(** The lookup of the link to the next region and what follows it. *)
Lemma next_pref_run w2 :
  (el ← page_dollar sel_next_pref; e ← receiver el; el_click e : MA unit) w2 =
  match page_query w2 sel_next_pref with
  | None => (Throw TypeError, w2, [])
  | Some link =>
      match click w2 link with
      | Some w3 => (Ok tt, w3, [AClick link])
      | None => (Throw ClickFailed, w2, [])
      end
  end.
Proof.
  rewrite run_bind. unfold page_dollar.
  destruct (page_query w2 sel_next_pref) as [link|]; [|done].
  rewrite run_receiver_some. unfold el_click. by destruct (click w2 link).
Qed.
End Walks.

(** ** Selection of the category selectors *)

Section Selection.
Context {W H : Type} `{!Browser W H} `{!EqDecision H}.
Implicit Types (w : W) (S : list H) (h : H).

Lemma selected_at_submit_app {R} S (t1 t2 : list (action H R)) :
  selected_at_submit S (t1 ++ t2) =
  selected_at_submit S t1 ++ selected_at_submit (selected_after S t1) t2.
Proof.
  revert S. induction t1 as [|a t1 IH]; intros S; [done|].
  destruct a; cbn [app selected_at_submit selected_after]; try apply IH.
  case_decide; [|apply IH]. cbn. by rewrite IH.
Qed.

Lemma selected_after_app {R} S (t1 t2 : list (action H R)) :
  selected_after S (t1 ++ t2) = selected_after (selected_after S t1) t2.
Proof.
  revert S. induction t1 as [|a t1 IH]; intros S; [done|].
  destruct a; cbn [app selected_after]; apply IH.
Qed.

Lemma toggle_on h : toggle h [] = [h].
Proof. unfold toggle. by rewrite decide_False by apply not_elem_of_nil. Qed.


Lemma keeps_selection_bind {R A B} S S1 S2 (m : M W H R A) (k : A → M W H R B) :
  keeps_selection S m S1 →
  (∀ a, keeps_selection S1 (k a) S2) →
  keeps_selection S (m ≫= k) S2.
Proof.
  intros Hm Hk w. specialize (Hm w). rewrite run_bind.
  destruct (m w) as [[[a|e|] w1] t1]; cbn [fst snd] in *;
    [|by split; [apply Hm|]..].
  destruct Hm as [Hm1 Hm2]. specialize (Hk a w1).
  destruct (k a w1) as [[o w2] t2]. cbn [fst snd] in *.
  rewrite selected_at_submit_app, selected_after_app, (Hm2 a eq_refl).
  split; [apply Forall_app; split; [done|apply Hk]|apply Hk].
Qed.






(** Computations that emit nothing, or one action that is neither a
    click on a handle nor the submission of a search. *)
Ltac one_action :=
  intros w; cbn; repeat case_match; cbn; by rewrite ?decide_False by done.




Lemma keeps_selection_receiver {R} S x :
  keeps_selection S (receiver x : M W H R _) S.
Proof. destruct x; one_action. Qed.



Lemma keeps_selection_waitForTimeout {R} S ms :
  keeps_selection S (waitForTimeout ms : M W H R _) S.
Proof. one_action. Qed.

Lemma keeps_selection_waitForSelector {R} S sel :
  keeps_selection S (waitForSelector sel : M W H R _) S.
Proof. unfold waitForSelector. one_action. Qed.

Lemma keeps_selection_page_select {R} S sel v :
  keeps_selection S (page_select sel v : M W H R _) S.
Proof. unfold page_select. one_action. Qed.


Lemma keeps_selection_el_click {R} S h :
  keeps_selection S (el_click h : M W H R _) (toggle h S).
Proof. unfold el_click. one_action. Qed.


Lemma keeps_selection_submit {R} S :
  (length S ≤ 1)%nat →
  keeps_selection S (page_click sel_submit : M W H R _) S.
Proof.
  intros HS w. unfold page_click. repeat case_match; cbn; [|done..].
  rewrite decide_True by done. split; [|done]. by apply Forall_singleton.
Qed.

(** The search of a category, from no selection to the selection of its
    selector alone. *)
Lemma keeps_selection_search {R A} (genreSelect : H) (summary : M W H R A) :
  keeps_selection [genreSelect] summary [genreSelect] →
  keeps_selection []
    (el_click genreSelect;;
     waitForTimeout 3000;;
     promise_all2 (waitForSelector sel_lists) (page_click sel_submit);;
     waitForTimeout 3000;;
     page_select sel_per_page "100";;
     waitForTimeout 3000;;
     summary) [genreSelect].
Proof.
  intros Hsummary.
  eapply keeps_selection_bind; [apply keeps_selection_el_click|]. intros _.
  rewrite toggle_on.
  eapply keeps_selection_bind; [apply keeps_selection_waitForTimeout|]. intros _.
  eapply keeps_selection_bind.
  { eapply keeps_selection_bind; [apply keeps_selection_waitForSelector|].
    intros _. by apply keeps_selection_submit. }
  intros _.
  eapply keeps_selection_bind; [apply keeps_selection_waitForTimeout|]. intros _.
  eapply keeps_selection_bind; [apply keeps_selection_page_select|]. intros _.
  eapply keeps_selection_bind; [apply keeps_selection_waitForTimeout|]. intros _.
  done.
Qed.









End Selection.


(** The clicks on handles and the writes of the walk of Tokyo by
    [app.ts], and those of [part_000], which stops at its first save
    with the selector of the first category still selected. *)
Example tokyo_walk_clicks :
  (λ a, match a with
        | AClick h => inl h
        | AWriteFile p _ => inr p
        | _ => inr EmptyString
        end) <$> clicks_and_writes Site.tokyo_walk.2 =
  [inl (Site.HGenreSelect 0); inr "./dist/Tokyo-Restaurant.csv";
   inl (Site.HGenreSelect 0);
   inl (Site.HGenreSelect 1); inr "./dist/Tokyo-Cafe.csv";
   inl (Site.HGenreSelect 1)] ∧
  clicks_and_writes
    (for_of (Part000.createMaps_for 2 "Tokyo") [Site.HGenre 0; Site.HGenre 1] []
       Site.tokyo).2 = [AClick (Site.HGenreSelect 0)].
Proof. by split. Qed.

(** ** The page navigator *)

Section Numbers.
Lemma code_points_digits d :
  code_points (NilEmpty.string_of_uint d) = digit_codes d.
Proof. induction d; cbn; by f_equal. Qed.

Lemma digit_codes_digits d : forallb is_digit (digit_codes d) = true.
Proof. by induction d. Qed.

Lemma digit_codes_uint d : uint_of_digits (digit_codes d) = d.
Proof. induction d; cbn; by f_equal. Qed.

Lemma digit_is_not_space c : is_digit c = true → is_space c = false.
Proof.
  unfold is_digit, is_space. intros [H1 H2]%andb_prop.
  apply N.leb_le in H1, H2. cbn [existsb].
  repeat match goal with
         | |- context [N.eqb c ?k] => rewrite (proj2 (N.eqb_neq c k)) by lia
         end.
  cbn. apply andb_false_intro1, N.leb_gt. lia.
Qed.

Lemma ltrim_digits l : forallb is_digit l = true → ltrim l = l.
Proof.
  destruct l as [|c l]; [done|]. cbn. intros [Hc _]%andb_prop.
  by rewrite (digit_is_not_space c Hc).
Qed.

Lemma forallb_reverse {A} (f : A → bool) l :
  forallb f (reverse l) = forallb f l.
Proof.
  induction l as [|x l IH]; [done|].
  rewrite reverse_cons, forallb_app, IH. cbn. by rewrite andb_true_r, andb_comm.
Qed.

Lemma trim_digits l : forallb is_digit l = true → trim l = l.
Proof.
  intros Hl. unfold trim. rewrite (ltrim_digits l Hl).
  rewrite ltrim_digits by by rewrite forallb_reverse.
  apply reverse_involutive.
Qed.

Lemma digit_codes_nonempty n : digit_codes (N.to_uint n) ≠ [].
Proof.
  destruct n as [|p]; [done|]. cbn.
  pose proof (DecimalPos.Unsigned.to_uint_nonnil p) as Hnil.
  by destruct (Pos.to_uint p).
Qed.

(** The text of the decimal digits of [n] converts to the double
    nearest to [n]. *)
Lemma Number_decimal n : Number (Some (decimal n)) = double_of_N n.
Proof.
  unfold Number, decimal. rewrite code_points_digits.
  rewrite trim_digits by apply digit_codes_digits.
  pose proof (digit_codes_nonempty n) as Hne.
  destruct (digit_codes (N.to_uint n)) as [|c l] eqn:Hd; [done|].
  rewrite <-Hd, digit_codes_digits, digit_codes_uint.
  by rewrite DecimalN.Unsigned.of_to.
Qed.

(** Up to [2^53] the natural numbers are doubles. *)
Lemma double_of_N_exact n : (n ≤ 2 ^ 53)%N → double_of_N n = JsInt n.
Proof.
  intros Hn. unfold double_of_N.
  destruct (n <? 2 ^ 53)%N eqn:Hlt; [done|].
  apply N.ltb_ge in Hlt. assert (n = 2 ^ 53)%N as -> by lia. by vm_compute.
Qed.

Lemma double_of_N_number n : double_of_N n ≠ JsNaN.
Proof. unfold double_of_N. by repeat case_match. Qed.

Lemma span_digits_all l :
  forallb is_digit l = true → span_digits l = (l, []).
Proof.
  induction l as [|c l IH]; [done|]. cbn. intros [Hc Hl]%andb_prop.
  by rewrite Hc, IH.
Qed.

Lemma digits_are_numeric c l :
  forallb is_digit (c :: l) = true → numeric_literal (c :: l) = true.
Proof.
  intros Hl. unfold numeric_literal. apply orb_true_intro. right.
  assert (is_sign c = false) as ->.
  { cbn in Hl. apply andb_prop in Hl as [Hc _]. unfold is_digit in Hc.
    apply andb_prop in Hc as [H1 H2]. apply N.leb_le in H1, H2.
    unfold is_sign. apply orb_false_intro; apply N.eqb_neq; lia. }
  unfold unsigned_decimal_literal. case_bool_decide; [done|].
  by rewrite (span_digits_all _ Hl).
Qed.

(** [Number] answers [NaN] for the texts that, once trimmed, are not
    empty and not a numeric literal, and for no other. *)
Lemma Number_NaN x :
  Number x = JsNaN ↔
  ∃ s, x = Some s ∧ trim (code_points s) ≠ [] ∧
       numeric_literal (trim (code_points s)) = false.
Proof.
  split.
  - destruct x as [s|]; [|done]. unfold Number.
    destruct (trim (code_points s)) as [|c l] eqn:Hl; [done|].
    destruct (forallb is_digit (c :: l)); [by intros ?%double_of_N_number|].
    destruct (numeric_literal (c :: l)) eqn:Hnum; [done|].
    intros _. exists s. by rewrite Hl.
  - intros (s & -> & Hne & Hnum). unfold Number.
    destruct (trim (code_points s)) as [|c l] eqn:Hl; [done|].
    destruct (forallb is_digit (c :: l)) eqn:Hd.
    + by rewrite (digits_are_numeric c l Hd) in Hnum.
    + by rewrite Hnum.
Qed.
End Numbers.

(** C5, as stated, fails: with an indicator whose text is not a number
    the read does not fail, it returns [NaN]. *)
Lemma currentPageNumber_returns_NaN :
  ¬ (∀ h text,
       page_query Site.odd_indicator sel_page_selected = Some h →
       textContent Site.odd_indicator h = Some text →
       Number (Some text) = JsNaN →
       ∃ e, Part000.getNowPagination Site.odd_indicator =
            (Throw e, Site.odd_indicator, [])).
Proof.
  intros Hclaim.
  destruct (Hclaim Site.HPageSelected "abc" eq_refl eq_refl eq_refl) as [e He].
  discriminate He.
Qed.

Section Navigator.
Context {W H : Type} `{!Browser W H}.
Implicit Types w : W.

(** C5, amended.  Without a pagination control marked as selected the
    read of the current page number fails, with the rejection of
    [$eval]; with one it never fails and returns [Number] of the text
    of the control: [0] when the text is [null]; the double nearest to
    [n] when the text is the decimal digits of [n], which is [n] itself
    up to [2^53]; and [NaN], a value and not an error, exactly when the
    trimmed text is not empty and not a numeric literal.  Both versions
    agree. *)
Theorem currentPageNumber_reads w :
  (page_query w sel_page_selected = None →
   Part000.getNowPagination w = (Throw (NoElement sel_page_selected), w, []) ∧
   App.pickCurrentPageNumber w = (Throw (NoElement sel_page_selected), w, [])) ∧
  (∀ h, page_query w sel_page_selected = Some h →
     Part000.getNowPagination w = (Ok (Number (textContent w h)), w, []) ∧
     App.pickCurrentPageNumber w = (Ok (Number (textContent w h)), w, []) ∧
     (textContent w h = None → Number (textContent w h) = JsInt 0) ∧
     (∀ n, textContent w h = Some (decimal n) →
           Number (textContent w h) = double_of_N n ∧
           ((n ≤ 2 ^ 53)%N → Number (textContent w h) = JsInt n)) ∧
     (Number (textContent w h) = JsNaN ↔
      ∃ s, textContent w h = Some s ∧ trim (code_points s) ≠ [] ∧
           numeric_literal (trim (code_points s)) = false)).
Proof.
  rewrite getNowPagination_run, pickCurrentPageNumber_run. split.
  - by intros ->.
  - intros h ->. split_and!; [done..| | |].
    + by intros ->.
    + intros n ->. rewrite Number_decimal. split; [done|].
      apply double_of_N_exact.
    + apply Number_NaN.
Qed.
End Navigator.

Lemma currentPageNumber_reads_witness :
  Part000.getNowPagination Site.odd_indicator = (Ok JsNaN, Site.odd_indicator, []) ∧
  Part000.getNowPagination Site.two_by_two = (Ok (JsInt 1), Site.two_by_two, []) ∧
  Part000.getNowPagination Site.tokyo =
    (Throw (NoElement sel_page_selected), Site.tokyo, []).
Proof.
  split_and!.
  - destruct (currentPageNumber_reads Site.odd_indicator) as [_ Hsome].
    destruct (Hsome Site.HPageSelected eq_refl) as (-> & _ & _ & _ & Hnan).
    rewrite (proj2 Hnan); [done|]. by exists "abc".
  - destruct (currentPageNumber_reads Site.two_by_two) as [_ Hsome].
    destruct (Hsome Site.HPageSelected eq_refl) as (-> & _ & _ & Hint & _).
    destruct (Hint 1%N eq_refl) as [_ ->]; [done|lia].
  - destruct (currentPageNumber_reads Site.tokyo) as [Hnone _].
    by destruct (Hnone eq_refl) as [-> _].
Defined.

(** Texts that begin like a number, and digits beyond [2^53]. *)
Example Number_examples :
  Number (Some "12abc") = JsNaN ∧ Number (Some "1,234") = JsNaN ∧
  Number (Some " 12 ") = JsInt 12 ∧
  Number (Some "9007199254740993") = JsInt 9007199254740992.
Proof. split_and!; by vm_compute. Qed.

(** ** The record extractor *)


Section Extractor.
Context {W H : Type} `{!Browser W H}.
Implicit Types w : W.

End Extractor.


(** ** The region driver *)

(** C8, as stated, fails: [app.ts] has no error of its own for the
    missing link; when the link to the next region is absent the run of
    the region fails on the call of [click] on [null]. *)
Lemma next_region_link_fails_with_TypeError :
  ¬ (∀ o w' tr,
       App.createMaps 2 (Some (Site.HPref 17)) Site.tokyo_last = (o, w', tr) →
       page_query w' sel_next_pref = None →
       ∃ msg, o = Throw (Error msg)).
Proof.
  intros Hclaim. destruct (Hclaim _ _ _ eq_refl eq_refl) as [msg Hmsg].
  discriminate Hmsg.
Qed.

Section Driver.
Context {W H : Type} `{!Browser W H}.
Implicit Types w : W.

(** C8, amended.  When the walk of a region by [app.ts] has completed,
    its aggregate file is the last thing written and the link to the
    next region is looked up then: if it is there it is clicked, if it
    is absent the run of the region fails with a [TypeError], on the
    call of [click] on [null].  [createMaps] does so for every region it
    is called on: nothing tells it whether the region is the last one
    requested. *)
Theorem next_region_link fuel p w input expand w0 stores w2 t :
  el_query w p sel_input = Some input →
  el_query w p sel_expand = Some expand →
  click w expand = Some w0 →
  for_of (App.createMaps_for fuel (getAttribute w input "data-label"))
    (page_query_all (waitTimeout w0 3000) sel_genres) []
    (waitTimeout w0 3000) = (Ok stores, w2, t) →
  App.createMaps fuel (Some p) w =
    match page_query w2 sel_next_pref with
    | None =>
        (Throw TypeError, w2,
         [AClick expand; AWaitForTimeout 3000] ++ t ++
         [AWriteFile (csv_path (template (getAttribute w input "data-label")) "all")
            stores])
    | Some link =>
        match click w2 link with
        | Some w3 =>
            (Ok tt, w3,
             [AClick expand; AWaitForTimeout 3000] ++ t ++
             [AWriteFile (csv_path (template (getAttribute w input "data-label")) "all")
                stores; AClick link])
        | None =>
            (Throw ClickFailed, w2,
             [AClick expand; AWaitForTimeout 3000] ++ t ++
             [AWriteFile (csv_path (template (getAttribute w input "data-label")) "all")
                stores])
        end
    end.
Proof.
  intros Hinput Hexpand Hclick Hwalk.
  rewrite (createMaps_walked _ _ _ _ _ _ _ _ _ Hinput Hexpand Hclick Hwalk).
  unfold after. rewrite next_pref_run.
  destruct (page_query w2 sel_next_pref) as [link|]; cbn; [|by rewrite !app_nil_r].
  destruct (click w2 link); cbn; by rewrite <-?(assoc_L (++)), ?app_nil_r.
Qed.

(** C10.  The regions are taken at position 17 of the enumerated list
    without a check: with 17 regions or fewer on the starting page the
    region is [undefined], the first read on it throws, and the run
    fails after the navigation to the starting page, before any other
    action and any file. *)
Theorem main_fails_without_region_17 fuel w w1 :
  goto w start_url = Some w1 →
  (length (page_query_all w1 sel_prefs) ≤ 17)%nat →
  Part000.main fuel w = (Throw TypeError, w1, [AGoto start_url]) ∧
  App.main fuel w = (Throw TypeError, w1, [AGoto start_url]) ∧
  writes (Part000.main fuel w).2 = [] ∧
  writes (App.main fuel w).2 = [].
Proof.
  intros Hgoto Hlen.
  assert (page_query_all w1 sel_prefs !! 17 = None) as Hpref
    by by apply lookup_ge_None.
  assert (Part000.main fuel w = (Throw TypeError, w1, [AGoto start_url])) as HP.
  { unfold Part000.main.
    rewrite (run_bind_ok _ _ w tt w1 [AGoto start_url])
      by by unfold page_goto; rewrite Hgoto.
    rewrite (run_bind_read _ _ w1 (page_query_all w1 sel_prefs)) by done.
    cbn [fmap list_fmap for_of]. by rewrite Hpref. }
  assert (App.main fuel w = (Throw TypeError, w1, [AGoto start_url])) as HA.
  { unfold App.main.
    rewrite (run_bind_ok _ _ w tt w1 [AGoto start_url])
      by by unfold page_goto; rewrite Hgoto.
    rewrite (run_bind_read _ _ w1 (page_query_all w1 sel_prefs)) by done.
    cbn [fmap list_fmap for_of]. by rewrite Hpref. }
  by rewrite HP, HA.
Qed.
End Driver.

Lemma next_region_link_witness :
  App.createMaps 2 (Some (Site.HPref 17)) Site.tokyo_last =
    (Throw TypeError, Site.tokyo_last_walked,
     [AClick (Site.HPrefExpand 17); AWaitForTimeout 3000] ++
     (for_of (App.createMaps_for 2 (Some "Tokyo")) [Site.HGenre 0; Site.HGenre 1] []
        Site.tokyo_last).2 ++
     [AWriteFile (csv_path "Tokyo" "all")
        (to_store <$> (merchants_of "Restaurant"
           [[("R1", "A1"); ("R2", "A2"); ("R3", "A3")]; [("R4", "A4")]] ++
           merchants_of "Cafe" [[("C1", "B1"); ("C2", "B2")]]))]).
Proof.
  refine (next_region_link 2 (Site.HPref 17) Site.tokyo_last (Site.HPrefInput 17)
            (Site.HPrefExpand 17) Site.tokyo_last
            (to_store <$> (merchants_of "Restaurant"
               [[("R1", "A1"); ("R2", "A2"); ("R3", "A3")]; [("R4", "A4")]] ++
             merchants_of "Cafe" [[("C1", "B1"); ("C2", "B2")]]))
            Site.tokyo_last_walked
            (for_of (App.createMaps_for 2 (Some "Tokyo")) [Site.HGenre 0; Site.HGenre 1] []
               Site.tokyo_last).2 _ _ _ _).
  - reflexivity.
  - reflexivity.
  - reflexivity.
  - reflexivity.
Defined.

Lemma main_fails_without_region_17_witness :
  Part000.main 2 Site.small = (Throw TypeError, Site.small, [AGoto start_url]) ∧
  App.main 2 Site.small = (Throw TypeError, Site.small, [AGoto start_url]) ∧
  writes (Part000.main 2 Site.small).2 = [] ∧
  writes (App.main 2 Site.small).2 = [].
Proof.
  apply (main_fails_without_region_17 2 Site.small Site.small).
  - reflexivity.
  - cbn. lia.
Defined.

(** On a site that has the link, [app.ts] clicks it after the aggregate
    file of the region. *)
Example tokyo_next_region :
  (App.createMaps 2 (Some (Site.HPref 17)) Site.tokyo).1.1 = Ok tt ∧
  last (App.createMaps 2 (Some (Site.HPref 17)) Site.tokyo).2 =
    Some (AClick Site.HNextPref).
Proof. by split. Qed.

(** ** The save of [part_000] *)

Section Persistence.
Context {W H : Type} `{!Browser W H}.
Implicit Types w : W.

Local Abbreviation MP := (M W H Part000.Merchant).

(** An action of the walk other than a write. *)
Local Abbreviation quiet := (λ a : action H Part000.Merchant,
                               is_not_write a ∧ is_walk_action a).

Lemma saveMerchantsToCSVFile_throws merchants prefName genreName w :
  (Part000.saveMerchantsToCSVFile merchants prefName genreName : MP unit) w =
    (Throw TypeError, w, []).
Proof. reflexivity. Qed.

Lemma never_saveMerchantsToCSVFile P merchants prefName genreName :
  emits P (λ _, False)
    (Part000.saveMerchantsToCSVFile merchants prefName genreName : MP unit).
Proof. intros w. rewrite saveMerchantsToCSVFile_throws. by split; [constructor|]. Qed.

Lemma never_createMaps_for fuel prefName merchants genreHandle :
  emits quiet (λ _, False)
    (Part000.createMaps_for fuel prefName merchants genreHandle).
Proof.
  eapply emits_bind.
  { apply (emits_reads _ (Part000.getGenreName genreHandle)).
    apply reads_bind; [apply reads_el_eval|].
    intros [?|]; [apply reads_ret|apply reads_throw]. }
  intros genreName _.
  eapply emits_bind; [apply emits_reads, reads_el_dollar|].
  intros [genreSelect|] _; [|apply emits_throw].
  eapply emits_bind; [by apply emits_el_click|]. intros _ _.
  eapply emits_bind; [by apply emits_waitForTimeout|]. intros _ _.
  eapply emits_bind.
  { apply emits_promise_all2; [by apply emits_waitForSelector|by apply emits_page_click]. }
  intros _ _.
  eapply emits_bind; [by apply emits_waitForTimeout|]. intros _ _.
  eapply emits_bind; [by apply emits_page_select|]. intros _ _.
  eapply emits_bind; [by apply emits_waitForTimeout|]. intros _ _.
  eapply emits_bind; [apply emits_reads, reads_page_eval|]. intros _ _.
  eapply emits_bind.
  { eapply emits_weaken; [|done|apply (emits_getMerchantFromSearchResult fuel genreName)].
    by intros a [->|[->| ->]]. }
  intros ms _.
  eapply emits_bind; [apply never_saveMerchantsToCSVFile|]. by intros _ [].
Qed.

Lemma never_createMaps fuel pref :
  emits quiet (λ _, False) (Part000.createMaps fuel pref).
Proof.
  eapply emits_bind.
  { apply (emits_reads _ (Part000.getPrefecturesName pref)).
    apply reads_bind.
    - apply reads_bind; [apply reads_receiver|]. intros p. apply reads_el_eval.
    - intros [?|]; [apply reads_ret|apply reads_throw]. }
  intros prefName _.
  eapply emits_bind.
  { eapply emits_bind; [apply emits_reads, reads_receiver|]. intros p _.
    eapply emits_bind; [apply emits_reads, reads_el_dollar|].
    intros [el|] _; [by apply emits_el_click|apply emits_throw]. }
  intros _ _.
  eapply emits_bind; [by apply emits_waitForTimeout|]. intros _ _.
  eapply emits_bind; [apply emits_reads, reads_page_dollars|]. intros hs _.
  eapply emits_bind.
  { apply (emits_for_of _ (λ _, True)); [|done]. intros ms h _.
    eapply emits_weaken; [| |apply never_createMaps_for]; done. }
  intros ms _.
  eapply emits_bind; [apply never_saveMerchantsToCSVFile|]. by intros _ [].
Qed.

Lemma never_main fuel :
  emits (λ a, is_not_write a ∧ a ≠ AClose) (λ _, False) (Part000.main fuel).
Proof.
  eapply (emits_bind _ (λ _, True)).
  { intros w. unfold page_goto.
    destruct (goto w start_url); cbn; (split; [|done]).
    - by apply Forall_singleton.
    - constructor. }
  intros _ _.
  eapply emits_bind; [apply emits_reads, reads_page_dollars|]. intros allPrefs _.
  eapply (emits_bind _ (λ _, False)); [|by intros _ []].
  cbn [fmap list_fmap for_of].
  eapply (emits_bind _ (λ _, False)); [|by intros _ []].
  eapply emits_weaken; [| |apply never_createMaps]; [|done].
  by intros [] [? ?].
Qed.
End Persistence.

(** C3.  [part_000] persists nothing: the call [stringify.default(...)]
    of [saveMerchantsToCSVFile] throws before [fs.writeFileSync], so
    that no run of a region writes a file or completes.  On Tokyo, with
    the categories Restaurant (pages of three rows and one row) and Cafe
    (one page of two rows), the walk of [part_000] stops with a
    [TypeError] at the save of the first category, where [app.ts]
    writes the file of each category and the aggregate file. *)
Theorem walkCategories_files :
  (∀ (W H : Type) (B : Browser W H) fuel pref (w : W),
     writes (Part000.createMaps fuel pref w).2 = [] ∧
     ∀ u, (Part000.createMaps fuel pref w).1.1 ≠ Ok u) ∧
  Part000.createMaps 2 (Some (Site.HPref 17)) Site.tokyo =
    (Throw TypeError, Site.tokyo_stopped,
     [AClick (Site.HPrefExpand 17); AWaitForTimeout 3000] ++
     search_trace (Site.HGenreSelect 0) ++ transition_trace) ∧
  (App.createMaps 2 (Some (Site.HPref 17)) Site.tokyo).1.1 = Ok tt ∧
  (λ f, (f.1, length f.2)) <$> writes (App.createMaps 2 (Some (Site.HPref 17)) Site.tokyo).2 =
    [("./dist/Tokyo-Restaurant.csv", 4); ("./dist/Tokyo-Cafe.csv", 2);
     ("./dist/Tokyo-all.csv", 6)].
Proof.
  split_and!; [|done..].
  intros W H B fuel pref w. destruct (never_createMaps fuel pref w) as [Htr Hok].
  split.
  - apply writes_silent. eapply Forall_impl; [exact Htr|]. by intros a [? _].
  - intros u Hu. by apply (Hok u).
Qed.

(** ** The two versions *)

(** C9.  The two versions are not equivalent.  [part_000] does what
    [app.ts] does up to the point where it stops, and it always stops:
    at the latest at its first save, which throws, so that it writes no
    file and never closes the browser.  On Tokyo, where every text and
    label is read and every element exists, [app.ts] writes its three
    files and closes the browser while [part_000] stops with a
    [TypeError] at the save of the first category. *)
Theorem versions_differ_at_first_save :
  (∀ (W H : Type) (B : Browser W H) fuel (w : W),
     simulates eq (Part000.main fuel w) (App.main fuel w) ∧
     writes (Part000.main fuel w).2 = [] ∧
     (AClose ∉ (Part000.main fuel w).2) ∧
     (Part000.main fuel w).1.1 ≠ Ok tt) ∧
  Part000.main 2 Site.tokyo =
    (Throw TypeError, Site.tokyo_stopped,
     [AGoto start_url; AClick (Site.HPrefExpand 17); AWaitForTimeout 3000] ++
     search_trace (Site.HGenreSelect 0) ++ transition_trace) ∧
  (App.main 2 Site.tokyo).1.1 = Ok tt ∧
  (λ f, (f.1, length f.2)) <$> writes (App.main 2 Site.tokyo).2 =
    [("./dist/Tokyo-Restaurant.csv", 4); ("./dist/Tokyo-Cafe.csv", 2);
     ("./dist/Tokyo-all.csv", 6)] ∧
  last (App.main 2 Site.tokyo).2 = Some AClose.
Proof.
  split_and!; [|done..].
  intros W H B fuel w. destruct (never_main fuel w) as [Htr Hok].
  split_and!.
  - apply simulation_main.
  - apply writes_silent. eapply Forall_impl; [exact Htr|]. by intros a [? _].
  - intros Hin. rewrite Forall_forall in Htr. by destruct (Htr _ Hin) as [_ []].
  - intros Hu. by apply (Hok tt).
Qed.

(** With a region without a label the two versions part earlier:
    [part_000] stops on the label, [app.ts] goes on and writes files
    named after [null]. *)
Example versions_part_on_null_label :
  (Part000.main 2 Site.unlabelled).1.1 = Throw (Error Part000.msg_pref_name) ∧
  (App.main 2 Site.unlabelled).1.1 = Ok tt ∧
  (writes (App.main 2 Site.unlabelled).2).*1 =
    ["./dist/null-Cafe.csv"; "./dist/null-all.csv"].
Proof. by split_and!. Qed.

(** * Further properties of the code *)

(** ** The extraction of a page *)

Section PageExtraction.
Context {W H : Type} `{!Browser W H}.
Implicit Types w : W.

Lemma convertDetailToMerchantObj_ends detail genre w :
  (Part000.convertDetailToMerchantObj detail genre w).1.1 ≠ OutOfFuel.
Proof. rewrite convertDetailToMerchantObj_run. by repeat case_match. Qed.

Lemma detailToStoreObj_ends detail genre w :
  (App.detailToStoreObj detail genre w).1.1 ≠ OutOfFuel.
Proof.
  unfold App.detailToStoreObj. rewrite run_bind. unfold el_eval at 1, fn_textContent.
  destruct (el_query w detail sel_h4); [|done].
  rewrite run_bind. unfold el_eval.
  by destruct (el_query w detail sel_address).
Qed.

(** X1.  The extraction of the rows of a page is a read, all or nothing:
    it leaves the page as it is and performs no action; when it
    succeeds it returns one record per row, in the order of the rows,
    each being the extraction of its row; when it fails it fails with
    the error of the extraction of one of the rows and returns no record
    at all.  This holds for [part_000] and for [app.ts]. *)
Theorem page_extraction_all_or_nothing genre genre' details w :
  let rp := promise_all_map
              (λ detail, Part000.convertDetailToMerchantObj detail genre) details w in
  let ra := promise_all_map
              (λ detail, App.detailToStoreObj detail genre') details w in
  (rp.1.2 = w ∧ rp.2 = [] ∧
   match rp.1.1 with
   | Ok ms =>
       Forall2 (λ d m, (Part000.convertDetailToMerchantObj d genre w).1.1 = Ok m)
         details ms
   | Throw e =>
       ∃ d, d ∈ details ∧
            (Part000.convertDetailToMerchantObj d genre w).1.1 = Throw e
   | OutOfFuel => False
   end) ∧
  (ra.1.2 = w ∧ ra.2 = [] ∧
   match ra.1.1 with
   | Ok ss =>
       Forall2 (λ d s, (App.detailToStoreObj d genre' w).1.1 = Ok s) details ss
   | Throw e =>
       ∃ d, d ∈ details ∧ (App.detailToStoreObj d genre' w).1.1 = Throw e
   | OutOfFuel => False
   end).
Proof.
  intros rp ra. split.
  - destruct (promise_all_map_outcome
                (λ d, Part000.convertDetailToMerchantObj d genre) details w
                (λ d, convertDetailToMerchantObj_still w d genre))
      as (Hw & Ht & Hout).
    fold rp in Hw, Ht, Hout. split_and!; [done..|].
    destruct (rp.1.1); [done..|].
    destruct Hout as (d & _ & Hd). by apply convertDetailToMerchantObj_ends in Hd.
  - destruct (promise_all_map_outcome
                (λ d, App.detailToStoreObj d genre') details w
                (λ d, detailToStoreObj_still w d genre'))
      as (Hw & Ht & Hout).
    fold ra in Hw, Ht, Hout. split_and!; [done..|].
    destruct (ra.1.1); [done..|].
    destruct Hout as (d & _ & Hd). by apply detailToStoreObj_ends in Hd.
Qed.
End PageExtraction.

(** ** The actions and the end of a collection *)

Section Collection.
Context {W H : Type} `{!Browser W H}.
Implicit Types w : W.

Lemma writes_transition_actions {R} (tr : list (action H R)) :
  Forall is_transition_action tr → writes tr = [].
Proof.
  induction 1 as [|a tr Ha _ IH]; [done|].
  by destruct Ha as [->|[->| ->]].
Qed.

(** X2.  Whatever its outcome, a collection acts on the page through the
    next page control only: every action is the click on that control,
    the wait for the result list or the delay of 3000 ms; it writes no
    file and clicks no other element.  This holds for both versions. *)
Theorem collection_only_turns_pages fuel genre genre' w :
  Forall is_transition_action (Part000.getMerchantFromSearchResult fuel genre w).2 ∧
  writes (Part000.getMerchantFromSearchResult fuel genre w).2 = [] ∧
  Forall is_transition_action (App.pickStores fuel genre' w).2 ∧
  writes (App.pickStores fuel genre' w).2 = [].
Proof.
  destruct (emits_getMerchantFromSearchResult fuel genre w) as [HP _].
  destruct (emits_pickStores fuel genre' w) as [HA _].
  split_and!; [done|by apply writes_transition_actions|done|
               by apply writes_transition_actions].
Qed.

Lemma getMerchantFromSearchResult_while_end fuel genre merchants w ms w' tr :
  Part000.getMerchantFromSearchResult_while fuel genre merchants w = (Ok ms, w', tr) →
  ∃ n before last,
    (n < fuel)%nat ∧
    tr = concat (replicate n transition_trace) ∧
    page_readable w' ∧
    page_query w' sel_next_li = None ∧
    ms = merchants ++ before ++ last ∧
    Forall2 (λ d m, Part000.convertDetailToMerchantObj d genre w' = (Ok m, w', []))
      (page_query_all w' sel_details) last.
Proof.
  revert merchants w tr.
  induction fuel as [|fuel IH]; intros merchants w tr; [done|].
  cbn [Part000.getMerchantFromSearchResult_while].
  intros (?&?&?&?& Hpage & Hk & ->)%run_bind_inv_ok.
  pose proof Hpage as [-> ->]%getNowPagination_inv.
  apply run_bind_inv_ok in Hk as (details&?&?&?& [= <- <- <-] & Hk & ->).
  apply run_bind_inv_ok in Hk as (picked&?&?&?& Hpicked & Hk & ->).
  pose proof Hpicked as (_ & -> & ->)%promise_all_map_inv.
  apply run_bind_inv_ok in Hk as (next&?&?&?& Hnext & Hk & ->).
  rewrite hasNextPageButton_run in Hnext. injection Hnext as <- <- <-.
  destruct (bool_decide _) eqn:Hdec.
  - apply run_bind_inv_ok in Hk
      as (?&?&?&?& ->%searchResultNextPageToTransition_inv & Hk & ->).
    apply IH in Hk as (n & before & last & Hn & -> & Hread & Hnone & -> & Hlast).
    exists (S n), (picked ++ before), last. split_and!; [lia|done..| |done].
    by rewrite !(assoc_L (++)).
  - injection Hk as <- <- <-. apply bool_decide_eq_false in Hdec.
    exists 0, [], picked. split_and!; [lia|done| | |done|].
    + rewrite getNowPagination_run in Hpage. unfold page_readable.
      by destruct (page_query w sel_page_selected).
    + by destruct (page_query w sel_next_li); [destruct Hdec|].
    + destruct (promise_all_map_outcome
                  (λ d, Part000.convertDetailToMerchantObj d genre)
                  (page_query_all w sel_details) w
                  (λ d, convertDetailToMerchantObj_still w d genre))
        as (_ & _ & Hout).
      rewrite Hpicked in Hout. cbn [fst] in Hout.
      eapply Forall2_impl; [exact Hout|]. intros d m Hd. cbn beta in Hd.
      destruct (reads_convertDetailToMerchantObj d genre w) as [Hw Ht].
      destruct (Part000.convertDetailToMerchantObj d genre w) as [[o w2] t2].
      cbn [fst snd] in *. by subst.
Qed.

(** X3.  A collection of [part_000] that returns has made a number of
    whole page transitions, fewer than the fuel, and ended on a page
    whose indicator is readable and which shows no next page control;
    the records it returns all carry the label of the caller, and the
    last of them are the extraction of the rows of that final page, in
    the order of the rows. *)
Theorem collection_ends_on_last_page fuel genre w ms w' tr :
  Part000.getMerchantFromSearchResult fuel genre w = (Ok ms, w', tr) →
  ∃ n before last,
    (n < fuel)%nat ∧
    tr = concat (replicate n transition_trace) ∧
    page_readable w' ∧
    page_query w' sel_next_li = None ∧
    ms = before ++ last ∧
    Forall (λ m, Part000.genre m = genre) ms ∧
    Forall2 (λ d m, Part000.convertDetailToMerchantObj d genre w' = (Ok m, w', []))
      (page_query_all w' sel_details) last.
Proof.
  intros Hrun.
  pose proof Hrun as (n0 & _ & Hgenre)%getMerchantFromSearchResult_inv.
  apply run_bind_inv_ok in Hrun as (?&?&?&?& [-> ->]%getNowPagination_inv & Hk & ->).
  apply getMerchantFromSearchResult_while_end in Hk
    as (n & before & last & Hn & -> & Hread & Hnone & Hms & Hlast).
  by exists n, before, last.
Qed.

(** X4.  The loop has no bound of its own: on pages that can always be
    read and always show a next page control, the collection never
    returns; whatever the fuel, it is used up after as many page
    transitions.  This holds for both versions. *)
Theorem collection_never_returns (I : W → Prop) fuel genre w :
  endless I → I w →
  Part000.getMerchantFromSearchResult fuel genre w =
    (OutOfFuel, (Part000.getMerchantFromSearchResult fuel genre w).1.2,
     concat (replicate fuel transition_trace)) ∧
  App.pickStores fuel (Some genre) w =
    (OutOfFuel, (Part000.getMerchantFromSearchResult fuel genre w).1.2,
     concat (replicate fuel transition_trace)).
Proof.
  intros Hendless Hw.
  assert (∀ merchants,
            ∃ w', Part000.getMerchantFromSearchResult_while fuel genre merchants w =
                  (OutOfFuel, w', concat (replicate fuel transition_trace))) as Hloop.
  { revert w Hw. induction fuel as [|fuel IH]; intros w Hw merchants.
    { by exists w. }
    destruct (Hendless w Hw) as (Hread & [rows Hrows] & Hnext & w' & Htrans & Hw').
    rewrite (getMerchantFromSearchResult_while_step _ _ _ _ _ Hread Hrows).
    rewrite bool_decide_true by done.
    rewrite (run_bind_ok _ _ _ _ _ _ (searchResultNextPageToTransition_run _ _ Htrans)).
    destruct (IH w' Hw' (merchants ++ (merchant_of genre <$> rows))) as [wend ->].
    by exists wend. }
  assert (Part000.getMerchantFromSearchResult fuel genre w =
            (OutOfFuel, (Part000.getMerchantFromSearchResult fuel genre w).1.2,
             concat (replicate fuel transition_trace))) as HP.
  { unfold Part000.getMerchantFromSearchResult.
    destruct (Hendless w Hw) as ([n Hn]%getNowPagination_readable & _).
    rewrite (run_bind_read _ _ _ _ Hn). by destruct (Hloop []) as [w' ->]. }
  split; [done|].
  pose proof (simulation_collect fuel genre w) as Hsim.
  rewrite HP in Hsim. cbn [simulates] in Hsim.
  by rewrite Hsim, to_store_transitions.
Qed.

(** X5.  The test for a next page looks for the item of the pagination,
    the click for the link inside it: on a page that shows the item
    without a link the collection fails on the click, after the rows of
    the page have been extracted, and the records are lost.  This holds
    for both versions. *)
Theorem collection_fails_on_next_without_link fuel genre w rows :
  page_readable w →
  page_rows w rows →
  is_Some (page_query w sel_next_li) →
  page_query w sel_next_a = None →
  (1 ≤ fuel)%nat →
  Part000.getMerchantFromSearchResult fuel genre w =
    (Throw (NoElement sel_next_a), w, []) ∧
  App.pickStores fuel (Some genre) w = (Throw (NoElement sel_next_a), w, []).
Proof.
  intros Hread Hrows Hli Ha Hfuel.
  assert (Part000.getMerchantFromSearchResult fuel genre w =
            (Throw (NoElement sel_next_a), w, [])) as HP.
  { unfold Part000.getMerchantFromSearchResult.
    pose proof Hread as [n Hn]%getNowPagination_readable.
    rewrite (run_bind_read _ _ _ _ Hn).
    destruct fuel as [|fuel]; [lia|].
    rewrite (getMerchantFromSearchResult_while_step _ _ _ _ _ Hread Hrows).
    rewrite bool_decide_true by done.
    apply run_bind_throw.
    unfold Part000.searchResultNextPageToTransition, promise_all2.
    apply run_bind_throw, run_bind_throw. unfold page_click. by rewrite Ha. }
  split; [done|].
  unfold App.pickStores.
  pose proof Hread as [n Hn]%pickCurrentPageNumber_readable.
  rewrite (run_bind_read _ _ _ _ Hn).
  destruct fuel as [|fuel]; [lia|].
  rewrite (pickStores_while_step _ _ _ _ _ Hread Hrows).
  rewrite bool_decide_true by done.
  apply run_bind_throw. unfold promise_all2.
  apply run_bind_throw. unfold App.clickNextPageButton, page_click. by rewrite Ha.
Qed.
End Collection.

Lemma collection_ends_on_last_page_witness :
  ∃ n before last,
    (n < 2)%nat ∧
    (Part000.getMerchantFromSearchResult 2 "Bar" Site.two_by_two).2 =
      concat (replicate n transition_trace) ∧
    page_readable (Site.showing [Site.numbered "2"
                     [Site.full_row "R3" "A3"; Site.full_row "R4" "A4"]]) ∧
    page_query (Site.showing [Site.numbered "2"
                  [Site.full_row "R3" "A3"; Site.full_row "R4" "A4"]]) sel_next_li = None ∧
    merchants_of "Bar" [[("R1", "A1"); ("R2", "A2")]; [("R3", "A3"); ("R4", "A4")]] =
      before ++ last ∧
    Forall (λ m, Part000.genre m = "Bar")
      (merchants_of "Bar" [[("R1", "A1"); ("R2", "A2")]; [("R3", "A3"); ("R4", "A4")]]) ∧
    Forall2 (λ d m, Part000.convertDetailToMerchantObj d "Bar"
                      (Site.showing [Site.numbered "2"
                         [Site.full_row "R3" "A3"; Site.full_row "R4" "A4"]]) =
                    (Ok m, Site.showing [Site.numbered "2"
                             [Site.full_row "R3" "A3"; Site.full_row "R4" "A4"]], []))
      (page_query_all (Site.showing [Site.numbered "2"
                         [Site.full_row "R3" "A3"; Site.full_row "R4" "A4"]]) sel_details)
      last.
Proof.
  apply (collection_ends_on_last_page 2 "Bar" Site.two_by_two
           (merchants_of "Bar"
              [[("R1", "A1"); ("R2", "A2")]; [("R3", "A3"); ("R4", "A4")]])
           (Site.showing [Site.numbered "2"
              [Site.full_row "R3" "A3"; Site.full_row "R4" "A4"]])
           (Part000.getMerchantFromSearchResult 2 "Bar" Site.two_by_two).2).
  reflexivity.
Defined.

Lemma collection_never_returns_witness :
  @Part000.getMerchantFromSearchResult _ _ Variants.circular 3 "Bar" Site.two_by_two =
    (OutOfFuel,
     (@Part000.getMerchantFromSearchResult _ _ Variants.circular 3 "Bar"
        Site.two_by_two).1.2,
     concat (replicate 3 transition_trace)) ∧
  @App.pickStores _ _ Variants.circular 3 (Some "Bar") Site.two_by_two =
    (OutOfFuel,
     (@Part000.getMerchantFromSearchResult _ _ Variants.circular 3 "Bar"
        Site.two_by_two).1.2,
     concat (replicate 3 transition_trace)).
Proof.
  apply (@collection_never_returns _ _ Variants.circular (λ w, w = Site.two_by_two)).
  - intros w ->. split_and!.
    + by eexists.
    + exists [("R1", "A1"); ("R2", "A2")]. repeat constructor; by do 2 eexists.
    + by eexists.
    + exists Site.two_by_two. split; [|done]. by do 3 eexists.
  - reflexivity.
Defined.

Lemma collection_fails_on_next_without_link_witness :
  @Part000.getMerchantFromSearchResult _ _ Variants.no_anchor 2 "Bar" Site.two_by_two =
    (Throw (NoElement sel_next_a), Site.two_by_two, []) ∧
  @App.pickStores _ _ Variants.no_anchor 2 (Some "Bar") Site.two_by_two =
    (Throw (NoElement sel_next_a), Site.two_by_two, []).
Proof.
  apply (@collection_fails_on_next_without_link _ _ Variants.no_anchor 2 "Bar"
           Site.two_by_two [("R1", "A1"); ("R2", "A2")]).
  - by eexists.
  - repeat constructor; by do 2 eexists.
  - by eexists.
  - reflexivity.
  - lia.
Defined.


(** ** Files of the category loop in every run *)

Section LoopFiles.
Context {W H : Type} `{!Browser W H}.
Implicit Types w : W.

Local Abbreviation MA := (M W H App.Store).

Lemma complete_file_transition fuel prefName (a : action H App.Store) :
  is_transition_action a → complete_file fuel prefName a.
Proof. by intros [->|[->| ->]]. Qed.

Lemma emits_collection_complete fuel prefName genreName :
  emits (complete_file fuel prefName)
    (λ ss, Forall (λ s, App.genre s = genreName) ss ∧
           ∃ w w' tr, App.pickStores fuel genreName w = (Ok ss, w', tr))
    (App.pickStores fuel genreName).
Proof.
  intros w. destruct (emits_pickStores fuel genreName w) as [Htr _].
  split.
  - eapply Forall_impl; [exact Htr|]. apply complete_file_transition.
  - intros ss Hss.
    destruct (App.pickStores fuel genreName w) as [[o w'] tr] eqn:Hrun.
    cbn [fst] in Hss. subst o. split; [|eauto].
    by apply pickStores_inv in Hrun as (n & _ & ?).
Qed.

Lemma emits_createMaps_for_complete fuel prefName stores genre :
  emits (complete_file fuel prefName) (λ _, True)
    (App.createMaps_for fuel prefName stores genre).
Proof.
  eapply emits_bind; [apply emits_reads, reads_el_eval|]. intros genreName _.
  eapply emits_bind; [apply emits_reads, reads_el_dollar|]. intros genreSelect _.
  eapply emits_bind.
  { eapply emits_bind; [apply emits_reads, reads_receiver|].
    intros g _. by apply emits_el_click. }
  intros _ _.
  eapply emits_bind; [by apply emits_waitForTimeout|]. intros _ _.
  eapply emits_bind.
  { apply emits_promise_all2; [by apply emits_waitForSelector|by apply emits_page_click]. }
  intros _ _.
  eapply emits_bind; [by apply emits_waitForTimeout|]. intros _ _.
  eapply emits_bind; [by apply emits_page_select|]. intros _ _.
  eapply emits_bind; [by apply emits_waitForTimeout|]. intros _ _.
  eapply emits_bind; [apply emits_reads, reads_page_eval|]. intros _ _.
  eapply emits_bind; [apply emits_collection_complete|].
  intros ss (Hgenre & w & w' & tr & Hrun).
  eapply emits_bind.
  { apply emits_writeFileSync. cbn. by exists genreName, w, w', tr. }
  intros _ _.
  eapply emits_bind.
  { eapply emits_bind; [apply emits_reads, reads_receiver|].
    intros g _. by apply emits_el_click. }
  intros _ _. by apply emits_ret.
Qed.

(** X6.  In every run of the category loop of [app.ts], completed or
    not, each file that is written is complete: its path is made of the
    label of the region and the label of a category, and its rows are
    all the records that a collection for this category returned, each
    carrying the label of the category.  No file holds the records of an
    interrupted collection. *)
Theorem category_files_complete fuel prefName genres stores w :
  Forall (λ f, ∃ genreName w1 w2 tr,
               f.1 = csv_path (template prefName) (template genreName) ∧
               Forall (λ s, App.genre s = genreName) f.2 ∧
               App.pickStores fuel genreName w1 = (Ok f.2, w2, tr))
    (writes (for_of (App.createMaps_for fuel prefName) genres stores w).2).
Proof.
  pose proof (emits_for_of (complete_file fuel prefName) (λ _, True)
                (App.createMaps_for fuel prefName) genres
                (λ ss h _, emits_createMaps_for_complete fuel prefName ss h)
                stores I w) as [Htr _].
  apply Forall_writes in Htr. eapply Forall_impl; [exact Htr|].
  intros [path rows]. cbn. naive_solver.
Qed.

(** Counting the files. *)
Lemma writes_at_most_bind {R A B} n n' (m : M W H R A) (k : A → M W H R B) :
  writes_at_most n m → (∀ a, writes_at_most n' (k a)) →
  writes_at_most (n + n') (m ≫= k).
Proof.
  intros Hm Hk w. specialize (Hm w). rewrite run_bind.
  destruct (m w) as [[[a|e|] w1] t1]; cbn [fst snd] in *.
  - destruct Hm as [_ Hm]. specialize (Hm a eq_refl). specialize (Hk a w1).
    destruct (k a w1) as [[o w2] t2]. cbn [fst snd] in *.
    rewrite writes_app, length_app, Hm. destruct Hk as [Hk1 Hk2].
    split; [lia|]. intros b Hb. by rewrite (Hk2 b Hb).
  - destruct Hm as [Hm _]. split; [lia|done].
  - destruct Hm as [Hm _]. split; [lia|done].
Qed.

Lemma writes_at_most_silent {R A} (Q : A → Prop) (m : M W H R A) :
  emits is_not_write Q m → writes_at_most 0 m.
Proof.
  intros Hm w. destruct (Hm w) as [Htr _].
  by rewrite (writes_silent _ Htr).
Qed.

Lemma is_not_write_transition {R} (a : action H R) :
  is_transition_action a → is_not_write a.
Proof. by intros [->|[->| ->]]. Qed.

Lemma silent_click {R} (x : option H) :
  writes_at_most 0 (g ← receiver x; el_click g : M W H R unit).
Proof.
  apply (writes_at_most_silent (λ _, True)).
  eapply emits_bind; [apply emits_reads, reads_receiver|].
  intros g _. by apply emits_el_click.
Qed.

Lemma writes_at_most_createMaps_for fuel prefName stores genre :
  writes_at_most 1 (App.createMaps_for fuel prefName stores genre).
Proof.
  apply (writes_at_most_bind 0 1).
  { apply (writes_at_most_silent (λ _, True)), emits_reads, reads_el_eval. }
  intros genreName.
  apply (writes_at_most_bind 0 1).
  { apply (writes_at_most_silent (λ _, True)), emits_reads, reads_el_dollar. }
  intros genreSelect.
  apply (writes_at_most_bind 0 1); [apply silent_click|].
  intros _. apply (writes_at_most_bind 0 1).
  { by apply (writes_at_most_silent (λ _, True)), emits_waitForTimeout. }
  intros _. apply (writes_at_most_bind 0 1).
  { apply (writes_at_most_silent (λ _, True)), emits_promise_all2;
      [by apply emits_waitForSelector|by apply emits_page_click]. }
  intros _. apply (writes_at_most_bind 0 1).
  { by apply (writes_at_most_silent (λ _, True)), emits_waitForTimeout. }
  intros _. apply (writes_at_most_bind 0 1).
  { by apply (writes_at_most_silent (λ _, True)), emits_page_select. }
  intros _. apply (writes_at_most_bind 0 1).
  { by apply (writes_at_most_silent (λ _, True)), emits_waitForTimeout. }
  intros _. apply (writes_at_most_bind 0 1).
  { apply (writes_at_most_silent (λ _, True)), emits_reads, reads_page_eval. }
  intros _. apply (writes_at_most_bind 0 1).
  { apply (writes_at_most_silent (λ _, True)).
    eapply emits_weaken; [apply @is_not_write_transition|done|].
    apply emits_pickStores. }
  intros ss. apply (writes_at_most_bind 1 0).
  { intros w. cbn. by split. }
  intros _. apply (writes_at_most_bind 0 0); [apply silent_click|].
  intros _. apply (writes_at_most_silent (λ _, True)). by apply emits_ret.
Qed.

Lemma writes_at_most_for_of fuel prefName genres stores :
  writes_at_most (length genres)
    (for_of (App.createMaps_for fuel prefName) genres stores).
Proof.
  revert stores. induction genres as [|h hs IH]; intros stores; cbn [for_of length].
  - apply (writes_at_most_silent (λ _, True)). by apply emits_ret.
  - apply (writes_at_most_bind 1 (length hs)); [apply writes_at_most_createMaps_for|].
    intros ss. apply IH.
Qed.

(** X7.  When the category loop of [app.ts] fails, the run of the
    region fails with the error of the loop, on the page the loop left,
    and does nothing after it: the aggregate file is not written and the
    link to the next region is not looked up.  The files of the run are
    those the loop wrote before it failed, at most one per enumerated
    category. *)
Theorem failed_walk_writes_no_aggregate fuel p w input expand w0 e w2 t :
  el_query w p sel_input = Some input →
  el_query w p sel_expand = Some expand →
  click w expand = Some w0 →
  for_of (App.createMaps_for fuel (getAttribute w input "data-label"))
    (page_query_all (waitTimeout w0 3000) sel_genres) []
    (waitTimeout w0 3000) = (Throw e, w2, t) →
  App.createMaps fuel (Some p) w =
    (Throw e, w2, [AClick expand; AWaitForTimeout 3000] ++ t) ∧
  writes (App.createMaps fuel (Some p) w).2 = writes t ∧
  (length (writes t) ≤ length (page_query_all (waitTimeout w0 3000) sel_genres))%nat.
Proof.
  intros Hinput Hexpand Hclick Hwalk.
  assert (App.createMaps fuel (Some p) w =
            (Throw e, w2, [AClick expand; AWaitForTimeout 3000] ++ t)) as Hrun.
  { unfold App.createMaps.
    rewrite (run_bind_read _ _ w (getAttribute w input "data-label")).
    2:{ rewrite run_receiver_some. unfold el_eval, fn_data_label. by rewrite Hinput. }
    rewrite (run_bind_ok _ _ w tt w0 [AClick expand]).
    2:{ rewrite run_receiver_some, run_bind.
        unfold el_dollar. rewrite Hexpand. rewrite run_receiver_some.
        unfold el_click. by rewrite Hclick. }
    rewrite (run_bind_ok _ _ w0 tt (waitTimeout w0 3000) [AWaitForTimeout 3000]) by done.
    rewrite (run_bind_read _ _ _ (page_query_all (waitTimeout w0 3000) sel_genres))
      by done.
    by rewrite (run_bind_throw _ _ _ _ _ _ Hwalk). }
  split_and!; [done|by rewrite Hrun|].
  destruct (writes_at_most_for_of fuel (getAttribute w input "data-label")
              (page_query_all (waitTimeout w0 3000) sel_genres) []
              (waitTimeout w0 3000)) as [Hle _].
  by rewrite Hwalk in Hle.
Qed.

(** A completed walk of a region by [app.ts]: one write per category, in
    the order of the categories, and then the aggregate, which holds
    the records of the categories one after the other. *)
Lemma writes_category_trace prefName (c : category_run H) :
  writes (category_trace prefName c) = [category_file prefName c].
Proof.
  unfold category_trace. rewrite !writes_app, writes_transitions. done.
Qed.

Lemma writes_category_traces prefName (cs : list (category_run H)) :
  writes (concat (category_trace prefName <$> cs)) = category_file prefName <$> cs.
Proof.
  induction cs as [|c cs IH]; [done|].
  cbn [fmap list_fmap concat]. by rewrite writes_app, writes_category_trace, IH.
Qed.

Lemma writes_next_pref w :
  writes ((el ← page_dollar sel_next_pref; e ← receiver el; el_click e : MA unit) w).2
  = [].
Proof. rewrite next_pref_run. by repeat case_match. Qed.




End LoopFiles.

Lemma failed_walk_writes_no_aggregate_witness :
  App.createMaps 2 (Some (Site.HPref 17)) Site.broken =
    (Throw (NoElement sel_h4), Site.bar_failed,
     [AClick (Site.HPrefExpand 17); AWaitForTimeout 3000] ++
     (for_of (App.createMaps_for 2 (Some "Tokyo")) [Site.HGenre 0; Site.HGenre 1] []
        Site.broken).2) ∧
  writes (App.createMaps 2 (Some (Site.HPref 17)) Site.broken).2 =
    writes (for_of (App.createMaps_for 2 (Some "Tokyo")) [Site.HGenre 0; Site.HGenre 1] []
              Site.broken).2 ∧
  (length (writes (for_of (App.createMaps_for 2 (Some "Tokyo"))
                     [Site.HGenre 0; Site.HGenre 1] [] Site.broken).2) ≤
   length (page_query_all Site.broken sel_genres))%nat.
Proof.
  refine (failed_walk_writes_no_aggregate 2 (Site.HPref 17) Site.broken
            (Site.HPrefInput 17) (Site.HPrefExpand 17) Site.broken
            (NoElement sel_h4) Site.bar_failed
            (for_of (App.createMaps_for 2 (Some "Tokyo")) [Site.HGenre 0; Site.HGenre 1] []
               Site.broken).2 _ _ _ _).
  - reflexivity.
  - reflexivity.
  - reflexivity.
  - reflexivity.
Defined.

(** On that site the file of the first category is the only one. *)
Example broken_walk_files :
  (writes (App.createMaps 2 (Some (Site.HPref 17)) Site.broken).2).*1 =
    ["./dist/Tokyo-Cafe.csv"].
Proof. reflexivity. Qed.

(** A failing turn leaves its file behind when it fails on the click
    that toggles the category back. *)
Example stuck_selector_leaves_file :
  let run := @for_of _ _ _ _ _
               (@App.createMaps_for _ _ Variants.stuck_selector 2 (Some "Tokyo"))
               [Site.HGenre 0; Site.HGenre 1] [] Site.tokyo in
  run.1.1 = Throw ClickFailed ∧ (writes run.2).*1 = ["./dist/Tokyo-Restaurant.csv"].
Proof. by split. Qed.


(** ** The run of [main] *)

Section MainRun.
Context {W H : Type} `{!Browser W H}.
Implicit Types w : W.

Lemma is_walk_action_transition {R} (a : action H R) :
  is_transition_action a → is_walk_action a.
Proof. by intros [->|[->| ->]]. Qed.

Lemma emits_createMaps_walk fuel pref :
  emits is_walk_action (λ _, True) (Part000.createMaps fuel pref).
Proof.
  eapply emits_weaken; [| |apply never_createMaps]; [|done]. by intros a [_ ?].
Qed.

Lemma emits_createMaps_for_named fuel prefName stores genre :
  emits (λ a, is_walk_action a ∧ named_after prefName a) (λ _, True)
    (App.createMaps_for fuel prefName stores genre).
Proof.
  eapply emits_bind; [apply emits_reads, reads_el_eval|]. intros genreName _.
  eapply emits_bind; [apply emits_reads, reads_el_dollar|]. intros genreSelect _.
  eapply emits_bind.
  { eapply emits_bind; [apply emits_reads, reads_receiver|].
    intros g _. by apply emits_el_click. }
  intros _ _.
  eapply emits_bind; [by apply emits_waitForTimeout|]. intros _ _.
  eapply emits_bind.
  { apply emits_promise_all2; [by apply emits_waitForSelector|by apply emits_page_click]. }
  intros _ _.
  eapply emits_bind; [by apply emits_waitForTimeout|]. intros _ _.
  eapply emits_bind; [by apply emits_page_select|]. intros _ _.
  eapply emits_bind; [by apply emits_waitForTimeout|]. intros _ _.
  eapply emits_bind; [apply emits_reads, reads_page_eval|]. intros _ _.
  eapply emits_bind.
  { eapply emits_weaken; [|done|apply (emits_pickStores fuel genreName)].
    by intros a [->|[->| ->]]. }
  intros ss _.
  eapply emits_bind.
  { apply emits_writeFileSync. split; [done|]. by exists genreName. }
  intros _ _.
  eapply emits_bind.
  { eapply emits_bind; [apply emits_reads, reads_receiver|].
    intros g _. by apply emits_el_click. }
  intros _ _. by apply emits_ret.
Qed.

(** The run of a region of [app.ts] once the label of the region is
    read. *)
Lemma createMaps_named fuel pref w prefName :
  (p ← receiver pref; el_eval p sel_input fn_data_label
   : M W H App.Store (option string)) w = (Ok prefName, w, []) →
  Forall (λ a, is_walk_action a ∧ named_after prefName a)
    (App.createMaps fuel pref w).2.
Proof.
  intros Hname. unfold App.createMaps. rewrite (run_bind_read _ _ _ _ Hname).
  clear Hname. revert w.
  match goal with
  | |- ∀ w, Forall ?P (?m w).2 => enough (emits P (λ _, True) m) as Hm
  end.
  { intros w. apply Hm. }
  eapply emits_bind.
  { eapply emits_bind; [apply emits_reads, reads_receiver|]. intros p _.
    eapply emits_bind; [apply emits_reads, reads_el_dollar|]. intros el _.
    eapply emits_bind; [apply emits_reads, reads_receiver|].
    intros e _. by apply emits_el_click. }
  intros _ _.
  eapply emits_bind; [by apply emits_waitForTimeout|]. intros _ _.
  eapply emits_bind; [apply emits_reads, reads_page_dollars|]. intros hs _.
  eapply emits_bind.
  { apply (emits_for_of _ (λ _, True)); [|done]. intros ss h _.
    apply emits_createMaps_for_named. }
  intros ss _.
  eapply emits_bind.
  { apply emits_writeFileSync. split; [done|]. by exists (Some "all"). }
  intros _ _.
  eapply emits_bind; [apply emits_reads, reads_page_dollar|]. intros el _.
  eapply emits_bind; [apply emits_reads, reads_receiver|].
  intros e _. by apply emits_el_click.
Qed.

Lemma emits_App_createMaps_walk fuel pref :
  emits is_walk_action (λ _, True) (App.createMaps fuel pref).
Proof.
  intros w. split; [|done].
  destruct ((p ← receiver pref; el_eval p sel_input fn_data_label
             : M W H App.Store (option string)) w) as [[o w1] t1] eqn:Hname.
  assert (w1 = w ∧ t1 = []) as [-> ->].
  { pose proof (reads_bind (R:=App.Store) (receiver pref)
                  (λ p, el_eval p sel_input fn_data_label)
                  (reads_receiver pref) (λ p, reads_el_eval p _ _) w) as Hr.
    rewrite Hname in Hr. by destruct Hr. }
  destruct o as [prefName|e|].
  - eapply Forall_impl; [apply (createMaps_named _ _ _ _ Hname)|]. by intros a [? _].
  - unfold App.createMaps. by rewrite (run_bind_throw _ _ _ _ _ _ Hname).
  - unfold App.createMaps. rewrite run_bind, Hname. constructor.
Qed.

(** The run of [main] around the walk of its regions. *)
Lemma main_shape {R} (walk : M W H R unit) w :
  emits is_walk_action (λ _, True) walk →
  let r := (page_goto start_url;; walk;; emit AClose) w in
  ∃ tr0, Forall is_walk_action tr0 ∧
    match r.1.1 with
    | Ok _ => r.2 = AGoto start_url :: tr0 ++ [AClose]
    | _ => r.2 = [] ∨ r.2 = AGoto start_url :: tr0
    end.
Proof.
  intros Hwalk r. subst r. rewrite run_bind. unfold page_goto.
  destruct (goto w start_url) as [w1|]; [|exists []; split; [constructor|by left]].
  rewrite run_bind. destruct (Hwalk w1) as [Htr _].
  destruct (walk w1) as [[[[]|e|] w2] t2]; cbn [fst snd] in *;
    exists t2; (split; [done|]); cbn; first [done|by right].
Qed.

(** X8.  [main] navigates once, first, to the starting page; the browser
    is closed exactly when the run succeeds, as its last action: a run
    that fails, in the walk of the region or on the navigation itself,
    leaves the browser open.  Between the navigation and the closing
    there are only actions of the walk.  This holds for both versions. *)
Theorem main_closes_browser_on_success_only fuel w :
  (∃ tr0, Forall is_walk_action tr0 ∧
     match (Part000.main fuel w).1.1 with
     | Ok _ => (Part000.main fuel w).2 = AGoto start_url :: tr0 ++ [AClose]
     | _ => (Part000.main fuel w).2 = [] ∨
            (Part000.main fuel w).2 = AGoto start_url :: tr0
     end) ∧
  (∃ tr0, Forall is_walk_action tr0 ∧
     match (App.main fuel w).1.1 with
     | Ok _ => (App.main fuel w).2 = AGoto start_url :: tr0 ++ [AClose]
     | _ => (App.main fuel w).2 = [] ∨
            (App.main fuel w).2 = AGoto start_url :: tr0
     end).
Proof.
  split.
  - pose (walk := (allPrefs ← page_dollars sel_prefs;
                   for_of (λ _ pref, Part000.createMaps fuel pref)
                     ((λ n, allPrefs !! n) <$> [17]) tt
                   : M W H Part000.Merchant unit)).
    assert (Part000.main fuel w = (page_goto start_url;; walk;; emit AClose) w) as ->.
    { unfold Part000.main. apply run_bind_ext. intros _ w1.
      symmetry. apply run_bind_assoc. }
    apply (main_shape walk).
    eapply emits_bind; [apply emits_reads, reads_page_dollars|]. intros allPrefs _.
    apply (emits_for_of _ (λ _, True)); [|done].
    intros [] pref _. apply emits_createMaps_walk.
  - pose (walk := (allPrefs ← page_dollars sel_prefs;
                   for_of (λ _ pref, App.createMaps fuel pref)
                     ((λ n, allPrefs !! n) <$> [17]) tt
                   : M W H App.Store unit)).
    assert (App.main fuel w = (page_goto start_url;; walk;; emit AClose) w) as ->.
    { unfold App.main. apply run_bind_ext. intros _ w1.
      symmetry. apply run_bind_assoc. }
    apply (main_shape walk).
    eapply emits_bind; [apply emits_reads, reads_page_dollars|]. intros allPrefs _.
    apply (emits_for_of _ (λ _, True)); [|done].
    intros [] pref _. apply emits_App_createMaps_walk.
Qed.

(** X9.  A region whose label is [null]: [part_000] stops on it before
    any action, with the error that names the label of the region;
    [app.ts] makes no check and walks the region: it expands it, goes
    through its categories and, when that loop completes, writes the
    aggregate and looks for the link to the next region.  Its files are
    named after the text [null]: one per category, in the order of the
    categories, and [./dist/null-all.csv] with the records of all of
    them. *)
Theorem null_region_label fuel p w input expand w0 stores w2 t :
  el_query w p sel_input = Some input →
  getAttribute w input "data-label" = None →
  el_query w p sel_expand = Some expand →
  click w expand = Some w0 →
  for_of (App.createMaps_for fuel None)
    (page_query_all (waitTimeout w0 3000) sel_genres) []
    (waitTimeout w0 3000) = (Ok stores, w2, t) →
  Part000.createMaps fuel (Some p) w = (Throw (Error Part000.msg_pref_name), w, []) ∧
  App.createMaps fuel (Some p) w =
    after ([AClick expand; AWaitForTimeout 3000] ++ t ++
           [AWriteFile "./dist/null-all.csv" stores])
      ((el ← page_dollar sel_next_pref; e ← receiver el; el_click e) w2) ∧
  ∃ cs : list (category_run H),
    Forall2 (category_of fuel) (page_query_all (waitTimeout w0 3000) sel_genres) cs ∧
    stores = concat (run_records <$> cs) ∧
    writes (App.createMaps fuel (Some p) w).2 =
      ((λ c, ("./dist/null-" +:+ template (run_label c) +:+ ".csv", run_records c))
         <$> cs) ++ [("./dist/null-all.csv", stores)].
Proof.
  intros Hinput Hlabel Hexpand Hclick Hwalk.
  assert (App.createMaps fuel (Some p) w =
            after ([AClick expand; AWaitForTimeout 3000] ++ t ++
                   [AWriteFile "./dist/null-all.csv" stores])
              ((el ← page_dollar sel_next_pref; e ← receiver el; el_click e) w2))
    as Hrun.
  { rewrite <-Hlabel in Hwalk.
    rewrite (createMaps_walked _ _ _ _ _ _ _ _ _ Hinput Hexpand Hclick Hwalk).
    by rewrite Hlabel. }
  split_and!; [|done|].
  - unfold Part000.createMaps. apply run_bind_throw.
    unfold Part000.getPrefecturesName.
    rewrite (run_bind_read _ _ w None); [done|].
    rewrite run_receiver_some. unfold el_eval, fn_data_label.
    by rewrite Hinput, Hlabel.
  - pose proof Hwalk as (cs & Hcs & _ & Hss & Ht)%for_of_createMaps_for_inv.
    cbn [app] in Hss. exists cs. split_and!; [done..|].
    rewrite Hrun. unfold after. cbn [snd]. rewrite !writes_app.
    rewrite writes_next_pref, Ht, writes_category_traces. cbn.
    by rewrite app_nil_r.
Qed.
End MainRun.

Lemma null_region_label_witness :
  Part000.createMaps 2 (Some (Site.HPref 17)) Site.unlabelled =
    (Throw (Error Part000.msg_pref_name), Site.unlabelled, []) ∧
  (App.createMaps 2 (Some (Site.HPref 17)) Site.unlabelled).1.1 = Ok tt ∧
  (writes (App.createMaps 2 (Some (Site.HPref 17)) Site.unlabelled).2).*1 =
    ["./dist/null-Cafe.csv"; "./dist/null-all.csv"].
Proof.
  destruct (null_region_label 2 (Site.HPref 17) Site.unlabelled (Site.HPrefInput 17)
              (Site.HPrefExpand 17) Site.unlabelled
              (to_store <$> merchants_of "Cafe" [[("C1", "B1"); ("C2", "B2")]])
              (for_of (App.createMaps_for 2 None) [Site.HGenre 0] [] Site.unlabelled).1.2
              (for_of (App.createMaps_for 2 None) [Site.HGenre 0] [] Site.unlabelled).2)
    as (Hpart & Happ & cs & Hcs & Hss & Hwrites); [reflexivity..|].
  split; [exact Hpart|]. by rewrite Happ.
Defined.

(** ** Fuel *)

Section Fuel.
Context {W H : Type} `{!Browser W H}.
Implicit Types w : W.

Lemma agrees_refl {R A} (m : M W H R A) : agrees m m.
Proof. by intros w. Qed.

Lemma agrees_bind {R A B} (m m' : M W H R A) (k k' : A → M W H R B) :
  agrees m m' → (∀ a, agrees (k a) (k' a)) → agrees (m ≫= k) (m' ≫= k').
Proof.
  intros Hm Hk w. rewrite !run_bind. specialize (Hm w).
  destruct (m w) as [[[a|e|] w1] t1]; cbn [fst snd] in *.
  - intros Hend. rewrite Hm by done. specialize (Hk a w1).
    destruct (k a w1) as [[o w2] t2]. cbn [fst snd] in *. by rewrite Hk.
  - intros _. by rewrite Hm.
  - done.
Qed.

Lemma agrees_for_of {R A C} (body body' : A → C → M W H R A) l :
  (∀ a c, agrees (body a c) (body' a c)) →
  ∀ a, agrees (for_of body l a) (for_of body' l a).
Proof.
  intros Hbody. induction l as [|c l IH]; intros a; cbn [for_of].
  - apply agrees_refl.
  - apply agrees_bind; [apply Hbody|]. intros a'. apply IH.
Qed.

Lemma fuel_monotone_getMerchantFromSearchResult genre :
  fuel_monotone (λ fuel, Part000.getMerchantFromSearchResult fuel genre).
Proof.
  intros n n' Hle. apply agrees_bind; [apply agrees_refl|]. intros _.
  generalize (@nil Part000.Merchant). revert n' Hle.
  induction n as [|n IH]; intros n' Hle merchants; [by intros w|].
  destruct n' as [|n']; [lia|].
  cbn [Part000.getMerchantFromSearchResult_while].
  apply agrees_bind; [apply agrees_refl|]. intros _.
  apply agrees_bind; [apply agrees_refl|]. intros details.
  apply agrees_bind; [apply agrees_refl|]. intros picked.
  apply agrees_bind; [apply agrees_refl|]. intros []; [|apply agrees_refl].
  apply agrees_bind; [apply agrees_refl|]. intros _. apply IH. lia.
Qed.

Lemma fuel_monotone_pickStores genre :
  fuel_monotone (λ fuel, App.pickStores fuel genre).
Proof.
  intros n n' Hle. apply agrees_bind; [apply agrees_refl|]. intros _.
  generalize (@nil App.Store). revert n' Hle.
  induction n as [|n IH]; intros n' Hle stores; [by intros w|].
  destruct n' as [|n']; [lia|].
  cbn [App.pickStores_while].
  apply agrees_bind; [apply agrees_refl|]. intros _.
  apply agrees_bind; [apply agrees_refl|]. intros details.
  apply agrees_bind; [apply agrees_refl|]. intros picked.
  apply agrees_bind; [apply agrees_refl|]. intros []; [|apply agrees_refl].
  apply agrees_bind; [apply agrees_refl|]. intros _.
  apply agrees_bind; [apply agrees_refl|]. intros _. apply IH. lia.
Qed.

(** The fuel only bounds the [while] loop: a run of [main] that ends,
    with a result or with an error, within some fuel is the same run,
    with the same outcome, page and actions, under any larger fuel. *)
Lemma main_fuel_monotone :
  fuel_monotone (Part000.main (W:=W) (H:=H)) ∧ fuel_monotone (App.main (W:=W) (H:=H)).
Proof.
  split; intros n n' Hle.
  - apply agrees_bind; [apply agrees_refl|]. intros _.
    apply agrees_bind; [apply agrees_refl|]. intros allPrefs.
    apply agrees_bind; [|intros _; apply agrees_refl].
    apply agrees_for_of. intros [] pref.
    apply agrees_bind; [apply agrees_refl|]. intros prefName.
    apply agrees_bind; [apply agrees_refl|]. intros _.
    apply agrees_bind; [apply agrees_refl|]. intros _.
    apply agrees_bind; [apply agrees_refl|]. intros hs.
    apply agrees_bind; [|intros ms; apply agrees_refl].
    apply agrees_for_of. intros ms h.
    apply agrees_bind; [apply agrees_refl|]. intros genreName.
    apply agrees_bind; [apply agrees_refl|].
    intros [genreSelect|]; [|apply agrees_refl].
    do 7 (apply agrees_bind; [apply agrees_refl|]; intros _).
    apply agrees_bind; [|intros ?; apply agrees_refl].
    by apply fuel_monotone_getMerchantFromSearchResult.
  - apply agrees_bind; [apply agrees_refl|]. intros _.
    apply agrees_bind; [apply agrees_refl|]. intros allPrefs.
    apply agrees_bind; [|intros _; apply agrees_refl].
    apply agrees_for_of. intros [] pref.
    apply agrees_bind; [apply agrees_refl|]. intros prefName.
    apply agrees_bind; [apply agrees_refl|]. intros _.
    apply agrees_bind; [apply agrees_refl|]. intros _.
    apply agrees_bind; [apply agrees_refl|]. intros hs.
    apply agrees_bind; [|intros ms; apply agrees_refl].
    apply agrees_for_of. intros ss h.
    apply agrees_bind; [apply agrees_refl|]. intros genreName.
    apply agrees_bind; [apply agrees_refl|]. intros genreSelect.
    do 7 (apply agrees_bind; [apply agrees_refl|]; intros _).
    apply agrees_bind; [|intros ?; apply agrees_refl].
    by apply fuel_monotone_pickStores.
Qed.
End Fuel.

Example main_fuel_monotone_tokyo :
  Part000.main 5 Site.tokyo = Part000.main 2 Site.tokyo ∧
  App.main 5 Site.tokyo = App.main 2 Site.tokyo.
Proof.
  destruct (@main_fuel_monotone Site.site Site.handle _) as [HP HA].
  split.
  - apply (HP 2 5); [lia|]. by vm_compute.
  - apply (HA 2 5); [lia|]. by vm_compute.
Defined.

(** ** The label of a category *)

Section CategoryLabel.
Context {W H : Type} `{!Browser W H}.
Implicit Types w : W.

Lemma labelled_transition prefName genreName (a : action H App.Store) :
  is_transition_action a → labelled prefName genreName a.
Proof. by intros [->|[->| ->]]. Qed.

Lemma emits_pickStores_genre fuel genre :
  emits is_transition_action (Forall (λ s, App.genre s = genre))
    (App.pickStores fuel genre).
Proof.
  intros w. destruct (emits_pickStores fuel genre w) as [Htr _].
  split; [done|]. intros ss Hss.
  destruct (App.pickStores fuel genre w) as [[o w'] tr] eqn:Hrun.
  cbn [fst] in Hss. subst o.
  by apply pickStores_inv in Hrun as (n & _ & ?).
Qed.

Lemma emits_createMaps_for_labelled fuel prefName stores genre w genreName :
  (el_eval genre sel_input fn_data_label : M W H App.Store _) w = (Ok genreName, w, []) →
  Forall (labelled prefName genreName) (App.createMaps_for fuel prefName stores genre w).2.
Proof.
  intros Hname. unfold App.createMaps_for. rewrite (run_bind_read _ _ _ _ Hname).
  clear Hname. revert w.
  match goal with
  | |- ∀ w, Forall ?P (?m w).2 => enough (emits P (λ _, True) m) as Hm
  end.
  { intros w. apply Hm. }
  eapply emits_bind; [apply emits_reads, reads_el_dollar|]. intros genreSelect _.
  eapply emits_bind.
  { eapply emits_bind; [apply emits_reads, reads_receiver|].
    intros g _. by apply emits_el_click. }
  intros _ _.
  eapply emits_bind; [by apply emits_waitForTimeout|]. intros _ _.
  eapply emits_bind.
  { apply emits_promise_all2; [by apply emits_waitForSelector|by apply emits_page_click]. }
  intros _ _.
  eapply emits_bind; [by apply emits_waitForTimeout|]. intros _ _.
  eapply emits_bind; [by apply emits_page_select|]. intros _ _.
  eapply emits_bind; [by apply emits_waitForTimeout|]. intros _ _.
  eapply emits_bind; [apply emits_reads, reads_page_eval|]. intros _ _.
  eapply emits_bind.
  { eapply emits_weaken; [|done|apply (emits_pickStores_genre fuel genreName)].
    apply labelled_transition. }
  intros ss Hss.
  eapply emits_bind; [by apply emits_writeFileSync|]. intros _ _.
  eapply emits_bind.
  { eapply emits_bind; [apply emits_reads, reads_receiver|].
    intros g _. by apply emits_el_click. }
  intros _ _. by apply emits_ret.
Qed.

(** X10.  A category whose label is [null]: [part_000] stops on it
    before any action, with the error that names the label of the
    category, so that the category is not selected and no search is
    submitted; [app.ts] goes on, and whatever it writes for the category
    is a file named after the text [null] whose records all carry the
    label [null]. *)
Theorem null_category_label fuel prefName prefName' merchants stores genre input w :
  el_query w genre sel_input = Some input →
  getAttribute w input "data-label" = None →
  Part000.createMaps_for fuel prefName merchants genre w =
    (Throw (Error Part000.msg_genre_name), w, []) ∧
  Forall (λ f, f.1 = csv_path (template prefName') "null" ∧
               Forall (λ s, App.genre s = None) f.2)
    (writes (App.createMaps_for fuel prefName' stores genre w).2).
Proof.
  intros Hinput Hlabel.
  assert (∀ R, (el_eval genre sel_input fn_data_label : M W H R _) w = (Ok None, w, []))
    as Hname.
  { intros R. unfold el_eval, fn_data_label. by rewrite Hinput, Hlabel. }
  split.
  - unfold Part000.createMaps_for. apply run_bind_throw.
    unfold Part000.getGenreName. by rewrite (run_bind_read _ _ w None).
  - apply (Forall_writes (labelled prefName' None)).
    by apply emits_createMaps_for_labelled.
Qed.
End CategoryLabel.

Lemma null_category_label_witness :
  Part000.createMaps_for 2 "Tokyo" [] (Site.HGenre 0) Variants.nameless =
    (Throw (Error Part000.msg_genre_name), Variants.nameless, []) ∧
  Forall (λ f, f.1 = csv_path "Tokyo" "null" ∧
               Forall (λ s, App.genre s = None) f.2)
    (writes (App.createMaps_for 2 (Some "Tokyo") [] (Site.HGenre 0) Variants.nameless).2).
Proof.
  apply (null_category_label 2 "Tokyo" (Some "Tokyo") [] [] (Site.HGenre 0)
           (Site.HGenreInput 0) Variants.nameless).
  - reflexivity.
  - reflexivity.
Defined.

(** On that site [app.ts] does write the file. *)
Example nameless_file :
  writes (App.createMaps_for 2 (Some "Tokyo") [] (Site.HGenre 0) Variants.nameless).2 =
  [(csv_path "Tokyo" "null",
    [{| App.name := Some "C1"; App.address := Some "B1"; App.genre := None |};
     {| App.name := Some "C2"; App.address := Some "B2"; App.genre := None |}])].
Proof. reflexivity. Qed.
